(** * fsspec [core.py]: deferred-open file wrappers and URL resolution

    A shallow embedding of the vendored [fsspec/core.py] module
    ([OpenFile], [_close], [get_compression], [split_protocol],
    [_un_chain], [expand_paths_if_needed], [_expand_paths] and
    [get_fs_token_paths]) together with the properties its design
    document states about it.
    The rest of the module ([OpenFile.open], [OpenFiles], [open_files],
    [url_to_fs], [open], [open_local] and [strip_protocol]) follows, with
    further properties read off the code.

    Python values are modelled as follows.
    - [str] is [string]; the [str] methods the module uses ([in],
      [split], [count], [replace], indexing) are written out in [Str].
    - [None]-able arguments are [option]s.
    - a [dict] of keyword arguments is a [gmap string value].
    - exceptions are the left injection of a sum, threaded together with
      the state of the outside world by the monad [M].
    - everything the module imports from elsewhere (file systems, the
      codec table, the protocol registry, helpers of [fsspec.utils]) is an
      operation of the classes [Backend] and [Registry]. *)

From stdpp Require Import base option list strings gmap pretty.
From Stdlib Require Import Ascii ZArith Lia Sorted.

Local Open Scope string_scope.
Local Open Scope Z_scope.
Local Open Scope list_scope.

(** ** Python [str] methods *)

Module Str.

(** [s[n:]] *)
Fixpoint drop (n : nat) (s : string) : string :=
  match n, s with
  | O, _ => s
  | S _, EmptyString => EmptyString
  | S n', String _ s' => drop n' s'
  end.

(** [s.partition(sub)] when [sub] occurs in [s]: the text before the
    first occurrence and the text after it. *)
Fixpoint find (sub s : string) {struct s} : option (string * string) :=
  if String.prefix sub s then Some (EmptyString, drop (String.length sub) s)
  else match s with
       | EmptyString => None
       | String c s' =>
           match find sub s' with
           | Some (a, b) => Some (String c a, b)
           | None => None
           end
       end.

(** [sub in s] *)
Definition contains (sub s : string) : bool :=
  match find sub s with Some _ => true | None => false end.

(** [s.split(sub, 1)] *)
Definition split1 (sub s : string) : list string :=
  match find sub s with Some (a, b) => [a; b] | None => [s] end.

(** Scan for [s.split(sub)]: the first piece and the pieces after it.
    [skip] counts the characters of a separator that was just matched
    and is still to be stepped over. *)
Fixpoint split_go (sub : string) (skip : nat) (s : string) {struct s}
  : string * list string :=
  match s with
  | EmptyString => (EmptyString, [])
  | String c s' =>
      match skip with
      | S k => split_go sub k s'
      | O =>
          if String.prefix sub s
          then (EmptyString,
                let '(h, t) := split_go sub (String.length sub - 1) s' in h :: t)
          else let '(h, t) := split_go sub 0 s' in (String c h, t)
      end
  end.

(** [s.split(sub)] for a non-empty [sub] *)
Definition split (sub s : string) : list string :=
  let '(h, t) := split_go sub 0 s in h :: t.

(** [s.count(sub)] *)
Definition count (sub s : string) : nat := length (snd (split_go sub 0 s)).

(** [s.replace(old, new)] *)
Definition replace (old new s : string) : string :=
  String.concat new (split old s).

(** [s.endswith(suf)] *)
Fixpoint endswith (suf s : string) : bool :=
  String.eqb suf s
  || match s with EmptyString => false | String _ s' => endswith suf s' end.

(** [s[0]] of a non-empty string, as a one-character string *)
Definition head (s : string) : string := String.substring 0 1 s.

(** [sorted(l)] on strings: stable insertion by the code-point order. *)
Fixpoint insert_sorted (x : string) (l : list string) : list string :=
  match l with
  | [] => [x]
  | y :: l' => if String.leb x y then x :: l else y :: insert_sorted x l'
  end.

Definition sorted (l : list string) : list string := foldr insert_sorted [] l.

End Str.

(** [posixpath.join(a, b)] *)
Definition os_path_join (a b : string) : string :=
  if String.prefix "/" b then b
  else if String.eqb a "" || Str.endswith "/" a then a +:+ b
  else a +:+ "/" +:+ b.

(** [range(n)] *)
Definition range (n : Z) : list Z := Z.of_nat <$> seq 0 (Z.to_nat n).

(** ** Exceptions and dynamically typed values *)

Inductive exn :=
  | ValueError (msg : string)
  | KeyError (key : string)
  | TypeError (msg : string)
  | AttributeError (msg : string)
  | IndexError (msg : string)
  | AssertionError
  | OSError (msg : string).

(** The values that occur in keyword-argument dictionaries: [None],
    strings, lists and nested dictionaries (kept as their item lists). *)
#[warnings="-register-all"]
Inductive value :=
  | VNone
  | VStr (s : string)
  | VList (l : list value)
  | VDict (d : list (string * value)).

#[global] Instance value_eq_dec : EqDecision value.
Proof.
  refine (fix go (a b : value) {struct a} : Decision (a = b) :=
    match a, b with
    | VNone, VNone => left _
    | VStr s, VStr t => cast_if (decide (s = t))
    | VList l, VList m => cast_if (@decide (l = m) (@list_eq_dec _ go l m))
    | VDict d, VDict e =>
        cast_if (@decide (d = e)
                   (@list_eq_dec _ (@prod_eq_dec _ _ _ go) d e))
    | _, _ => right _
    end); abstract congruence.
Defined.

Abbreviation kwargs := (gmap string value).

(** The call [dict] with the items of [a] and of [b] as keyword arguments:
    a keyword given twice is a [TypeError]. *)
Definition dict_merge (a b : kwargs) : exn + kwargs :=
  if decide (dom a ∩ dom b = (∅ : gset string)) then inr (a ∪ b)
  else inl (TypeError "dict() got multiple values for keyword argument").

(** The dictionary stored under a key of another dictionary. *)
Definition to_dict (d : kwargs) : value := VDict (map_to_list d).

(** ** The outside world *)

(** File systems, the file-like objects they hand out, the codec table
    [fsspec.compression.compr], [io.TextIOWrapper] and
    [fsspec.utils.infer_compression].  Every call may change the world and
    may raise. *)
Class Backend := {
  world : Type;
  fs : Type;
  fobj : Type;
  fs_open : fs → string → string → world → (exn + fobj) * world;
  fs_glob : fs → string → world → (exn + list string) * world;
  fs_isdir : fs → string → world → (exn + bool) * world;
  fs_token : fs → string;
  compr : gmap string (fobj → string → world → (exn + fobj) * world);
  infer_compression : string → option string;
  TextIOWrapper :
    fobj → option string → option string → option string →
    world → (exn + fobj) * world;
  fobj_closed : fobj → world → bool;
  fobj_flush : fobj → world → (exn + unit) * world;
  fobj_close : fobj → world → (exn + unit) * world;
}.

(** The protocol registry [fsspec.registry], the class-level methods of
    the file-system classes it returns, and two helpers of
    [fsspec.utils]. *)
Class Registry `{Backend} := {
  cls : Type;
  get_filesystem_class : option string → exn + cls;
  _get_kwargs_from_urls : cls → string → kwargs;
  _strip_protocol : cls → string → string;
  cls_new : cls → kwargs → world → (exn + fs) * world;
  fs_class : fs → cls;
  update_storage_options : kwargs → option kwargs → exn + kwargs;
  build_name_function : Z → exn + (Z → string);
}.

(** What the module does to the outside world, in the order it does it. *)
Inductive event `{Registry} :=
  | EvOpen (f : fs) (path mode : string)
  | EvCompress (codec : string) (inner : fobj) (mode : string)
  | EvTextIOWrapper (inner : fobj)
  | EvFlush (f : fobj)
  | EvClose (f : fobj)
  | EvNew (c : cls) (options : kwargs)
  | EvGlob (f : fs) (pattern : string)
  | EvIsdir (f : fs) (path : string)
  | EvWarning (msg : string).

(** ** The monad of the module's functions

    A computation runs from a state [S], returns a value or raises, and
    leaves the events it caused. *)
Definition M `{Registry} (S A : Type) : Type := S → (exn + A) * S * list event.

Section monad.
Context `{Registry} {S : Type}.

Definition ret {A} (x : A) : M S A := λ s, (inr x, s, []).

Definition bind {A B} (m : M S A) (k : A → M S B) : M S B := λ s,
  match m s with
  | (inr a, s', ev) => let '(r, s'', ev') := k a s' in (r, s'', ev ++ ev')
  | (inl e, s', ev) => (inl e, s', ev)
  end.

Definition raise {A} (e : exn) : M S A := λ s, (inl e, s, []).

(** A pure computation that may raise. *)
Definition lift {A} (r : exn + A) : M S A := λ s, (r, s, []).

Definition emit (e : event) : M S unit := λ s, (inr tt, s, [e]).

Definition get : M S S := λ s, (inr s, s, []).

Definition put (s : S) : M S unit := λ _, (inr tt, s, []).

(** [for x in l: body(x)] *)
Fixpoint for_each {A} (l : list A) (body : A → M S unit) : M S unit :=
  match l with
  | [] => ret tt
  | x :: l' => bind (body x) (λ _, for_each l' body)
  end.

(** [[body(x) for x in l]] *)
Fixpoint map_each {A B} (l : list A) (body : A → M S B) : M S (list B) :=
  match l with
  | [] => ret []
  | x :: l' => bind (body x) (λ y, bind (map_each l' body) (λ ys, ret (y :: ys)))
  end.
End monad.

Notation "'let*' x := m 'in' k" := (bind m (λ x, k))
  (at level 10, x pattern, m at level 100, k at level 200,
   format "'[v' 'let*'  x  :=  m  'in'  '/' k ']'").

Section events.
Context `{Registry}.

(** The file objects closed, and those flushed, in the order of the calls. *)
Definition closes (ev : list event) : list fobj :=
  omap (λ e, match e with EvClose f => Some f | _ => None end) ev.

Definition flushes (ev : list event) : list fobj :=
  omap (λ e, match e with EvFlush f => Some f | _ => None end) ev.

Definition is_warning (e : event) : Prop :=
  match e with EvWarning _ => True | _ => False end.
End events.

Section calls.
Context `{Registry}.

(** A call into the outside world from a state that is the world. *)
Definition call {A} (f : world → (exn + A) * world) : M world A := λ w,
  let '(r, w') := f w in (r, w', []).

(** Reading the world. *)
Definition ask {A} (f : world → A) : M world A := λ w, (inr (f w), w, []).
End calls.

(** ** [OpenFile] *)

Record OpenFile `{Backend} := mkOpenFile {
  of_fs : fs;
  of_path : string;
  of_mode : string;
  of_compression : option string;
  of_encoding : option string;
  of_errors : option string;
  of_newline : option string;
  of_fobjects : list fobj;
}.

(** [self.fobjects = l] *)
Definition with_fobjects `{Backend} (self : OpenFile) (l : list fobj) : OpenFile :=
  {| of_fs := of_fs self; of_path := of_path self; of_mode := of_mode self;
     of_compression := of_compression self; of_encoding := of_encoding self;
     of_errors := of_errors self; of_newline := of_newline self;
     of_fobjects := l |}.

Section openfile.
Context `{Registry}.

(** [get_compression(urlpath, compression)] *)
Definition get_compression (urlpath : string) (compression : option string)
  : exn + option string :=
  let compression :=
    if decide (compression = Some "infer") then infer_compression urlpath
    else compression in
  match compression with
  | Some c =>
      if decide (c ∈ dom compr)
      then inr compression
      else inl (ValueError ("Compression type " +:+ c +:+ " not supported"))
  | None => inr None
  end.

(** [OpenFile.__init__] *)
Definition __init__ (fs0 : fs) (path mode : string)
    (compression encoding errors newline : option string) : exn + OpenFile :=
  match get_compression path compression with
  | inl e => inl e
  | inr c =>
      inr {| of_fs := fs0; of_path := path; of_mode := mode;
             of_compression := c; of_encoding := encoding;
             of_errors := errors; of_newline := newline;
             of_fobjects := [] |}
  end.

(** [OpenFile.__reduce__]: the arguments for the constructor; and the
    call of the constructor on them, as unpickling performs it. *)
Definition __reduce__ (self : OpenFile)
  : fs * string * string * option string * option string * option string
    * option string :=
  (of_fs self, of_path self, of_mode self, of_compression self,
   of_encoding self, of_errors self, of_newline self).

Definition reconstruct
    (args : fs * string * string * option string * option string
            * option string * option string) : exn + OpenFile :=
  let '(fs0, path, mode, compression, encoding, errors, newline) := args in
  __init__ fs0 path mode compression encoding errors newline.

(** The methods of an [OpenFile] run on the object and the world. *)
Definition self_fobjects : M (OpenFile * world) (list fobj) :=
  let* s := get in ret (of_fobjects s.1).

Definition set_fobjects (l : list fobj) : M (OpenFile * world) unit :=
  let* s := get in
  put (with_fobjects s.1 l, s.2).

(** Running a computation on the world inside a method. *)
Definition in_world {A} (m : M world A) : M (OpenFile * world) A := λ s,
  let '(r, w', ev) := m (snd s) in (r, (fst s, w'), ev).

(** [OpenFile.__enter__] *)
Definition __enter__ : M (OpenFile * world) fobj :=
  let* s := get in
  let self := fst s in
  let mode := Str.replace "b" "" (Str.replace "t" "" (of_mode self)) +:+ "b" in
  let* _ := emit (EvOpen (of_fs self) (of_path self) mode) in
  let* f := in_world (call (fs_open (of_fs self) (of_path self) mode)) in
  let* _ := set_fobjects [f] in
  let* f :=
    match of_compression self with
    | Some c =>
        match compr !! c with
        | Some compress =>
            let* _ := emit (EvCompress c f (Str.head mode)) in
            let* f' := in_world (call (compress f (Str.head mode))) in
            let* l := self_fobjects in
            let* _ := set_fobjects (l ++ [f']) in
            ret f'
        | None => raise (KeyError c)
        end
    | None => ret f
    end in
  let* _ :=
    if negb (Str.contains "b" (of_mode self)) then
      let* _ := emit (EvTextIOWrapper f) in
      let* f' := in_world (call (TextIOWrapper f (of_encoding self)
                                   (of_errors self) (of_newline self))) in
      let* l := self_fobjects in
      set_fobjects (l ++ [f'])
    else ret tt in
  let* l := self_fobjects in
  match last l with
  | Some f => ret f
  | None => raise (IndexError "list index out of range")
  end.

(** The body of the loop of [_close]. *)
Definition _close_step (mode : string) (f : fobj) : M world unit :=
  let* closed := ask (fobj_closed f) in
  let* _ :=
    if negb (Str.contains "r" mode) && negb closed then
      let* _ := emit (EvFlush f) in call (fobj_flush f)
    else ret tt in
  let* _ := emit (EvClose f) in
  call (fobj_close f).

(** [_close(fobjects, mode)].  The list is cleared at the end, so the
    result is the content of the list afterwards; when a call raises the
    list is as it was. *)
Definition _close (fobjects : list fobj) (mode : string) : M world (list fobj) :=
  let* _ := for_each (reverse fobjects) (_close_step mode) in
  ret [].

(** [OpenFile.close] *)
Definition close : M (OpenFile * world) unit :=
  let* s := get in
  let* l := in_world (_close (of_fobjects (fst s)) (of_mode (fst s))) in
  set_fobjects l.

(** [OpenFile.__exit__] *)
Definition __exit__ : M (OpenFile * world) unit := close.
End openfile.

(** ** URL parsing *)

(** [split_protocol(urlpath)].  [stringify_path] leaves a [str] as it is. *)
Definition split_protocol (urlpath : string) : option string * string :=
  if Str.contains "://" urlpath then
    match Str.split1 "://" urlpath with
    | [protocol; path] =>
        if decide (1 < String.length protocol)%nat
        then (Some protocol, path)
        else (None, urlpath)
    | _ => (None, urlpath)
    end
  else (None, urlpath).

(** What [re.compile(".*[^a-z]+.*").match(p)] decides: some character of
    [p] is not a lower-case ASCII letter.  (A line break does not stop the
    match, being itself such a character.) *)
Definition is_lower (c : ascii) : bool :=
  (97 <=? nat_of_ascii c)%nat && (nat_of_ascii c <=? 122)%nat.

Definition non_protocol_like (p : string) : bool :=
  existsb (λ c, negb (is_lower c)) (String.list_ascii_of_string p).

(** The argument of [_un_chain] and [get_fs_token_paths]: one path or a
    list (tuple, set) of paths. *)
Inductive pathspec :=
  | PStr (s : string)
  | PList (l : list string).

(** The first component of a chain entry: one URL (possibly [None]) or,
    for a list of paths, the list of their URLs. *)
Inductive urls :=
  | One (u : option string)
  | Many (us : list (option string)).

Definition url_value (u : option string) : value :=
  match u with Some s => VStr s | None => VNone end.

Definition urls_value (u : urls) : value :=
  match u with One u => url_value u | Many us => VList (url_value <$> us) end.

Definition cache_protocols : gset string :=
  {[ "blockcache"; "filecache"; "simplecache" ]}.

(** [zip] of the lists of [ls], each given as one argument: the columns,
    as many as the shortest list has elements. *)
Fixpoint zip_first {A} (l : list A) (ls : list (list A)) : list (list A) :=
  match l with
  | [] => []
  | x :: l' =>
      match mapM head ls with
      | Some hs => (x :: hs) :: zip_first l' (tail <$> ls)
      | None => []
      end
  end.

Definition zip_star {A} (ls : list (list A)) : list (list A) :=
  match ls with [] => [] | l :: ls' => zip_first l ls' end.

Section resolver.
Context `{Registry}.

(** [cls(options)] with the options as keyword arguments *)
Definition new (c : cls) (options : kwargs) : M world fs :=
  let* _ := emit (EvNew c options) in
  call (cls_new c options).

(** Modelled from the spec: [fsspec.registry.filesystem], which is not part
    of this module; it looks the class of the protocol up in the registry
    and instantiates it with the options. *)
Definition filesystem (protocol : string) (storage_options : kwargs) : M world fs :=
  let* c := lift (get_filesystem_class (Some protocol)) in
  new c storage_options.

(** One round of the loop of [_un_chain] over the reversed bits. *)
Definition _un_chain_bit (kwargs0 : kwargs) (previous_bit : option string)
    (bit : string) : M world (option string * string * kwargs) :=
  let protocol :=
    match (split_protocol bit).1 with
    | Some p => if decide (p = "") then "file" else p
    | None => "file"
    end in
  let* c := lift (get_filesystem_class (Some protocol)) in
  let extra_kwargs := _get_kwargs_from_urls c bit in
  let* kws :=
    match kwargs0 !! protocol with
    | None => ret ∅
    | Some (VDict d) => ret (list_to_map d)
    | Some _ => raise (TypeError "argument after ** must be a mapping")
    end in
  let* kw := lift (dict_merge extra_kwargs kws) in
  let bit' := Some (_strip_protocol c bit) in
  let bit' :=
    if bool_decide (protocol ∈ cache_protocols)
       && bool_decide ("target_protocol" ∉ dom kw)
    then previous_bit else bit' in
  ret (bit', protocol, kw).

Fixpoint _un_chain_loop (kwargs0 : kwargs) (bits : list string)
    (previous_bit : option string) (out : list (option string * string * kwargs))
  : M world (list (option string * string * kwargs)) :=
  match bits with
  | [] => ret out
  | bit :: bits' =>
      let* e := _un_chain_bit kwargs0 previous_bit bit in
      _un_chain_loop kwargs0 bits' e.1.1 (out ++ [e])
  end.

(** [_un_chain(path, kwargs)] for a [str] *)
Definition _un_chain_str (path : string) (kwargs0 : kwargs)
  : M world (list (option string * string * kwargs)) :=
  let bits :=
    if Str.contains "::" path then
      (λ p, if Str.contains "://" p || non_protocol_like p then p
            else p +:+ "://") <$> Str.split "::" path
    else [path] in
  if decide (length bits < 2)%nat then ret []
  else
    let* out := _un_chain_loop kwargs0 (reverse bits) None [] in
    ret (reverse out).

(** One round of the loop of [_un_chain] over the columns of a list. *)
Definition _un_chain_column (pbit : list (option string * string * kwargs))
  : M world (urls * string * kwargs) :=
  let paths := (λ e, e.1.1) <$> pbit in
  let protocols := (λ e, e.1.2) <$> pbit in
  let kwargss := (λ e, e.2) <$> pbit in
  if decide (1 < length (remove_dups protocols))%nat
  then raise (ValueError "Protocol mismatch in URL chain")
  else
    match paths, protocols, kwargss with
    | p0 :: _, protocol0 :: _, kwargs0 :: _ =>
        let paths :=
          if decide (length (remove_dups paths) = 1%nat) then One p0
          else Many paths in
        ret (paths, protocol0, kwargs0)
    | _, _, _ =>
        raise (ValueError "not enough values to unpack (expected 3, got 0)")
    end.

(** [_un_chain(path, kwargs)] *)
Definition _un_chain (path : pathspec) (kwargs0 : kwargs)
  : M world (list (urls * string * kwargs)) :=
  match path with
  | PList l =>
      let* bits := map_each l (λ p, _un_chain_str p kwargs0) in
      map_each (zip_star bits) _un_chain_column
  | PStr s =>
      let* out := _un_chain_str s kwargs0 in
      ret ((λ e, (One e.1.1, e.1.2, e.2)) <$> out)
  end.
End resolver.

(** ** Path expansion *)

(** The first argument of [_expand_paths], by its dynamic type: a [str], a
    tuple or list, or anything else. *)
Inductive path_arg :=
  | AStr (s : string)
  | ASeq (l : list string)
  | AOther.

Section expansion.
Context `{Registry}.

Definition glob (f : fs) (pattern : string) : M world (list string) :=
  let* _ := emit (EvGlob f pattern) in
  call (fs_glob f pattern).

Definition isdir (f : fs) (path : string) : M world bool :=
  let* _ := emit (EvIsdir f path) in
  call (fs_isdir f path).

(** [if name_function is None:
      name_function = build_name_function(num - 1)] *)
Definition default_name_function (name_function : option (Z → string))
    (num : Z) : exn + (Z → string) :=
  match name_function with
  | None => build_name_function (num - 1)
  | Some g => inr g
  end.

(** [_expand_paths(path, name_function, num)] *)
Definition _expand_paths (path : path_arg) (name_function : option (Z → string))
    (num : Z) : M world (list string) :=
  match path with
  | AStr path =>
      let* path :=
        if decide (1 < Str.count "*" path)%nat then
          raise (ValueError "Output path spec must contain exactly one '*'.")
        else if negb (Str.contains "*" path) then
          ret (os_path_join path "*.part")
        else ret path in
      let* name_function := lift (default_name_function name_function num) in
      let paths := (λ i, Str.replace "*" (name_function i) path) <$> range num in
      let* _ :=
        if decide (paths ≠ Str.sorted paths) then
          emit (EvWarning
            "In order to preserve order between partitions paths created with ``name_function`` should sort to partition order")
        else ret tt in
      ret paths
  | ASeq l =>
      if decide (Z.of_nat (length l) = num) then ret l
      else raise AssertionError
  | AOther =>
      raise (ValueError
        "Path should be either
1. A list of paths: ['foo.json', 'bar.json', ...]
2. A directory: 'foo/
3. A path with a '*' in it: 'foo.*.json'")
  end.

(** The loop of [expand_paths_if_needed]; [expanded_paths] is the list
    built so far. *)
Fixpoint expand_paths_loop (paths : list string) (mode : string) (num : Z)
    (fs0 : fs) (name_function : option (Z → string))
    (expanded_paths : list string) : M world (list string) :=
  match paths with
  | [] => ret expanded_paths
  | curr_path :: paths' =>
      let* expanded_paths :=
        if Str.contains "*" curr_path then
          if Str.contains "w" mode then
            let* l := _expand_paths (AStr curr_path) name_function num in
            ret (expanded_paths ++ l)
          else
            let* l := glob fs0 curr_path in
            ret (expanded_paths ++ l)
        else ret (expanded_paths ++ [curr_path]) in
      expand_paths_loop paths' mode num fs0 name_function expanded_paths
  end.

(** [expand_paths_if_needed(paths, mode, num, fs, name_function)] *)
Definition expand_paths_if_needed (paths : list string) (mode : string)
    (num : Z) (fs0 : fs) (name_function : option (Z → string))
  : M world (list string) :=
  if Str.contains "w" mode
     && bool_decide (1 < length (filter (λ p, Str.contains "*" p = true) paths))%nat
  then raise (ValueError
         "When writing data, only one filename mask can be specified.")
  else
    let num :=
      if Str.contains "w" mode then Z.max num (Z.of_nat (length paths))
      else num in
    let* expanded_paths :=
      expand_paths_loop paths mode num fs0 name_function [] in
    if Str.contains "w" mode
       && bool_decide (num < Z.of_nat (length expanded_paths))
    then ret (take (Z.to_nat num) expanded_paths)
    else ret expanded_paths.
End expansion.

(** ** [get_fs_token_paths] *)

Section get_fs_token_paths.
Context `{Registry}.

(** The loop over the reversed chain that nests the options of each
    layer under the layer outside it; [i] is the index of the round and
    [n] the length of the chain. *)
Fixpoint chain_kwargs (rchain : list (urls * string * kwargs)) (i n : nat)
    (inkwargs : kwargs) : M world kwargs :=
  match rchain with
  | [] => ret inkwargs
  | (urls0, nested_protocol, kw) :: rchain' =>
      let* merged := lift (dict_merge kw inkwargs) in
      if decide (i = n - 1)%nat then
        chain_kwargs rchain' (S i) n merged
      else
        chain_kwargs rchain' (S i) n
          (<["fo" := urls_value urls0]>
             (<["target_protocol" := VStr nested_protocol]>
                (<["target_options" := to_dict merged]> inkwargs)))
  end.

(** [fs._strip_protocol(u)]; a [None] has no string methods. *)
Definition strip_protocol_of (fs0 : fs) (u : option string) : M world string :=
  match u with
  | Some s => ret (_strip_protocol (fs_class fs0) s)
  | None => raise (AttributeError "'NoneType' object has no attribute 'startswith'")
  end.

(** The branch of [get_fs_token_paths] for a URL chain. *)
Definition resolve_chain (chain : list (urls * string * kwargs))
  : M world (fs * pathspec) :=
  let* inkwargs := chain_kwargs (reverse chain) 0 (length chain) ∅ in
  match chain with
  | (paths, protocol, _) :: _ =>
      let* fs0 := filesystem protocol inkwargs in
      let* paths :=
        match paths with
        | Many us =>
            let* l := map_each us (strip_protocol_of fs0) in ret (PList l)
        | One u =>
            let* p := strip_protocol_of fs0 u in ret (PStr p)
        end in
      ret (fs0, paths)
  | [] => raise (IndexError "list index out of range")
  end.

(** The protocol of a list of plain URLs: the override when there is one,
    and otherwise the protocol of the first URL, which all must share. *)
Definition common_protocol (urlpath : list string) (protocol : option string)
  : M world (option string) :=
  let protocols := (λ u, (split_protocol u).1) <$> urlpath in
  match protocol with
  | None =>
      match protocols with
      | protocol :: _ =>
          if forallb (λ p, bool_decide (p = protocol)) protocols
          then ret protocol
          else raise (ValueError
            "When specifying a list of paths, all paths must share the same protocol")
      | [] =>
          raise (ValueError "not enough values to unpack (expected 2, got 0)")
      end
  | Some p => ret (Some p)
  end.

(** The branch of [get_fs_token_paths] for a list of plain URLs. *)
Definition resolve_list (urlpath : list string)
    (storage_options : option kwargs) (protocol : option string)
  : M world (fs * pathspec) :=
  let* protocol := common_protocol urlpath protocol in
  let* c := lift (get_filesystem_class protocol) in
  let optionss := _get_kwargs_from_urls c <$> urlpath in
  let paths := _strip_protocol c <$> urlpath in
  match optionss with
  | options :: _ =>
      if forallb (λ o, bool_decide (o = options)) optionss then
        let* options := lift (update_storage_options options storage_options) in
        let* fs0 := new c options in
        ret (fs0, PList paths)
      else raise (ValueError
        "When specifying a list of paths, all paths must share the same file-system options")
  | [] => raise (IndexError "list index out of range")
  end.

(** The branch of [get_fs_token_paths] for one plain URL. *)
Definition resolve_str (urlpath : string)
    (storage_options : option kwargs) (protocol : option string)
  : M world (fs * pathspec) :=
  let protocols := (split_protocol urlpath).1 in
  let protocol :=
    match protocol with
    | Some p => if decide (p = "") then protocols else Some p
    | None => protocols
    end in
  let* c := lift (get_filesystem_class protocol) in
  let options := _get_kwargs_from_urls c urlpath in
  let path := _strip_protocol c urlpath in
  let* options := lift (update_storage_options options storage_options) in
  let* fs0 := new c options in
  ret (fs0, PStr path).

(** [[f for f in l if not fs.isdir(f)]] *)
Fixpoint drop_dirs (fs0 : fs) (l : list string) : M world (list string) :=
  match l with
  | [] => ret []
  | f :: l' =>
      let* d := isdir fs0 f in
      let* r := drop_dirs fs0 l' in
      ret (if d then r else f :: r)
  end.

(** [get_fs_token_paths(urlpath, mode, num, name_function,
    storage_options, protocol, expand)] *)
Definition get_fs_token_paths (urlpath : pathspec) (mode : string) (num : Z)
    (name_function : option (Z → string)) (storage_options : option kwargs)
    (protocol : option string) (expand : bool)
  : M world (fs * string * list string) :=
  let* _ :=
    match urlpath with
    | PList [] => raise (ValueError "empty urlpath sequence")
    | _ => ret tt
    end in
  let* chain := _un_chain urlpath (default ∅ storage_options) in
  let* r :=
    if decide (1 < length chain)%nat then resolve_chain chain
    else
      match urlpath with
      | PList l => resolve_list l storage_options protocol
      | PStr s => resolve_str s storage_options protocol
      end in
  let fs0 := r.1 in
  let* paths :=
    match r.2 with
    | PList l => expand_paths_if_needed l mode num fs0 name_function
    | PStr p =>
        if Str.contains "w" mode && expand then
          _expand_paths (AStr p) name_function num
        else if Str.contains "*" p then
          let* g := glob fs0 p in
          drop_dirs fs0 (Str.sorted g)
        else ret [p]
    end in
  ret (fs0, fs_token fs0, paths).
End get_fs_token_paths.

(** ** An in-memory backend

    A concrete [Backend] and [Registry] on which the functions above run:
    file objects are numbered in the order they are created and the world
    records which of them are closed; the registry knows the local file
    system, an FTP-like protocol whose URLs carry a host, and the
    [simplecache] layer. *)

Module Mem.

Inductive mem_cls := File | Ftp | SimpleCache.

(** A fresh file object, open. *)
Definition alloc (w : list bool) : (exn + nat) * list bool :=
  (inr (length w), w ++ [false]).

Definition closed (f : nat) (w : list bool) : bool := default true (w !! f).

Definition flush (f : nat) (w : list bool) : (exn + unit) * list bool :=
  (inr tt, w).

Definition close (f : nat) (w : list bool) : (exn + unit) * list bool :=
  (inr tt, <[f := true]> w).

(** The codec of a file name, by its suffix. *)
Definition infer (path : string) : option string :=
  if Str.endswith ".gz" path then Some "gzip"
  else if Str.endswith ".bz2" path then Some "bz2"
  else None.

Definition backend : Backend := {|
  world := list bool;
  fs := mem_cls * kwargs;
  fobj := nat;
  fs_open := λ _ _ _, alloc;
  fs_glob := λ _ _ w, (inr [], w);
  fs_isdir := λ _ _ w, (inr false, w);
  fs_token := λ _, "token";
  compr := {[ "gzip" := λ _ _, alloc; "bz2" := λ _ _, alloc ]};
  infer_compression := infer;
  TextIOWrapper := λ _ _ _ _, alloc;
  fobj_closed := closed;
  fobj_flush := flush;
  fobj_close := close;
|}.

Definition lookup_class (protocol : option string) : exn + mem_cls :=
  match protocol with
  | None => inr File
  | Some p =>
      if decide (p = "" ∨ p = "file") then inr File
      else if decide (p = "ftp") then inr Ftp
      else if decide (p = "simplecache") then inr SimpleCache
      else inl (ValueError ("Protocol not known: " +:+ p))
  end.

(** What follows [://], or the whole URL. *)
Definition after_protocol (url : string) : string :=
  match Str.find "://" url with Some (_, r) => r | None => url end.

Definition host_of (url : string) : string :=
  match Str.find "/" (after_protocol url) with
  | Some (h, _) => h
  | None => after_protocol url
  end.

Definition kwargs_from_url (c : mem_cls) (url : string) : kwargs :=
  match c with
  | Ftp => {[ "host" := VStr (host_of url) ]}
  | _ => ∅
  end.

Definition strip (c : mem_cls) (url : string) : string :=
  match c with
  | Ftp =>
      match Str.find "/" (after_protocol url) with
      | Some (_, p) => "/" +:+ p
      | None => "/"
      end
  | _ => after_protocol url
  end.

(** [fsspec.utils.update_storage_options]: the inherited options are
    added, unless one of them contradicts an option of the URL. *)
Definition update (options : kwargs) (inherited : option kwargs) : exn + kwargs :=
  let inh := default ∅ inherited in
  match filter (λ kv, is_Some (inh !! kv.1) ∧ inh !! kv.1 ≠ Some kv.2)
          (map_to_list options) with
  | [] => inr (inh ∪ options)
  | (k, _) :: _ => inl (KeyError k)
  end.

Definition create (c : mem_cls) (options : kwargs) (w : list bool)
  : (exn + mem_cls * kwargs) * list bool := (inr (c, options), w).

Definition class_of (f : mem_cls * kwargs) : mem_cls := f.1.

Definition registry : @Registry backend :=
  @Build_Registry backend mem_cls lookup_class kwargs_from_url strip
    create class_of update (λ _, inr (λ i : Z, pretty i)).

(** An [OpenFile] of this backend on the local file system. *)
Definition local_fs : @fs backend := (File, ∅).

(** The world before any file object exists. *)
Definition start : @world backend := [].

End Mem.

(** ** Notions used in the statements *)

(** The number of [*] characters in a list of templates. *)
Definition total_stars (paths : list string) : nat :=
  sum_list_with (Str.count "*") paths.

(** What one entry of a write-mode path list expands to, with the name
    function [g] and the count [n]. *)
Definition write_expansion (g : Z → string) (n : Z) (p : string) : list string :=
  if Str.contains "*" p then (λ i, Str.replace "*" (g i) p) <$> range n
  else [p].

(** The condition under which [_close] flushes a layer before closing it:
    the mode is not a read mode and the layer is not closed yet. *)
Definition flushes_first `{Backend} (mode : string) (f : fobj) (w : world) : bool :=
  negb (Str.contains "r" mode) && negb (fobj_closed f w).

(** Computations that neither change the world nor cause an event. *)
Definition quiet `{Registry} {A} (m : M world A) : Prop :=
  ∀ w, ∃ r, m w = (r, w, []).

(** A directory name with its trailing separator. *)
Definition as_directory (d : string) : string :=
  if String.eqb d "" || Str.endswith "/" d then d else d +:+ "/".

(** ** Entry points for a single URL *)

Section single_url.
Context `{Registry}.

(** [strip_protocol(urlpath)] *)
Definition strip_protocol (urlpath : string) : exn + string :=
  match get_filesystem_class (split_protocol urlpath).1 with
  | inl e => inl e
  | inr c => inr (_strip_protocol c urlpath)
  end.

(** [url_to_fs(url, kwargs)] for a [str]: the file system and the path
    within it. *)
Definition url_to_fs (url : string) (kwargs0 : kwargs) : M world (fs * urls) :=
  let* chain := _un_chain (PStr url) kwargs0 in
  if decide (1 < length chain)%nat then
    let* inkwargs := chain_kwargs (reverse chain) 0 (length chain) ∅ in
    match chain with
    | (urlpath, protocol, _) :: _ =>
        let* fs0 := filesystem protocol inkwargs in
        ret (fs0, urlpath)
    | [] => raise (IndexError "list index out of range")
    end
  else
    let protocol := (split_protocol url).1 in
    let* c := lift (get_filesystem_class protocol) in
    let options := _get_kwargs_from_urls c url in
    let* options := lift (update_storage_options options (Some kwargs0)) in
    let* fs0 := new c options in
    ret (fs0, One (Some (_strip_protocol (fs_class fs0) url))).

End single_url.

(** ** [OpenFiles] and the functions that open files *)

(** [glob.has_magic(s)]: one of the characters [*], [?] and the opening
    square bracket occurs in [s]. *)
Definition has_magic (s : string) : bool :=
  existsb (λ c, bool_decide (c ∈ ["*"; "?"; "["]%char))
    (String.list_ascii_of_string s).

(** What [OpenFiles], [open_files] and [open_local] ask of a file system
    and of a file object beyond [Backend].  The methods [open_many] and
    [commit_many] and the attribute [fs] (the file system that a caching
    file system wraps) are there for some file systems only; [fs_depth]
    bounds the nesting of wrapped file systems.  [set_order] is the order
    in which a [set] built from a list is iterated. *)
Class Batch `{Registry} := {
  fs_parent : fs → string → string;
  fs_makedirs : fs → string → world → (exn + unit) * world;
  fs_open_many : fs → option (list OpenFile → world → (exn + list fobj) * world);
  fs_commit_many : fs → option (list fobj → world → (exn + unit) * world);
  fs_inner : fs → option fs;
  fs_depth : fs → nat;
  fs_inner_depth : ∀ f g, fs_inner f = Some g → (fs_depth g < fs_depth f)%nat;
  fs_local_file : fs → bool;
  fobj_name : fobj → world → exn + string;
  set_order : list string → list string;
  set_order_perm : ∀ l, set_order l ≡ₚ remove_dups l;
}.

Record OpenFiles `{Backend} := mkOpenFiles {
  ofs_items : list OpenFile;
  ofs_mode : string;
  ofs_fs : option fs;
  ofs_files : list fobj;
}.

(** [self.files = l] *)
Definition with_files `{Backend} (self : OpenFiles) (l : list fobj) : OpenFiles :=
  {| ofs_items := ofs_items self; ofs_mode := ofs_mode self;
     ofs_fs := ofs_fs self; ofs_files := l |}.

(** The items of the list after a method ran on them. *)
Definition with_items `{Backend} (self : OpenFiles) (l : list OpenFile) : OpenFiles :=
  {| ofs_items := l; ofs_mode := ofs_mode self;
     ofs_fs := ofs_fs self; ofs_files := ofs_files self |}.

(** The result of [open_local]: one path or a list of paths. *)
Inductive local_paths :=
  | LocalPath (p : string)
  | LocalPaths (l : list string).

Section openfiles.
Context `{Batch}.

(** [OpenFiles.__init__(items, mode=mode, fs=fs)] *)
Definition OpenFiles_init (items : list OpenFile) (mode : string)
    (fs0 : option fs) : OpenFiles :=
  {| ofs_items := items; ofs_mode := mode; ofs_fs := fs0; ofs_files := [] |}.

(** The loop [while True] of [OpenFiles.__enter__] and [__exit__]: the
    first file system, from [f] inwards along the attribute [fs], that has
    the method [open_many]. *)
Fixpoint find_open_many (fuel : nat) (f : fs)
  : option (fs * (list OpenFile → world → (exn + list fobj) * world)) :=
  match fs_open_many f with
  | Some open_many => Some (f, open_many)
  | None =>
      match fs_inner f, fuel with
      | Some g, S n => find_open_many n g
      | _, _ => None
      end
  end.

(** [g] is reached from [f] along the attribute [fs] through file systems
    without the method [open_many]. *)
Inductive wraps : fs → fs → Prop :=
  | wraps_refl (f : fs) : wraps f f
  | wraps_step (f g h : fs) :
      fs_open_many f = None → fs_inner f = Some g → wraps g h → wraps f h.

Definition batch_fs (f : fs)
  : option (fs * (list OpenFile → world → (exn + list fobj) * world)) :=
  find_open_many (fs_depth f) f.

(** [[method(s) for s in items]]: the results, and the items as the
    method leaves them; the items after one that raised are not reached. *)
Fixpoint each_item {A} (method : M (OpenFile * world) A) (items : list OpenFile)
    (w : world) : (exn + list A) * (list OpenFile * world) * list event :=
  match items with
  | [] => (inr [], ([], w), [])
  | s :: items' =>
      match method (s, w) with
      | (inr a, (s', w'), ev) =>
          let '(r, (items'', w''), ev') := each_item method items' w' in
          (match r with inr l => inr (a :: l) | inl e => inl e end,
           (s' :: items'', w''), ev ++ ev')
      | (inl e, (s', w'), ev) => (inl e, (s' :: items', w'), ev)
      end
  end.

(** [OpenFiles.__enter__] *)
Definition OpenFiles_enter : M (OpenFiles * world) (list fobj) := λ s,
  let self := s.1 in
  match ofs_fs self with
  | None => (inl (ValueError "Context has already been used"), s, [])
  | Some fs0 =>
      match batch_fs fs0 with
      | Some (_, open_many) =>
          match open_many (ofs_items self) s.2 with
          | (inr files, w') => (inr files, (with_files self files, w'), [])
          | (inl e, w') => (inl e, (self, w'), [])
          end
      | None =>
          let '(r, (items, w'), ev) := each_item __enter__ (ofs_items self) s.2 in
          (r, (with_items self items, w'), ev)
      end
  end.

(** [OpenFiles.__exit__] *)
Definition OpenFiles_exit : M (OpenFiles * world) unit := λ s,
  let self := s.1 in
  let exit_items :=
    let '(r, (items, w'), ev) := each_item __exit__ (ofs_items self) s.2 in
    (match r with inr _ => inr tt | inl e => inl e end,
     (with_items self items, w'), ev) in
  if negb (Str.contains "r" (ofs_mode self)) then
    match ofs_fs self ≫= batch_fs with
    | Some (g, _) =>
        match fs_commit_many g with
        | Some commit_many =>
            match commit_many (ofs_files self) s.2 with
            | (inr _, w') => (inr tt, (with_files self [], w'), [])
            | (inl e, w') => (inl e, (self, w'), [])
            end
        | None =>
            (inl (AttributeError "object has no attribute 'commit_many'"), s, [])
        end
    | None => exit_items
    end
  else exit_items.

(** [open_files(urlpath, mode, compression, encoding, errors, name_function,
    num, protocol, newline, auto_mkdir, expand, kwargs)] *)
Definition open_files (urlpath : pathspec) (mode : string)
    (compression encoding errors : option string)
    (name_function : option (Z → string)) (num : Z) (protocol newline : option string)
    (auto_mkdir expand : bool) (kwargs0 : kwargs) : M world OpenFiles :=
  let* r := get_fs_token_paths urlpath mode num name_function (Some kwargs0)
              protocol expand in
  let fs0 := r.1.1 in
  let paths := r.2 in
  let* _ :=
    if negb (Str.contains "r" mode) && auto_mkdir then
      let parents := set_order (fs_parent fs0 <$> paths) in
      for_each parents (λ parent, call (fs_makedirs fs0 parent))
    else ret tt in
  let* items :=
    map_each paths (λ path,
      lift (__init__ fs0 path mode compression encoding errors newline)) in
  ret (OpenFiles_init items mode (Some fs0)).

(** [open(urlpath, mode, compression, encoding, errors, protocol, newline,
    kwargs)] for a [str] *)
Definition open (urlpath mode : string)
    (compression encoding errors protocol newline : option string)
    (kwargs0 : kwargs) : M world OpenFile :=
  let* ofs := open_files (PList [urlpath]) mode compression encoding errors None 1
                protocol newline true false kwargs0 in
  match ofs_items ofs with
  | s :: _ => ret s
  | [] => raise (IndexError "list index out of range")
  end.

(** [[f.name for f in files]] *)
Definition names (files : list fobj) : M world (list string) :=
  map_each files (λ f, let* n := ask (fobj_name f) in lift n).

(** [open_local(url, mode, storage_options)]; the storage options that
    name a parameter of [open_files] are given as that parameter. *)
Definition open_local (url : pathspec) (mode : string)
    (compression encoding errors : option string)
    (name_function : option (Z → string)) (num : Z) (protocol newline : option string)
    (auto_mkdir expand : bool) (kwargs0 : kwargs) : M world local_paths :=
  if negb (Str.contains "r" mode) then
    raise (ValueError "Can only ensure local files when reading")
  else
    let* ofs := open_files url mode compression encoding errors name_function num
                 protocol newline auto_mkdir expand kwargs0 in
    match ofs_items ofs with
    | [] => raise (IndexError "list index out of range")
    | first :: _ =>
        if negb (fs_local_file (of_fs first)) then
          raise (ValueError
            "open_local can only be used on a filesystem which has attribute local_file=True")
        else λ w,
          match OpenFiles_enter (ofs, w) with
          | (inl e, (_, w1), ev) => (inl e, w1, ev)
          | (inr files, (ofs1, w1), ev) =>
              let '(body, w2, ev2) := names files w1 in
              match OpenFiles_exit (ofs1, w2) with
              | (inl e, (_, w3), ev3) => (inl e, w3, ev ++ ev2 ++ ev3)
              | (inr _, (_, w3), ev3) =>
                  (match body with
                   | inl e => inl e
                   | inr paths =>
                       match url with
                       | PStr s =>
                           if negb (has_magic s) then
                             match paths with
                             | p :: _ => inr (LocalPath p)
                             | [] => inl (IndexError "list index out of range")
                             end
                           else inr (LocalPaths paths)
                       | PList _ => inr (LocalPaths paths)
                       end
                   end, w3, ev ++ ev2 ++ ev3)
              end
          end
    end.
End openfiles.

(** ** A backend with files, failures and nested file systems

    A second concrete backend for the functions above.  File objects and
    the world are those of [Mem].  A file system is a plain one of a class
    of [Mem], a directory view of another file system, or a cache in front
    of another file system; only a cache has [open_many] and
    [commit_many].  The directory [data] holds two files and a
    subdirectory, the file [missing] cannot be opened, the codec [lzma]
    cannot be set up, a text wrapper accepts only the default line
    endings, and file object number 7 cannot be closed. *)

Module Disk.

Inductive disk_fs :=
  | Plain (c : Mem.mem_cls) (options : kwargs)
  | Dir (inner : disk_fs)
  | Cache (inner : disk_fs).

Definition open_path (path : string) (w : list bool) : (exn + nat) * list bool :=
  if decide (path = "missing") then (inl (OSError "No such file or directory"), w)
  else Mem.alloc w.

Definition listing (pattern : string) : list string :=
  if decide (pattern = "data/*") then ["data/b.csv"; "data/a.csv"; "data/old"]
  else [].

Definition text (newline : option string) (w : list bool) : (exn + nat) * list bool :=
  match newline with
  | None | Some "" => Mem.alloc w
  | Some _ => (inl (ValueError "illegal newline value"), w)
  end.

Definition close (f : nat) (w : list bool) : (exn + unit) * list bool :=
  if decide (f = 7%nat) then (inl (OSError "close failed"), w)
  else (inr tt, <[f := true]> w).

Definition backend : Backend := {|
  world := list bool;
  fs := disk_fs;
  fobj := nat;
  fs_open := λ _ path _, open_path path;
  fs_glob := λ _ pattern w, (inr (listing pattern), w);
  fs_isdir := λ _ path w, (inr (bool_decide (path = "data/old")), w);
  fs_token := λ _, "token";
  compr := {[ "gzip" := λ _ _, Mem.alloc;
              "lzma" := λ _ _ w, (inl (OSError "codec not available"), w) ]};
  infer_compression := Mem.infer;
  TextIOWrapper := λ _ _ _ newline, text newline;
  fobj_closed := Mem.closed;
  fobj_flush := Mem.flush;
  fobj_close := close;
|}.

Definition create (c : Mem.mem_cls) (options : kwargs) (w : list bool)
  : (exn + disk_fs) * list bool :=
  match c with
  | Mem.SimpleCache => (inr (Cache (Plain Mem.Ftp ∅)), w)
  | _ => (inr (Plain c options), w)
  end.

Fixpoint class_of (f : disk_fs) : Mem.mem_cls :=
  match f with
  | Plain c _ => c
  | Dir g => class_of g
  | Cache _ => Mem.SimpleCache
  end.

Definition registry : @Registry backend :=
  @Build_Registry backend Mem.mem_cls Mem.lookup_class Mem.kwargs_from_url
    Mem.strip create class_of Mem.update (λ _, inr (λ i : Z, pretty i)).

(** The directory of a path: what precedes its last separator. *)
Fixpoint dirname (path : string) : string :=
  match path with
  | EmptyString => EmptyString
  | String c rest => if Str.contains "/" rest then String c (dirname rest) else ""
  end.

Definition inner (f : disk_fs) : option disk_fs :=
  match f with
  | Plain _ _ => None
  | Dir g | Cache g => Some g
  end.

Fixpoint depth (f : disk_fs) : nat :=
  match f with
  | Plain _ _ => 0
  | Dir g | Cache g => S (depth g)
  end.

Definition inner_depth (f g : disk_fs) :
  inner f = Some g → (depth g < depth f)%nat.
Proof. destruct f; simpl; [done| |]; intros [= ->]; lia. Qed.

(** A cache opens all files at once: one file object for each item. *)
Definition open_many (items : list (@OpenFile backend)) (w : list bool)
  : (exn + list nat) * list bool :=
  (inr (seq (length w) (length items)), w ++ replicate (length items) false).

Definition makedirs (f : disk_fs) (path : string) (w : list bool)
  : (exn + unit) * list bool :=
  if decide (path = "readonly") then (inl (OSError "Permission denied"), w)
  else (inr tt, w).

Definition open_many_of (f : disk_fs)
  : option (list (@OpenFile backend) → list bool → (exn + list nat) * list bool) :=
  match f with Cache _ => Some open_many | _ => None end.

(** A cache commits all files at once, which closes them. *)
Definition commit_many (files : list nat) (w : list bool)
  : (exn + unit) * list bool :=
  (inr tt, foldr (λ f v, <[f := true]> v) w files).

Definition commit_many_of (f : disk_fs)
  : option (list nat → list bool → (exn + unit) * list bool) :=
  match f with Cache _ => Some commit_many | _ => None end.

Definition local_file (f : disk_fs) : bool :=
  match f with Plain Mem.File _ | Cache _ => true | _ => false end.

Definition name (f : nat) (w : list bool) : exn + string :=
  inr ("/tmp/" +:+ pretty f).

Definition batch : @Batch backend registry :=
  @Build_Batch backend registry (λ _, dirname) makedirs open_many_of
    commit_many_of inner depth inner_depth local_file name
    remove_dups (λ l, reflexivity (remove_dups l)).

(** The local file system of this backend. *)
Definition local_fs : @fs backend := Plain Mem.File ∅.

(** The world before any file object exists. *)
Definition start : @world backend := [].

End Disk.

(** ** Notions used in the statements about the further functions *)

(** The number of layers that [__enter__] opens for a wrapper. *)
Definition layer_count `{Backend} (self : OpenFile) : nat :=
  (1 + (match of_compression self with Some _ => 1 | None => 0 end)
     + (if Str.contains "b" (of_mode self) then 0 else 1))%nat.

(** The mode in which [__enter__] opens the file on the file system. *)
Definition binary_mode_of (mode : string) : string :=
  Str.replace "b" "" (Str.replace "t" "" mode) +:+ "b".

(** What one entry of a read-mode path list expands to. *)
Definition read_expansion `{Registry} (fs0 : fs) (p : string) : M world (list string) :=
  if Str.contains "*" p then glob fs0 p else ret [p].

(** The segments of a chained URL, each completed to a URL. *)
Definition chain_bits (path : string) : list string :=
  (λ p, if Str.contains "://" p || non_protocol_like p then p else p +:+ "://")
    <$> Str.split "::" path.

(** The protocol of a segment. *)
Definition bit_protocol (bit : string) : string :=
  match (split_protocol bit).1 with
  | Some p => if decide (p = "") then "file" else p
  | None => "file"
  end.

(** The three options under which a layer finds the layer inside it. *)
Definition target (u : urls) (protocol : string) (options : kwargs) : kwargs :=
  <["fo" := urls_value u]>
    (<["target_protocol" := VStr protocol]>
       (<["target_options" := to_dict options]> ∅)).

(** The options of the outermost layer of a chain, with those of the
    layers inside nested under [target_options]. *)
Fixpoint nested_options (chain : list (urls * string * kwargs)) : exn + kwargs :=
  match chain with
  | [] => inr ∅
  | (_, _, kw) :: rest =>
      match rest with
      | [] => inr kw
      | (u, protocol, _) :: _ =>
          match nested_options rest with
          | inr inner => dict_merge kw (target u protocol inner)
          | inl e => inl e
          end
      end
  end.

(** The order of [sorted] on strings. *)
Definition str_le (a b : string) : Prop := String.leb a b = true.

(** A wrapper whose layers are all open. *)
Definition entered `{Backend} (s : OpenFile) : Prop :=
  length (of_fobjects s) = layer_count s.


(** What [open_files] makes of a path: an unopened wrapper with the
    arguments of the call. *)
Definition fresh_item `{Backend} (fs0 : fs) (mode : string)
    (compression encoding errors newline : option string) (s : OpenFile) : Prop :=
  of_fs s = fs0 ∧ of_mode s = mode
  ∧ get_compression (of_path s) compression = inr (of_compression s)
  ∧ of_encoding s = encoding ∧ of_errors s = errors ∧ of_newline s = newline
  ∧ of_fobjects s = [].

(** * Properties *)

(** ** Strings *)

#[local] Arguments String.append !_ _ / : simpl nomatch.

Lemma prefix_app (sub s : string) :
  String.prefix sub s = true → s = sub +:+ Str.drop (String.length sub) s.
Proof.
  revert s. induction sub as [|a sub IH]; intros s Hp.
  - reflexivity.
  - destruct s as [|b s]; simpl in Hp; [discriminate|].
    destruct (ascii_dec a b) as [->|]; [|discriminate].
    simpl. f_equal. by apply IH.
Qed.

Lemma prefix_of_app (sub r : string) : String.prefix sub (sub +:+ r) = true.
Proof.
  induction sub as [|a sub IH]; simpl; [by destruct r|].
  destruct (ascii_dec a a); [done|congruence].
Qed.

Lemma find_Some (sub s a b : string) :
  Str.find sub s = Some (a, b) → s = a +:+ sub +:+ b.
Proof.
  revert a b. induction s as [|c s IH]; intros a b; cbn [Str.find].
  - destruct (String.prefix sub "") eqn:Hp; [|discriminate].
    intros [= <- <-]. by apply prefix_app in Hp.
  - destruct (String.prefix sub (String c s)) eqn:Hp.
    + intros [= <- <-]. by apply prefix_app in Hp.
    + destruct (Str.find sub s) as [[a' b']|] eqn:Hf; [|discriminate].
      intros [= <- <-]. simpl. f_equal. by apply IH.
Qed.

Lemma find_first (sub s a b : string) :
  Str.find sub s = Some (a, b) →
  ∀ a' b', s = a' +:+ sub +:+ b' → (String.length a ≤ String.length a')%nat.
Proof.
  revert a b. induction s as [|c s IH]; intros a b; cbn [Str.find].
  - destruct (String.prefix sub ""); [|discriminate].
    intros [= <- <-] a' b' _. simpl. lia.
  - destruct (String.prefix sub (String c s)) eqn:Hp.
    + intros [= <- <-] a' b' _. simpl. lia.
    + destruct (Str.find sub s) as [[a0 b0]|] eqn:Hf; [|discriminate].
      intros [= <- <-] a' b' Hs.
      destruct a' as [|c' a'].
      * simpl in Hs. rewrite Hs, prefix_of_app in Hp. discriminate.
      * simpl in Hs. injection Hs as -> Hs. simpl.
        apply le_n_S. by eapply IH.
Qed.

Lemma find_None (sub s : string) :
  Str.find sub s = None → ∀ a b, s ≠ a +:+ sub +:+ b.
Proof.
  induction s as [|c s IH]; cbn [Str.find].
  - destruct (String.prefix sub "") eqn:Hp; [discriminate|].
    intros _ a b Hs.
    destruct a; simpl in Hs; [|discriminate].
    destruct sub; simpl in Hs; [|discriminate].
    discriminate Hp.
  - destruct (String.prefix sub (String c s)) eqn:Hp; [discriminate|].
    destruct (Str.find sub s) as [[a0 b0]|] eqn:Hf; [discriminate|].
    intros _ a b Hs. destruct a as [|c' a]; simpl in Hs.
    + rewrite Hs, prefix_of_app in Hp. discriminate.
    + injection Hs as -> Hs. by eapply IH.
Qed.

(** The string functions on the inputs of the module's doctests. *)
Example split_chain :
  Str.split "::" "simplecache::s3://bucket/key" = ["simplecache"; "s3://bucket/key"].
Proof. reflexivity. Qed.

Example split_overlapping : Str.split "::" "a:::b::::c" = ["a"; ":b"; ""; "c"].
Proof. reflexivity. Qed.

Example replace_placeholder : Str.replace "*" "07" "part*.csv" = "part07.csv".
Proof. reflexivity. Qed.

Example count_placeholders : Str.count "*" "2015-*-*.csv" = 2%nat.
Proof. reflexivity. Qed.

Example binary_mode : Str.replace "b" "" (Str.replace "t" "" "rt") +:+ "b" = "rb".
Proof. reflexivity. Qed.

Example sorted_names : Str.sorted ["part10"; "part2"; "part1"] = ["part1"; "part10"; "part2"].
Proof. reflexivity. Qed.

Example join_directory :
  os_path_join "out" "*.part" = "out/*.part"
  ∧ os_path_join "out/" "*.part" = "out/*.part"
  ∧ os_path_join "" "*.part" = "*.part".
Proof. by split_and!. Qed.

(** ** [split_protocol] *)

(** C3, as the code has it.  A path that contains [://] is cut at the first
    occurrence; the pair (protocol, remainder) is returned when the protocol
    has more than one character, and (none, whole path) otherwise: a
    one-letter prefix such as a Windows drive is not a protocol. *)
Theorem split_protocol_first_occurrence (urlpath : string) :
  Str.contains "://" urlpath = true →
  ∃ protocol rest,
    urlpath = protocol +:+ "://" +:+ rest
    ∧ (∀ p r, urlpath = p +:+ "://" +:+ r →
         (String.length protocol ≤ String.length p)%nat)
    ∧ split_protocol urlpath =
        if decide (1 < String.length protocol)%nat
        then (Some protocol, rest) else (None, urlpath).
Proof.
  unfold split_protocol, Str.contains, Str.split1.
  destruct (Str.find "://" urlpath) as [[protocol rest]|] eqn:Hf; [|discriminate].
  intros _. exists protocol, rest. split_and!.
  - by apply find_Some.
  - by eapply find_first.
  - reflexivity.
Qed.

Lemma split_protocol_first_occurrence_witness :
  ∃ protocol rest,
    "s3://bucket/a" = protocol +:+ "://" +:+ rest
    ∧ (∀ p r, "s3://bucket/a" = p +:+ "://" +:+ r →
         (String.length protocol ≤ String.length p)%nat)
    ∧ split_protocol "s3://bucket/a" =
        if decide (1 < String.length protocol)%nat
        then (Some protocol, rest) else (None, "s3://bucket/a").
Proof. apply (split_protocol_first_occurrence "s3://bucket/a"). reflexivity. Defined.

(** C3 as stated fails: the path [c://x] contains [://], its protocol part
    [c] is not empty, and yet the result is (none, whole path). *)
Lemma split_protocol_one_letter :
  Str.contains "://" "c://x" = true
  ∧ "c://x" = "c" +:+ "://" +:+ "x"
  ∧ "c" ≠ ""
  ∧ split_protocol "c://x" = (None, "c://x").
Proof. split_and!; [reflexivity|reflexivity|discriminate|reflexivity]. Qed.

(** Without [://] there is no protocol. *)
Lemma split_protocol_none (urlpath : string) :
  Str.contains "://" urlpath = false → split_protocol urlpath = (None, urlpath).
Proof. unfold split_protocol. by intros ->. Qed.

(** ** Running computations *)

Ltac run :=
  unfold bind, ret, raise, lift, emit, get, put, call, ask; cbn beta iota.

Section monad_facts.
Context `{Registry}.

Lemma closes_app (ev ev' : list event) :
  closes (ev ++ ev') = closes ev ++ closes ev'.
Proof. apply omap_app. Qed.

Lemma flushes_app (ev ev' : list event) :
  flushes (ev ++ ev') = flushes ev ++ flushes ev'.
Proof. apply omap_app. Qed.
End monad_facts.

(** ** Construction and serialization of an [OpenFile] *)

Section construction.
Context `{Backend}.

(** A resolved compression resolves to itself. *)
Lemma get_compression_resolved (urlpath : string) (compression c : option string) :
  get_compression urlpath compression = inr c →
  get_compression urlpath c = inr c.
Proof.
  unfold get_compression.
  destruct (decide (compression = Some "infer")) as [->|Hne].
  - destruct (infer_compression urlpath) as [x|] eqn:Hi.
    + destruct (decide (x ∈ dom compr)) as [Hx|]; [|discriminate].
      intros [= <-].
      destruct (decide (Some x = Some "infer")) as [[= ->]|_].
      * by rewrite decide_True.
      * by rewrite decide_True.
    + intros [= <-]. by rewrite decide_False.
  - destruct compression as [x|].
    + destruct (decide (x ∈ dom compr)); [|discriminate].
      intros [= <-]. rewrite decide_False by done. by rewrite decide_True.
    + intros [= <-]. by rewrite decide_False.
Qed.

(** C6.  The constructor replaces the compression ["infer"] by the codec
    that [infer_compression] finds for the path.  When the value, given or
    inferred, is neither none nor a key of the codec table, the
    constructor raises a [ValueError]; otherwise it returns the wrapper
    with that compression and no open layer.  Either way it is a function
    of its arguments alone: it neither reads nor changes the world. *)
Theorem init_resolves_compression (fs0 : fs) (path mode : string)
    (compression encoding errors newline : option string) :
  let resolved :=
    if decide (compression = Some "infer") then infer_compression path
    else compression in
  match resolved with
  | Some c =>
      if decide (c ∈ dom compr) then
        __init__ fs0 path mode compression encoding errors newline
        = inr (mkOpenFile _ fs0 path mode (Some c) encoding errors newline [])
      else
        ∃ msg, __init__ fs0 path mode compression encoding errors newline
               = inl (ValueError msg)
  | None =>
      __init__ fs0 path mode compression encoding errors newline
      = inr (mkOpenFile _ fs0 path mode None encoding errors newline [])
  end.
Proof.
  intros resolved. unfold __init__, get_compression. fold resolved.
  destruct resolved as [c|]; [|done].
  destruct (decide (c ∈ dom compr)); [done|eauto].
Qed.

(** C4.  Take a constructed wrapper, with whatever layers it has open
    meanwhile.  The constructor called on what [__reduce__] returns for it
    gives a wrapper with the same file system, path, mode, compression,
    encoding, errors and newline, and with no open layer. *)
Theorem reduce_reconstruct (fs0 : fs) (path mode : string)
    (compression encoding errors newline : option string)
    (self : OpenFile) (layers : list fobj) :
  __init__ fs0 path mode compression encoding errors newline = inr self →
  let original := with_fobjects self layers in
  ∃ rebuilt,
    reconstruct (__reduce__ original) = inr rebuilt
    ∧ of_fs rebuilt = of_fs original
    ∧ of_path rebuilt = of_path original
    ∧ of_mode rebuilt = of_mode original
    ∧ of_compression rebuilt = of_compression original
    ∧ of_encoding rebuilt = of_encoding original
    ∧ of_errors rebuilt = of_errors original
    ∧ of_newline rebuilt = of_newline original
    ∧ of_fobjects rebuilt = [].
Proof.
  unfold __init__, reconstruct, __reduce__.
  destruct (get_compression path compression) as [e|c] eqn:Hc; [discriminate|].
  intros [= <-]. simpl. unfold __init__.
  rewrite (get_compression_resolved _ _ _ Hc). eexists. by split_and!.
Qed.
End construction.

Lemma reduce_reconstruct_witness :
  let original := mkOpenFile Mem.backend Mem.local_fs "a/b.txt.gz" "rb"
                    (Some "gzip") None None None [0%nat; 1%nat] in
  ∃ rebuilt,
    @reconstruct Mem.backend (@__reduce__ Mem.backend original) = inr rebuilt
    ∧ of_fs rebuilt = Mem.local_fs
    ∧ of_path rebuilt = "a/b.txt.gz"
    ∧ of_mode rebuilt = "rb"
    ∧ of_compression rebuilt = Some "gzip"
    ∧ of_encoding rebuilt = None
    ∧ of_errors rebuilt = None
    ∧ of_newline rebuilt = None
    ∧ of_fobjects rebuilt = [].
Proof.
  apply (@reduce_reconstruct Mem.backend Mem.local_fs "a/b.txt.gz" "rb"
           (Some "infer") None None None
           (mkOpenFile Mem.backend Mem.local_fs "a/b.txt.gz" "rb" (Some "gzip")
              None None None [])
           [0%nat; 1%nat]).
  reflexivity.
Defined.

(** The examples of C6 on the in-memory backend: a [.bz2] suffix resolves
    to the codec [bz2], a path without a known suffix to none, and an
    unknown codec is refused. *)
Lemma init_resolves_compression_witness :
  @__init__ Mem.backend Mem.local_fs "log.txt.bz2" "rb" (Some "infer") None None None
  = inr (mkOpenFile Mem.backend Mem.local_fs "log.txt.bz2" "rb" (Some "bz2")
           None None None [])
  ∧ @__init__ Mem.backend Mem.local_fs "log.txt" "rb" (Some "infer") None None None
    = inr (mkOpenFile Mem.backend Mem.local_fs "log.txt" "rb" None None None None [])
  ∧ ∃ msg,
      @__init__ Mem.backend Mem.local_fs "log.txt" "rb" (Some "zstd") None None None
      = inl (ValueError msg).
Proof.
  split_and!.
  - exact (@init_resolves_compression Mem.backend Mem.local_fs "log.txt.bz2" "rb"
             (Some "infer") None None None).
  - exact (@init_resolves_compression Mem.backend Mem.local_fs "log.txt" "rb"
             (Some "infer") None None None).
  - exact (@init_resolves_compression Mem.backend Mem.local_fs "log.txt" "rb"
             (Some "zstd") None None None).
Defined.

(** ** Opening and closing an [OpenFile] *)

Section lifecycle.
Context `{Registry}.

Lemma close_step_events (mode : string) (f : fobj) (w : world) :
  ∃ r w' ev,
    _close_step mode f w = (r, w', ev)
    ∧ flushes ev = (if flushes_first mode f w then [f] else [])
    ∧ (r = inr tt →
       ev = (if flushes_first mode f w then [EvFlush f] else []) ++ [EvClose f]).
Proof.
  unfold _close_step, flushes_first. run.
  destruct (negb (Str.contains "r" mode) && negb (fobj_closed f w)); run.
  - destruct (fobj_flush f w) as [[e|[]] w1]; simpl.
    + eexists _, _, _. split_and!; [done|done|discriminate].
    + destruct (fobj_close f w1) as [[e|[]] w2]; simpl;
        eexists _, _, _; (split_and!; [done|done|]); [discriminate|done].
  - destruct (fobj_close f w) as [[e|[]] w2]; simpl;
      eexists _, _, _; (split_and!; [done|done|]); [discriminate|done].
Qed.

Lemma close_step_closes (mode : string) (f : fobj) (w w' : world) ev :
  _close_step mode f w = (inr tt, w', ev) → closes ev = [f].
Proof.
  intros Hs. destruct (close_step_events mode f w) as (r & w1 & ev1 & Hr & _ & Hev).
  rewrite Hs in Hr. injection Hr as <- <- <-.
  rewrite Hev by done. by destruct (flushes_first mode f w).
Qed.





(** What [close] does to a wrapper. *)
Lemma close_run (self : OpenFile) (w : world) :
  close (self, w) =
  match for_each (reverse (of_fobjects self)) (_close_step (of_mode self)) w with
  | (inr _, w', ev) => (inr tt, (with_fobjects self [], w'), ev)
  | (inl e, w', ev) => (inl e, (self, w'), ev)
  end.
Proof.
  unfold close, _close, set_fobjects, in_world. run. simpl.
  destruct (for_each _ _ w) as [[[e|[]] w'] ev]; simpl; [done|].
  by rewrite !app_nil_r.
Qed.
End lifecycle.

Section lifecycle_claims.
Context `{Registry}.



(** C5.  [close] on a wrapper without open layers returns without touching
    the world and leaves the wrapper as it is; so closing a constructed,
    never opened wrapper twice raises nothing.  After a [close] that
    returned, the layer list is empty, and two further calls of [close]
    return, cause nothing and leave the list empty. *)
Theorem close_idempotent :
  (∀ self w, of_fobjects self = [] →
     close (self, w) = (inr tt, (self, w), [])
     ∧ (let* _ := close in close) (self, w) = (inr tt, (self, w), []))
  ∧ (∀ self w self' w' ev,
       close (self, w) = (inr tt, (self', w'), ev) →
       of_fobjects self' = []
       ∧ close (self', w') = (inr tt, (self', w'), [])
       ∧ (let* _ := close in close) (self', w') = (inr tt, (self', w'), [])).
Proof.
  assert (Hnil : ∀ self w, of_fobjects self = [] →
    close (self, w) = (inr tt, (self, w), [])).
  { intros [] w; simpl; intros ->. by rewrite close_run. }
  assert (Htwice : ∀ self w, of_fobjects self = [] →
    (let* _ := close in close) (self, w) = (inr tt, (self, w), [])).
  { intros self w Hl. unfold bind. by rewrite !Hnil. }
  split.
  - intros self w Hl. split; [by apply Hnil|by apply Htwice].
  - intros self w self' w' ev. rewrite close_run.
    destruct (for_each _ _ w) as [[[e|[]] w1] ev1]; [discriminate|].
    intros [= <- <- <-]. split_and!; [done|by apply Hnil|by apply Htwice].
Qed.
End lifecycle_claims.



Section close_examples.
#[local] Existing Instance Mem.backend.
#[local] Existing Instance Mem.registry.

End close_examples.

Lemma close_idempotent_witness :
  let self := mkOpenFile Mem.backend Mem.local_fs "x" "rb" None None None None [] in
  @close Mem.backend Mem.registry (self, []) = (inr tt, (self, []), [])
  ∧ (let* _ := @close Mem.backend Mem.registry in @close Mem.backend Mem.registry)
      (self, []) = (inr tt, (self, []), []).
Proof.
  intros self.
  apply (proj1 (@close_idempotent Mem.backend Mem.registry) self []).
  reflexivity.
Defined.

(** ** The placeholder [*] in templates *)

Lemma star_prefix (c : ascii) (s : string) :
  String.prefix "*" (String c s) = bool_decide (c = "*"%char).
Proof.
  cbn [String.prefix]. destruct (ascii_dec "*" c) as [<-|Hne].
  - by destruct s.
  - by rewrite bool_decide_eq_false_2.
Qed.

Lemma split_go_star_cons (c : ascii) (s : string) :
  Str.split_go "*" 0 (String c s) =
  if bool_decide (c = "*"%char)
  then (EmptyString, (Str.split_go "*" 0 s).1 :: (Str.split_go "*" 0 s).2)
  else (String c (Str.split_go "*" 0 s).1, (Str.split_go "*" 0 s).2).
Proof.
  cbn [Str.split_go]. rewrite star_prefix. simpl.
  by destruct (bool_decide _), (Str.split_go "*" 0 s).
Qed.

Lemma contains_star_cons (c : ascii) (s : string) :
  Str.contains "*" (String c s) = bool_decide (c = "*"%char) || Str.contains "*" s.
Proof.
  unfold Str.contains. cbn [Str.find]. rewrite star_prefix.
  destruct (bool_decide _); [done|]. simpl.
  by destruct (Str.find "*" s) as [[]|].
Qed.

Lemma count_star_cons (c : ascii) (s : string) :
  Str.count "*" (String c s) =
  if bool_decide (c = "*"%char) then S (Str.count "*" s) else Str.count "*" s.
Proof. unfold Str.count. rewrite split_go_star_cons. by destruct (bool_decide _). Qed.

(** [*] occurs in a string exactly when its count is not zero. *)
Lemma contains_star_count (s : string) :
  Str.contains "*" s = bool_decide (0 < Str.count "*" s)%nat.
Proof.
  induction s as [|c s IH]; [done|].
  rewrite contains_star_cons, count_star_cons, IH.
  destruct (bool_decide (c = "*"%char)); [|done].
  cbn [orb]. symmetry. apply bool_decide_eq_true_2. lia.
Qed.

Lemma no_star_count (s : string) :
  Str.contains "*" s = false → Str.count "*" s = 0%nat.
Proof.
  rewrite contains_star_count. intros Hc%bool_decide_eq_false. lia.
Qed.

(** Splitting at [*] passes over a prefix without [*]. *)
Lemma split_go_star_app (a tail : string) :
  Str.contains "*" a = false →
  Str.split_go "*" 0 (a +:+ tail) =
  (a +:+ (Str.split_go "*" 0 tail).1, (Str.split_go "*" 0 tail).2).
Proof.
  induction a as [|c a IH]; intros Ha.
  - simpl. by destruct (Str.split_go "*" 0 tail).
  - rewrite contains_star_cons in Ha. apply orb_false_iff in Ha as [Hc Ha].
    change (String c a +:+ tail) with (String c (a +:+ tail)).
    rewrite split_go_star_cons, Hc, IH by done. done.
Qed.

Lemma append_assoc (a b c : string) : (a +:+ b) +:+ c = a +:+ b +:+ c.
Proof. induction a as [|x a IH]; simpl; [done|by rewrite IH]. Qed.

Lemma append_nil_r (a : string) : a +:+ "" = a.
Proof. induction a as [|x a IH]; simpl; [done|by rewrite IH]. Qed.

(** Replacing the [*] of a directory's [*.part] pattern. *)
Lemma replace_star_part (d r : string) :
  Str.contains "*" d = false →
  Str.replace "*" r (d +:+ "*.part") = d +:+ r +:+ ".part".
Proof.
  intros Hd. unfold Str.replace, Str.split.
  rewrite split_go_star_app by done.
  change (Str.split_go "*" 0 "*.part") with (EmptyString, [".part"]).
  cbn [fst snd String.concat]. by rewrite append_nil_r.
Qed.

Lemma no_star_as_directory (d : string) :
  Str.contains "*" d = false → Str.contains "*" (as_directory d) = false.
Proof.
  intros Hd. unfold as_directory.
  destruct (String.eqb d "" || Str.endswith "/" d); [done|].
  induction d as [|c d IH]; [done|].
  rewrite contains_star_cons in Hd. apply orb_false_iff in Hd as [Hc Hd].
  change (String c d +:+ "/") with (String c (d +:+ "/")).
  rewrite contains_star_cons, Hc. by apply IH.
Qed.

Lemma join_part_as_directory (d : string) :
  os_path_join d "*.part" = as_directory d +:+ "*.part".
Proof.
  unfold os_path_join, as_directory. simpl.
  destruct (String.eqb d "" || Str.endswith "/" d); [done|].
  by rewrite append_assoc.
Qed.

Lemma join_relative (d name : string) :
  String.prefix "/" name = false →
  os_path_join d (name +:+ ".part") = as_directory d +:+ name +:+ ".part".
Proof.
  intros Hn. unfold os_path_join, as_directory.
  assert (String.prefix "/" (name +:+ ".part") = false) as ->.
  { destruct name as [|c name]; [done|].
    change (String c name +:+ ".part") with (String c (name +:+ ".part")).
    cbn [String.prefix] in *. destruct (ascii_dec "/" c); [|done].
    by destruct name. }
  destruct (String.eqb d "" || Str.endswith "/" d); [done|].
  by rewrite append_assoc.
Qed.

(** ** Write-mode expansion *)

Section expansion_facts.
Context `{Registry}.

Lemma expand_paths_repeated (p : string) (nf : option (Z → string)) (num : Z)
    (w : world) :
  (2 ≤ Str.count "*" p)%nat →
  _expand_paths (AStr p) nf num w
  = (inl (ValueError "Output path spec must contain exactly one '*'."), w, []).
Proof.
  intros Hc. unfold _expand_paths. run.
  by rewrite decide_True by lia.
Qed.

Lemma expand_paths_str (p : string) (nf : option (Z → string)) (num : Z)
    (g : Z → string) (w : world) :
  (Str.count "*" p ≤ 1)%nat →
  default_name_function nf num = inr g →
  ∃ ev,
    _expand_paths (AStr p) nf num w
    = (inr ((λ i, Str.replace "*" (g i)
                    (if Str.contains "*" p then p else os_path_join p "*.part"))
            <$> range num), w, ev)
    ∧ Forall is_warning ev.
Proof.
  intros Hc Hg. unfold _expand_paths. run.
  rewrite decide_False by lia.
  destruct (Str.contains "*" p); cbn [negb]; run; rewrite Hg; cbn beta iota;
    match goal with
    | |- context [decide (?l ≠ Str.sorted ?l)] =>
        destruct (decide (l ≠ Str.sorted l))
    end; cbn; eexists; (split; [reflexivity|]);
    repeat constructor.
Qed.

Lemma total_stars_cons (p : string) (paths : list string) :
  total_stars (p :: paths) = (Str.count "*" p + total_stars paths)%nat.
Proof. reflexivity. Qed.

Lemma star_paths_le_total (paths : list string) :
  (length (filter (λ p, Str.contains "*" p = true) paths) ≤ total_stars paths)%nat.
Proof.
  induction paths as [|p paths IH]; [done|].
  rewrite total_stars_cons, filter_cons.
  destruct (decide (Str.contains "*" p = true)) as [Hp|Hp]; simpl; [|lia].
  rewrite contains_star_count in Hp. apply bool_decide_eq_true in Hp. lia.
Qed.

Lemma no_star_paths_total (paths : list string) :
  filter (λ p, Str.contains "*" p = true) paths = [] → total_stars paths = 0%nat.
Proof.
  induction paths as [|p paths IH]; [done|].
  rewrite total_stars_cons, filter_cons.
  destruct (decide (Str.contains "*" p = true)) as [Hp|Hp]; [done|].
  intros Hf. apply not_true_is_false in Hp.
  rewrite (no_star_count _ Hp), IH; done.
Qed.

(** The loop in write mode, for templates with at most one [*] in all. *)
Lemma expand_loop_write (paths : list string) (mode : string) (n : Z) (fs0 : fs)
    (nf : option (Z → string)) (g : Z → string) (acc : list string) (w : world) :
  Str.contains "w" mode = true →
  (total_stars paths ≤ 1)%nat →
  default_name_function nf n = inr g →
  ∃ ev,
    expand_paths_loop paths mode n fs0 nf acc w
    = (inr (acc ++ concat (write_expansion g n <$> paths)), w, ev)
    ∧ Forall is_warning ev.
Proof.
  intros Hw Ht Hg. revert acc Ht.
  induction paths as [|p paths IH]; intros acc Ht.
  - simpl. run. rewrite app_nil_r. eauto.
  - rewrite total_stars_cons in Ht. cbn [expand_paths_loop].
    rewrite fmap_cons. cbn [concat]. unfold write_expansion at 1.
    destruct (Str.contains "*" p) eqn:Hp.
    + rewrite Hw.
      destruct (expand_paths_str p nf n g w) as (ev1 & Hrun & Hev1); [lia|done|].
      rewrite Hp in Hrun.
      destruct (IH (acc ++ ((λ i, Str.replace "*" (g i) p) <$> range n)))
        as (ev2 & Hloop & Hev2); [lia|].
      unfold bind at 1. unfold bind at 1. rewrite Hrun. run.
      rewrite Hloop. eexists. split.
      * by rewrite <-(assoc_L (++)).
      * rewrite app_nil_r. by apply Forall_app.
    + destruct (IH (acc ++ [p])) as (ev2 & Hloop & Hev2); [lia|].
      unfold bind at 1. run. rewrite Hloop. eexists. split.
      * by rewrite <-(assoc_L (++)).
      * done.
Qed.

(** The loop in write mode, for templates of which exactly one has a [*],
    and that one several. *)
Lemma expand_loop_repeated (paths : list string) (mode : string) (n : Z) (fs0 : fs)
    (nf : option (Z → string)) (acc : list string) (w : world) :
  Str.contains "w" mode = true →
  (length (filter (λ p, Str.contains "*" p = true) paths) ≤ 1)%nat →
  (2 ≤ total_stars paths)%nat →
  expand_paths_loop paths mode n fs0 nf acc w
  = (inl (ValueError "Output path spec must contain exactly one '*'."), w, []).
Proof.
  intros Hw. revert acc.
  induction paths as [|p paths IH]; intros acc Hf Ht.
  - simpl in Ht. lia.
  - rewrite total_stars_cons in Ht. rewrite filter_cons in Hf.
    cbn [expand_paths_loop].
    destruct (Str.contains "*" p) eqn:Hp.
    + rewrite decide_True in Hf by done. simpl in Hf.
      assert (total_stars paths = 0%nat) as Hz.
      { apply no_star_paths_total.
        destruct (filter _ paths); [done|simpl in Hf; lia]. }
      rewrite Hw. unfold bind at 1. unfold bind at 1.
      rewrite expand_paths_repeated by lia. done.
    + rewrite decide_False in Hf by done.
      pose proof (no_star_count _ Hp) as Hz.
      unfold bind at 1. run. rewrite IH by (done || lia). done.
Qed.
End expansion_facts.

Section expansion_claims.
Context `{Registry}.

(** C8.  In write mode a list of templates with two or more [*] characters
    in all is refused with a [ValueError] before anything else happens:
    by [expand_paths_if_needed] itself when several templates have a [*],
    and by [_expand_paths], called for the one template that has them, when
    they are all in one template.  The same holds for a single string
    template. *)
Theorem write_rejects_repeated_placeholder :
  (∀ (paths : list string) (mode : string) (num : Z) (fs0 : fs)
     (nf : option (Z → string)) (w : world),
     Str.contains "w" mode = true →
     (2 ≤ total_stars paths)%nat →
     expand_paths_if_needed paths mode num fs0 nf w
     = (inl (ValueError
          (if decide (1 < length (filter (λ p, Str.contains "*" p = true) paths))%nat
           then "When writing data, only one filename mask can be specified."
           else "Output path spec must contain exactly one '*'.")),
        w, []))
  ∧ (∀ (p : string) (nf : option (Z → string)) (num : Z) (w : world),
       (2 ≤ Str.count "*" p)%nat →
       _expand_paths (AStr p) nf num w
       = (inl (ValueError "Output path spec must contain exactly one '*'."),
          w, [])).
Proof.
  split; [|apply expand_paths_repeated].
  intros paths mode num fs0 nf w Hw Ht. unfold expand_paths_if_needed.
  rewrite Hw. cbn [andb].
  destruct (decide (1 < length (filter _ paths))%nat) as [Hf|Hf].
  - by rewrite bool_decide_eq_true_2.
  - rewrite bool_decide_eq_false_2 by done. unfold bind.
    rewrite expand_loop_repeated by (done || lia). done.
Qed.

(** C9, as the code has it.  In write mode the count that governs the
    expansion is the larger of the requested count and the number of input
    paths.  For templates with at most one [*] in all, the result is the
    list of all substituted paths cut to that count: it is never padded,
    it is the whole list when that is not longer than the count, and
    otherwise exactly the first entries up to the count, the later ones
    being dropped. *)
Theorem write_expansion_truncation (paths : list string) (mode : string)
    (num : Z) (fs0 : fs) (nf : option (Z → string)) (g : Z → string) (w : world) :
  let n := Z.max num (Z.of_nat (length paths)) in
  let expanded := concat (write_expansion g n <$> paths) in
  Str.contains "w" mode = true →
  (total_stars paths ≤ 1)%nat →
  default_name_function nf n = inr g →
  ∃ result ev,
    expand_paths_if_needed paths mode num fs0 nf w = (inr result, w, ev)
    ∧ Forall is_warning ev
    ∧ result = take (Z.to_nat n) expanded
    ∧ (Z.of_nat (length expanded) ≤ n → result = expanded)
    ∧ (n < Z.of_nat (length expanded) → Z.of_nat (length result) = n)
    ∧ (Z.of_nat (length paths) ≤ num → n = num).
Proof.
  intros n expanded Hw Ht Hg. unfold expand_paths_if_needed.
  rewrite Hw. cbn [andb].
  pose proof (star_paths_le_total paths) as Hf.
  rewrite bool_decide_eq_false_2 by lia. fold n.
  destruct (expand_loop_write paths mode n fs0 nf g [] w Hw Ht Hg)
    as (ev & Hloop & Hev).
  unfold bind. rewrite Hloop. cbn [app]. fold expanded.
  destruct (bool_decide (n < Z.of_nat (length expanded))) eqn:Hlen.
  - apply bool_decide_eq_true in Hlen. run.
    eexists _, _. split; [reflexivity|]. rewrite app_nil_r.
    split_and!; [done|done|lia| |lia].
    intros _. rewrite length_take. lia.
  - apply bool_decide_eq_false in Hlen. run.
    eexists _, _. split; [reflexivity|]. rewrite app_nil_r.
    split_and!; [done| |done|lia|lia].
    symmetry. apply take_ge. lia.
Qed.

(** C10, as the code has it.  A string template without [*] is taken as a
    directory: with a name function [g] and a count [n] the expansion
    returns, in index order, the paths made of the directory with its
    separator, [g i] and [.part], for [i] from [0] below [n].  That is
    [join(template, g(i) + ".part")] for every [g i] that does not begin
    with the separator. *)
Theorem expand_directory_template (template : string) (g : Z → string)
    (n : Z) (w : world) :
  Str.contains "*" template = false →
  ∃ ev,
    _expand_paths (AStr template) (Some g) n w
    = (inr ((λ i, as_directory template +:+ g i +:+ ".part") <$> range n), w, ev)
    ∧ Forall is_warning ev
    ∧ (∀ i, String.prefix "/" (g i) = false →
         as_directory template +:+ g i +:+ ".part"
         = os_path_join template (g i +:+ ".part")).
Proof.
  intros Ht.
  destruct (expand_paths_str template (Some g) n g w) as (ev & Hrun & Hev);
    [rewrite no_star_count by done; lia|done|].
  rewrite Ht, join_part_as_directory in Hrun.
  exists ev. split_and!; [|done|].
  - rewrite Hrun. do 3 f_equal. apply list_fmap_ext. intros _ i _.
    apply replace_star_part. by apply no_star_as_directory.
  - intros i Hi. symmetry. by apply join_relative.
Qed.
End expansion_claims.

Section expansion_examples.
#[local] Existing Instance Mem.backend.
#[local] Existing Instance Mem.registry.

Lemma write_rejects_repeated_placeholder_witness :
  expand_paths_if_needed ["a*.csv"; "b*.csv"] "wb" 2 Mem.local_fs None []
  = (inl (ValueError "When writing data, only one filename mask can be specified."),
     [], [])
  ∧ expand_paths_if_needed ["a**.csv"] "wb" 2 Mem.local_fs None []
    = (inl (ValueError "Output path spec must contain exactly one '*'."), [], []).
Proof.
  split.
  - apply (proj1 write_rejects_repeated_placeholder
             ["a*.csv"; "b*.csv"] "wb" 2 Mem.local_fs None Mem.start);
      [reflexivity|vm_compute; lia].
  - apply (proj1 write_rejects_repeated_placeholder
             ["a**.csv"] "wb" 2 Mem.local_fs None Mem.start);
      [reflexivity|vm_compute; lia].
Defined.

Lemma write_expansion_truncation_witness :
  ∃ result ev,
    expand_paths_if_needed ["a*"; "b"; "c"] "wb" 5 Mem.local_fs None []
    = (inr result, [], ev)
    ∧ result = ["a0"; "a1"; "a2"; "a3"; "a4"].
Proof.
  destruct (write_expansion_truncation ["a*"; "b"; "c"] "wb" 5 Mem.local_fs None
              (λ i, pretty i) Mem.start)
    as (result & ev & Hrun & _ & Hres & _); [reflexivity|vm_compute; lia|reflexivity|].
  exists result, ev. split; [exact Hrun|]. rewrite Hres. reflexivity.
Defined.

(** C9 as stated fails: one path is requested, the three input paths expand
    to five, and the result is cut to three paths, not to one. *)
Lemma write_expansion_not_cut_to_request :
  expand_paths_if_needed ["a*"; "b"; "c"] "wb" 1 Mem.local_fs None []
  = (inr ["a0"; "a1"; "a2"], [], [])
  ∧ concat (write_expansion (λ i, pretty i) 3 <$> ["a*"; "b"; "c"])
    = ["a0"; "a1"; "a2"; "b"; "c"]
  ∧ length ["a0"; "a1"; "a2"] ≠ 1%nat.
Proof. split_and!; [reflexivity|reflexivity|discriminate]. Qed.

Lemma expand_directory_template_witness :
  ∃ ev,
    _expand_paths (AStr "out") (Some (λ i, pretty i)) 2 []
    = (inr ["out/0.part"; "out/1.part"], [], ev).
Proof.
  destruct (expand_directory_template "out" (λ i, pretty i) 2 Mem.start)
    as (ev & Hrun & _); [reflexivity|].
  exists ev. exact Hrun.
Defined.

(** C10 as stated fails for a name function that returns an absolute name:
    the code substitutes it after the directory and its separator, whereas
    joining the directory with it would drop the directory. *)
Lemma expand_directory_absolute_name :
  _expand_paths (AStr "out") (Some (λ _, "/x")) 1 []
  = (inr ["out//x.part"], [], [])
  ∧ os_path_join "out" ("/x" +:+ ".part") = "/x.part"
  ∧ "out//x.part" ≠ "/x.part".
Proof. split_and!; [reflexivity|reflexivity|discriminate]. Qed.
End expansion_examples.

(** ** Resolution of a list of paths *)

Section resolution_facts.
Context `{Registry}.

Lemma quiet_ret {A} (x : A) : quiet (ret x).
Proof. intros w. by eexists. Qed.

Lemma quiet_raise {A} (e : exn) : quiet (raise (A := A) e).
Proof. intros w. by eexists. Qed.

Lemma quiet_lift {A} (r : exn + A) : quiet (lift r).
Proof. intros w. by eexists. Qed.

Lemma quiet_bind {A B} (m : M world A) (k : A → M world B) :
  quiet m → (∀ a, quiet (k a)) → quiet (bind m k).
Proof.
  intros Hm Hk w. unfold bind. destruct (Hm w) as [[e|a] ->]; [by eexists|].
  destruct (Hk a w) as [r ->]. by eexists.
Qed.

Lemma quiet_map_each {A B} (l : list A) (body : A → M world B) :
  (∀ a, quiet (body a)) → quiet (map_each l body).
Proof.
  intros Hb. induction l as [|a l IH]; simpl; [apply quiet_ret|].
  apply quiet_bind; [done|]. intros b.
  apply quiet_bind; [done|]. intros bs. apply quiet_ret.
Qed.

Lemma quiet_un_chain_bit (kwargs0 : kwargs) (previous : option string) (bit : string) :
  quiet (_un_chain_bit kwargs0 previous bit).
Proof.
  unfold _un_chain_bit.
  apply quiet_bind; [apply quiet_lift|]. intros c.
  apply quiet_bind.
  { destruct (kwargs0 !! _) as [[]|]; (apply quiet_ret || apply quiet_raise). }
  intros kws. apply quiet_bind; [apply quiet_lift|]. intros kw. apply quiet_ret.
Qed.

Lemma quiet_un_chain_loop (kwargs0 : kwargs) (bits : list string)
    (previous : option string) (out : list (option string * string * kwargs)) :
  quiet (_un_chain_loop kwargs0 bits previous out).
Proof.
  revert previous out. induction bits as [|bit bits IH]; intros previous out; simpl.
  - apply quiet_ret.
  - apply quiet_bind; [apply quiet_un_chain_bit|]. intros e. apply IH.
Qed.

Lemma quiet_un_chain_str (path : string) (kwargs0 : kwargs) :
  quiet (_un_chain_str path kwargs0).
Proof.
  unfold _un_chain_str. destruct (decide _); [apply quiet_ret|].
  apply quiet_bind; [apply quiet_un_chain_loop|]. intros out. apply quiet_ret.
Qed.

Lemma quiet_un_chain_column (pbit : list (option string * string * kwargs)) :
  quiet (_un_chain_column pbit).
Proof.
  unfold _un_chain_column. destruct (decide _); [apply quiet_raise|].
  destruct pbit; simpl; [apply quiet_raise|apply quiet_ret].
Qed.

(** [_un_chain] only consults the registry. *)
Lemma quiet_un_chain (path : pathspec) (kwargs0 : kwargs) :
  quiet (_un_chain path kwargs0).
Proof.
  destruct path as [s|l]; simpl.
  - apply quiet_bind; [apply quiet_un_chain_str|]. intros out. apply quiet_ret.
  - apply quiet_bind.
    + apply quiet_map_each. intros p. apply quiet_un_chain_str.
    + intros bits. apply quiet_map_each. apply quiet_un_chain_column.
Qed.

(** A path without [::] gives no chain. *)
Lemma un_chain_str_plain (path : string) (kwargs0 : kwargs) (w : world) :
  Str.contains "::" path = false →
  _un_chain_str path kwargs0 w = (inr [], w, []).
Proof. intros Hp. unfold _un_chain_str. by rewrite Hp. Qed.

Lemma un_chain_strs_plain (l : list string) (kwargs0 : kwargs) (w : world) :
  Forall (λ u, Str.contains "::" u = false) l →
  map_each l (λ p, _un_chain_str p kwargs0) w = (inr ((λ _, []) <$> l), w, []).
Proof.
  induction 1 as [|u l Hu Hl IH]; [done|].
  simpl. unfold bind at 1. rewrite un_chain_str_plain by done.
  unfold bind at 1. by rewrite IH.
Qed.

Lemma zip_star_nils {A B} (l : list B) :
  zip_star ((λ _, @nil A) <$> l) = [].
Proof. by destruct l. Qed.

Lemma un_chain_list_plain (l : list string) (kwargs0 : kwargs) (w : world) :
  Forall (λ u, Str.contains "::" u = false) l →
  _un_chain (PList l) kwargs0 w = (inr [], w, []).
Proof.
  intros Hl. simpl. unfold bind. rewrite un_chain_strs_plain by done.
  by rewrite zip_star_nils.
Qed.

Lemma forallb_all_equal {A} `{EqDecision A} (x : A) (l : list A) :
  forallb (λ y, bool_decide (y = x)) l = true → ∀ y, y ∈ l → y = x.
Proof.
  induction l as [|a l IH]; simpl; intros Hf y Hy; [by apply elem_of_nil in Hy|].
  apply andb_true_iff in Hf as [Ha Hf]. apply bool_decide_eq_true in Ha.
  apply elem_of_cons in Hy as [->|Hy]; [done|by apply IH].
Qed.

Lemma forallb_two_differ {A} `{EqDecision A} (x a b : A) (l : list A) :
  a ∈ l → b ∈ l → a ≠ b → forallb (λ y, bool_decide (y = x)) l = false.
Proof.
  intros Ha Hb Hne. apply not_true_is_false. intros Hf.
  apply Hne. by rewrite (forallb_all_equal x l Hf a), (forallb_all_equal x l Hf b).
Qed.

Lemma remove_dups_two {A} `{EqDecision A} (a b : A) (l : list A) :
  a ∈ l → b ∈ l → a ≠ b → (1 < length (remove_dups l))%nat.
Proof.
  intros Ha%elem_of_remove_dups Hb%elem_of_remove_dups Hne.
  destruct (remove_dups l) as [|x [|y k]]; simpl; [|exfalso|lia].
  - by apply elem_of_nil in Ha.
  - apply list_elem_of_singleton in Ha, Hb. congruence.
Qed.

Lemma zip_first_nonempty {A} (l : list A) (ls : list (list A)) :
  Forall (λ col, col ≠ []) (zip_first l ls).
Proof.
  revert ls. induction l as [|x l IH]; intros ls; simpl; [done|].
  destruct (mapM head ls); [|done]. constructor; [done|apply IH].
Qed.

Lemma zip_star_nonempty {A} (ls : list (list A)) :
  Forall (λ col, col ≠ []) (zip_star ls).
Proof. destruct ls; [done|apply zip_first_nonempty]. Qed.

(** The columns of a list of chains: the first column with two protocols
    stops the loop. *)
Lemma un_chain_columns_mismatch
    (cols : list (list (option string * string * kwargs))) (w : world) :
  Forall (λ col, col ≠ []) cols →
  Exists (λ col, ∃ e1 e2, e1 ∈ col ∧ e2 ∈ col ∧ e1.1.2 ≠ e2.1.2) cols →
  map_each cols _un_chain_column w
  = (inl (ValueError "Protocol mismatch in URL chain"), w, []).
Proof.
  intros Hne. induction Hne as [|col cols Hcol Hcols IH]; intros Hex.
  - by apply Exists_nil in Hex.
  - simpl. unfold bind at 1. unfold _un_chain_column at 1.
    destruct (decide (1 < length (remove_dups ((λ e, e.1.2) <$> col)))%nat)
      as [Hm|Hm]; [done|].
    apply Exists_cons in Hex as [(e1 & e2 & H1 & H2 & Hp)|Hex].
    + exfalso. apply Hm.
      apply (remove_dups_two e1.1.2 e2.1.2); [| |done];
        by apply (list_elem_of_fmap_2 (λ e, e.1.2)).
    + destruct col as [|e col]; [done|]. rewrite !fmap_cons. run.
      by rewrite IH.
Qed.
End resolution_facts.

Section resolution_claims.
Context `{Registry}.

Lemma forallb_equal_intro {A} `{EqDecision A} (x : A) (l : list A) :
  (∀ y, y ∈ l → y = x) → forallb (λ y, bool_decide (y = x)) l = true.
Proof.
  induction l as [|a l IH]; intros Hl; [done|]. simpl.
  rewrite bool_decide_eq_true_2 by (apply Hl; left).
  apply IH. intros y Hy. apply Hl. by right.
Qed.

Lemma common_protocol_mismatch (l : list string) (w : world) (u1 u2 : string) :
  u1 ∈ l → u2 ∈ l →
  (split_protocol u1).1 ≠ (split_protocol u2).1 →
  common_protocol l None w
  = (inl (ValueError
       "When specifying a list of paths, all paths must share the same protocol"),
     w, []).
Proof.
  intros H1 H2 Hne. unfold common_protocol.
  destruct ((λ u, (split_protocol u).1) <$> l) as [|p0 ps] eqn:Hps.
  { destruct l; [by apply elem_of_nil in H1|done]. }
  rewrite (forallb_two_differ p0 (split_protocol u1).1 (split_protocol u2).1);
    [done| | |done]; rewrite <-Hps;
    by apply (list_elem_of_fmap_2 (λ u, (split_protocol u).1)).
Qed.

Lemma common_protocol_agreed (l : list string) (protocol proto : option string)
    (w : world) :
  l ≠ [] →
  match protocol with
  | Some p => proto = Some p
  | None => ∀ u, u ∈ l → (split_protocol u).1 = proto
  end →
  common_protocol l protocol w = (inr proto, w, []).
Proof.
  intros Hl Hproto. unfold common_protocol. destruct protocol as [p|].
  { by subst proto. }
  destruct l as [|u l]; [done|].
  assert (forallb (λ p, bool_decide (p = proto))
            ((λ u, (split_protocol u).1) <$> u :: l) = true) as Hall.
  { apply forallb_equal_intro.
    intros y (u' & -> & Hu')%list_elem_of_fmap_1. by apply Hproto. }
  rewrite fmap_cons in *. rewrite (Hproto u) in * by left. by rewrite Hall.
Qed.

Lemma resolve_list_protocols (l : list string) (storage_options : option kwargs)
    (w : world) (u1 u2 : string) :
  u1 ∈ l → u2 ∈ l →
  (split_protocol u1).1 ≠ (split_protocol u2).1 →
  resolve_list l storage_options None w
  = (inl (ValueError
       "When specifying a list of paths, all paths must share the same protocol"),
     w, []).
Proof.
  intros H1 H2 Hne. unfold resolve_list, bind.
  by rewrite (common_protocol_mismatch l w u1 u2).
Qed.

Lemma resolve_list_options (l : list string) (storage_options : option kwargs)
    (protocol proto : option string) (c : cls) (w : world) (u1 u2 : string) :
  match protocol with
  | Some p => proto = Some p
  | None => ∀ u, u ∈ l → (split_protocol u).1 = proto
  end →
  get_filesystem_class proto = inr c →
  u1 ∈ l → u2 ∈ l →
  _get_kwargs_from_urls c u1 ≠ _get_kwargs_from_urls c u2 →
  resolve_list l storage_options protocol w
  = (inl (ValueError
       "When specifying a list of paths, all paths must share the same file-system options"),
     w, []).
Proof.
  intros Hproto Hc H1 H2 Hne. unfold resolve_list.
  unfold bind at 1. rewrite (common_protocol_agreed l protocol proto); [|by intros ->; apply elem_of_nil in H1|done].
  unfold bind at 1. unfold lift at 1. rewrite Hc.
  destruct (_get_kwargs_from_urls c <$> l) as [|o os] eqn:Hos.
  { destruct l; [by apply elem_of_nil in H1|done]. }
  rewrite (forallb_two_differ o (_get_kwargs_from_urls c u1)
             (_get_kwargs_from_urls c u2));
    [done| | |done]; rewrite <-Hos; by apply list_elem_of_fmap_2.
Qed.

(** X28.  For a non-empty list of paths, [get_fs_token_paths] raises a
    [ValueError], leaving the world untouched and before any file-system
    class is instantiated,
    - for protocol mismatch in URL chains: when the chains of the elements
      can be built and two of them differ in the protocol at some position
      that all chains have;
    - for plain URLs (no element has [::]) without a protocol override: when
      two elements have different protocols;
    - for plain URLs whose protocol (the override, or else the common one)
      is registered: when the class derives different options from the URLs
      of two elements. *)
Theorem list_resolution_mismatch (l : list string) (mode : string) (num : Z)
    (nf : option (Z → string)) (storage_options : option kwargs)
    (protocol : option string) (expand : bool) (w : world) :
  l ≠ [] →
  (∀ bits w' ev,
     map_each l (λ p, _un_chain_str p (default ∅ storage_options)) w
     = (inr bits, w', ev) →
     Exists (λ col, ∃ e1 e2, e1 ∈ col ∧ e2 ∈ col ∧ e1.1.2 ≠ e2.1.2)
       (zip_star bits) →
     get_fs_token_paths (PList l) mode num nf storage_options protocol expand w
     = (inl (ValueError "Protocol mismatch in URL chain"), w, []))
  ∧ (Forall (λ u, Str.contains "::" u = false) l →
     protocol = None →
     ∀ u1 u2, u1 ∈ l → u2 ∈ l →
       (split_protocol u1).1 ≠ (split_protocol u2).1 →
       get_fs_token_paths (PList l) mode num nf storage_options protocol expand w
       = (inl (ValueError
            "When specifying a list of paths, all paths must share the same protocol"),
          w, []))
  ∧ (Forall (λ u, Str.contains "::" u = false) l →
     ∀ proto c,
       match protocol with
       | Some p => proto = Some p
       | None => ∀ u, u ∈ l → (split_protocol u).1 = proto
       end →
       get_filesystem_class proto = inr c →
       ∀ u1 u2, u1 ∈ l → u2 ∈ l →
         _get_kwargs_from_urls c u1 ≠ _get_kwargs_from_urls c u2 →
         get_fs_token_paths (PList l) mode num nf storage_options protocol expand w
         = (inl (ValueError
              "When specifying a list of paths, all paths must share the same file-system options"),
            w, [])).
Proof.
  intros Hl. destruct l as [|u0 l0]; [done|]. clear Hl.
  set (l := u0 :: l0).
  assert (Hplain : ∀ e,
    Forall (λ u, Str.contains "::" u = false) l →
    resolve_list l storage_options protocol w = (inl e, w, []) →
    get_fs_token_paths (PList l) mode num nf storage_options protocol expand w
    = (inl e, w, [])).
  { intros e Hp Hr. unfold get_fs_token_paths. run.
    unfold l at 1. cbn beta iota. rewrite un_chain_list_plain by done.
    cbn [length]. rewrite decide_False by lia. by rewrite Hr. }
  split_and!.
  - intros bits w' ev Hbits Hex.
    destruct (quiet_map_each l (λ p, _un_chain_str p (default ∅ storage_options))
                (λ p, quiet_un_chain_str p _) w) as [r Hr].
    rewrite Hr in Hbits. injection Hbits as -> <- <-.
    unfold get_fs_token_paths, _un_chain. run.
    unfold l at 1. cbn beta iota. rewrite Hr.
    by rewrite (un_chain_columns_mismatch _ _ (zip_star_nonempty bits) Hex).
  - intros Hp -> u1 u2 H1 H2 Hne. apply Hplain; [done|].
    by apply (resolve_list_protocols l storage_options w u1 u2).
  - intros Hp proto c Hproto Hc u1 u2 H1 H2 Hne. apply Hplain; [done|].
    by apply (resolve_list_options l storage_options protocol proto c w u1 u2).
Qed.
End resolution_claims.

Section resolution_examples.
#[local] Existing Instance Mem.backend.
#[local] Existing Instance Mem.registry.

Lemma list_resolution_mismatch_witness :
  get_fs_token_paths (PList ["s3://bucket/a"; "gcs://bucket/b"])
    "rb" 1 None None None true Mem.start
  = (inl (ValueError
       "When specifying a list of paths, all paths must share the same protocol"),
     Mem.start, [])
  ∧ get_fs_token_paths (PList ["ftp://h1/a"; "ftp://h2/b"])
      "rb" 1 None None None true Mem.start
    = (inl (ValueError
         "When specifying a list of paths, all paths must share the same file-system options"),
       Mem.start, [])
  ∧ get_fs_token_paths (PList ["simplecache::ftp://h1/a"; "simplecache::file://b"])
      "rb" 1 None None None true Mem.start
    = (inl (ValueError "Protocol mismatch in URL chain"), Mem.start, []).
Proof.
  split_and!.
  - apply (list_resolution_mismatch ["s3://bucket/a"; "gcs://bucket/b"]
             "rb" 1 None None None true Mem.start)
      with (u1 := "s3://bucket/a") (u2 := "gcs://bucket/b");
      [discriminate|repeat constructor|reflexivity|set_solver|set_solver|
       vm_compute; discriminate].
  - apply (list_resolution_mismatch ["ftp://h1/a"; "ftp://h2/b"]
             "rb" 1 None None None true Mem.start)
      with (proto := Some "ftp") (c := Mem.Ftp)
           (u1 := "ftp://h1/a") (u2 := "ftp://h2/b");
      [discriminate|repeat constructor| |reflexivity|set_solver|set_solver|].
    + intros u [->| ->%list_elem_of_singleton]%elem_of_cons; reflexivity.
    + intros Heq. apply (f_equal (λ m : kwargs, m !! "host")) in Heq.
      vm_compute in Heq. discriminate.
  - eapply (list_resolution_mismatch
              ["simplecache::ftp://h1/a"; "simplecache::file://b"]
              "rb" 1 None None None true Mem.start);
      [discriminate|reflexivity|].
    apply Exists_cons_tl, Exists_cons_hd.
    eexists _, _. split_and!; [left|right; left|vm_compute; discriminate].
Defined.

(** C7 fails on the code for lists of URL chains.  The two elements below
    have the same protocols and different options (the hosts [h1] and
    [h2]): no error is raised, and one file system is instantiated for both
    paths with the options of the first element, although the second
    element on its own is resolved with its own host.  The same two URLs
    without the cache layer are refused: the branch for plain URLs compares
    the options of all elements, the one for chains does not. *)
Lemma chained_list_keeps_first_options :
  (∃ fs0 options,
     get_fs_token_paths
       (PList ["simplecache::ftp://h1/a"; "simplecache::ftp://h2/b"])
       "rb" 1 None None None true Mem.start
     = (inr (fs0, "token", ["/a"; "/b"]), Mem.start,
        [EvNew Mem.SimpleCache options])
     ∧ options !! "target_protocol" = Some (VStr "ftp")
     ∧ options !! "target_options" = Some (VDict [("host", VStr "h1")]))
  ∧ (∃ fs0 options,
       get_fs_token_paths (PList ["simplecache::ftp://h2/b"])
         "rb" 1 None None None true Mem.start
       = (inr (fs0, "token", ["/b"]), Mem.start,
          [EvNew Mem.SimpleCache options])
       ∧ options !! "target_protocol" = Some (VStr "ftp")
       ∧ options !! "target_options" = Some (VDict [("host", VStr "h2")]))
  ∧ get_fs_token_paths (PList ["ftp://h1/a"; "ftp://h2/b"])
      "rb" 1 None None None true Mem.start
    = (inl (ValueError
         "When specifying a list of paths, all paths must share the same file-system options"),
       Mem.start, []).
Proof.
  split_and!; [| |reflexivity]; eexists _, _; split_and!; reflexivity.
Qed.
End resolution_examples.

(** ** More on opening and closing an [OpenFile] *)

Section enter_facts.
Context `{Registry}.

(** What [__enter__] does, call by call. *)
Lemma enter_run (self : OpenFile) (w : world) :
  let mode := binary_mode_of (of_mode self) in
  let opening := EvOpen (of_fs self) (of_path self) mode in
  let text (l : list fobj) (f : fobj) (v : world) (ev : list event) :=
    if Str.contains "b" (of_mode self) then (inr f, (with_fobjects self l, v), ev)
    else
      match TextIOWrapper f (of_encoding self) (of_errors self) (of_newline self) v with
      | (inr f', v') =>
          (inr f', (with_fobjects self (l ++ [f']), v'), ev ++ [EvTextIOWrapper f])
      | (inl e, v') => (inl e, (with_fobjects self l, v'), ev ++ [EvTextIOWrapper f])
      end in
  __enter__ (self, w) =
  match fs_open (of_fs self) (of_path self) mode w with
  | (inl e, w1) => (inl e, (self, w1), [opening])
  | (inr f0, w1) =>
      match of_compression self with
      | None => text [f0] f0 w1 [opening]
      | Some c =>
          match compr !! c with
          | None => (inl (KeyError c), (with_fobjects self [f0], w1), [opening])
          | Some compress =>
              match compress f0 (Str.head mode) w1 with
              | (inr f1, w2) =>
                  text [f0; f1] f1 w2 [opening; EvCompress c f0 (Str.head mode)]
              | (inl e, w2) =>
                  (inl e, (with_fobjects self [f0], w2),
                   [opening; EvCompress c f0 (Str.head mode)])
              end
          end
      end
  end.
Proof.
  intros mode opening text. subst text opening mode. unfold binary_mode_of.
  unfold __enter__, set_fobjects, self_fobjects, in_world. run. simpl.
  destruct (fs_open _ _ _ w) as [[e|f0] w1]; simpl; [done|].
  destruct (of_compression self) as [c|]; simpl.
  - destruct (compr !! c) as [compress|]; simpl; [|done].
    destruct (compress f0 _ w1) as [[e|f1] w2]; simpl; [done|].
    destruct (Str.contains "b" (of_mode self)); simpl; [done|].
    destruct (TextIOWrapper f1 _ _ _ w2) as [[e|f2] w3]; simpl; done.
  - destruct (Str.contains "b" (of_mode self)); simpl; [done|].
    destruct (TextIOWrapper f0 _ _ _ w1) as [[e|f2] w3]; simpl; done.
Qed.
End enter_facts.

Section enter_props.
Context `{Registry}.

Lemma enter_layers (self self' : OpenFile) (w w' : world) (f : fobj)
    (ev : list event) :
  __enter__ (self, w) = (inr f, (self', w'), ev) →
  ∃ l, self' = with_fobjects self l
       ∧ last l = Some f
       ∧ length l = layer_count self
       ∧ closes ev = [] ∧ flushes ev = [].
Proof.
  rewrite enter_run. unfold layer_count. cbn zeta.
  destruct (fs_open _ _ _ w) as [[e|f0] w1]; [discriminate|].
  destruct (of_compression self) as [c|].
  - destruct (compr !! c) as [compress|]; [|discriminate].
    destruct (compress f0 _ w1) as [[e|f1] w2]; [discriminate|].
    destruct (Str.contains "b" (of_mode self)).
    + intros [= <- <- <- <-]. eexists. by split_and!.
    + destruct (TextIOWrapper f1 _ _ _ w2) as [[e|f2] w3]; [discriminate|].
      intros [= <- <- <- <-]. eexists. by split_and!.
  - destruct (Str.contains "b" (of_mode self)).
    + intros [= <- <- <- <-]. eexists. by split_and!.
    + destruct (TextIOWrapper f0 _ _ _ w1) as [[e|f2] w3]; [discriminate|].
      intros [= <- <- <- <-]. eexists. by split_and!.
Qed.

(** X3.  When the raw stream was opened and [__enter__] raises
    afterwards (the codec or the text wrapper cannot be set up), the
    wrapper keeps the layers opened so far, the raw stream first, and none
    of them is closed: there is no clean-up. *)
Theorem enter_failure_leaves_open (self self' : OpenFile) (w w1 w' : world)
    (f0 : fobj) (e : exn) (ev : list event) :
  fs_open (of_fs self) (of_path self) (binary_mode_of (of_mode self)) w
    = (inr f0, w1) →
  __enter__ (self, w) = (inl e, (self', w'), ev) →
  self' = with_fobjects self (of_fobjects self')
  ∧ head (of_fobjects self') = Some f0
  ∧ (length (of_fobjects self') < layer_count self)%nat
  ∧ closes ev = [].
Proof.
  intros Hopen. rewrite enter_run. unfold layer_count. cbn zeta. rewrite Hopen.
  destruct (of_compression self) as [c|].
  - destruct (compr !! c) as [compress|].
    + destruct (compress f0 _ w1) as [[e1|f1] w2].
      * intros [= <- <- <- <-]. split_and!; [done|done|simpl; lia|done].
      * destruct (Str.contains "b" (of_mode self)); [discriminate|].
        destruct (TextIOWrapper f1 _ _ _ w2) as [[e1|f2] w3]; [|discriminate].
        intros [= <- <- <- <-]. split_and!; [done|done|simpl; lia|done].
    + intros [= <- <- <- <-]. split_and!; [done|done|simpl; lia|done].
  - destruct (Str.contains "b" (of_mode self)); [discriminate|].
    destruct (TextIOWrapper f0 _ _ _ w1) as [[e1|f2] w3]; [|discriminate].
    intros [= <- <- <- <-]. split_and!; [done|done|simpl; lia|done].
Qed.
End enter_props.

(** ** Erasing a character *)

Lemma char_prefix (c d : ascii) (s : string) :
  String.prefix (String c "") (String d s) = bool_decide (c = d).
Proof.
  cbn [String.prefix]. destruct (ascii_dec c d) as [<-|Hne].
  - rewrite bool_decide_eq_true_2 by done. by destruct s.
  - by rewrite bool_decide_eq_false_2.
Qed.

Lemma split_go_char_cons (c d : ascii) (s : string) :
  Str.split_go (String c "") 0 (String d s) =
  if bool_decide (c = d)
  then (EmptyString,
        (Str.split_go (String c "") 0 s).1 :: (Str.split_go (String c "") 0 s).2)
  else (String d (Str.split_go (String c "") 0 s).1,
        (Str.split_go (String c "") 0 s).2).
Proof.
  cbn [Str.split_go]. rewrite char_prefix. simpl.
  by destruct (bool_decide _), (Str.split_go (String c "") 0 s).
Qed.

Lemma contains_char_cons (c d : ascii) (s : string) :
  Str.contains (String c "") (String d s)
  = bool_decide (c = d) || Str.contains (String c "") s.
Proof.
  unfold Str.contains. cbn [Str.find]. rewrite char_prefix.
  destruct (bool_decide _); [done|]. simpl.
  by destruct (Str.find (String c "") s) as [[]|].
Qed.

Lemma erase_char_cons (c d : ascii) (s : string) :
  Str.replace (String c "") "" (String d s) =
  if bool_decide (c = d) then Str.replace (String c "") "" s
  else String d (Str.replace (String c "") "" s).
Proof.
  unfold Str.replace, Str.split. rewrite split_go_char_cons.
  destruct (bool_decide (c = d)), (Str.split_go (String c "") 0 s) as [h t];
    cbn [fst snd]; [done|].
  by destruct t.
Qed.

Lemma erase_char_absent (c : ascii) (s : string) :
  Str.contains (String c "") (Str.replace (String c "") "" s) = false.
Proof.
  induction s as [|d s IH]; [done|].
  rewrite erase_char_cons. destruct (bool_decide (c = d)) eqn:Hc; [done|].
  by rewrite contains_char_cons, Hc.
Qed.

Lemma erase_char_keeps_absent (c c' : ascii) (s : string) :
  Str.contains (String c' "") s = false →
  Str.contains (String c' "") (Str.replace (String c "") "" s) = false.
Proof.
  induction s as [|d s IH]; [done|].
  rewrite contains_char_cons. intros [Hd Hs]%orb_false_iff.
  rewrite erase_char_cons. destruct (bool_decide (c = d)); [by apply IH|].
  rewrite contains_char_cons, Hd. by apply IH.
Qed.

Section binary.
Context `{Registry}.

(** X2.  Whatever the mode of the wrapper, [__enter__] first opens the
    path on the file system in a binary mode: the mode with every [t] and
    [b] removed and one [b] appended. *)
Theorem enter_opens_binary (self : OpenFile) (w : world) :
  ∃ stem ev,
    (__enter__ (self, w)).2
    = EvOpen (of_fs self) (of_path self) (stem +:+ "b") :: ev
    ∧ stem = Str.replace "b" "" (Str.replace "t" "" (of_mode self))
    ∧ Str.contains "b" stem = false
    ∧ Str.contains "t" stem = false.
Proof.
  exists (Str.replace "b" "" (Str.replace "t" "" (of_mode self))).
  pose proof (erase_char_absent "b" (Str.replace "t" "" (of_mode self))) as Hb.
  pose proof (erase_char_keeps_absent "b" "t" _
                (erase_char_absent "t" (of_mode self))) as Ht.
  rewrite enter_run. cbn zeta. unfold binary_mode_of.
  destruct (fs_open _ _ _ w) as [[e|f0] w1]; [by eexists|].
  destruct (of_compression self) as [c|].
  - destruct (compr !! c) as [compress|]; [|by eexists].
    destruct (compress f0 _ w1) as [[e|f1] w2]; [by eexists|].
    destruct (Str.contains "b" (of_mode self)); [by eexists|].
    destruct (TextIOWrapper f1 _ _ _ w2) as [[e|f2] w3]; by eexists.
  - destruct (Str.contains "b" (of_mode self)); [by eexists|].
    destruct (TextIOWrapper f0 _ _ _ w1) as [[e|f2] w3]; by eexists.
Qed.
End binary.

Section close_props.
Context `{Registry}.


Lemma close_step_closes_prefix (mode : string) (f : fobj) (w : world) :
  closes (_close_step mode f w).2 `prefix_of` [f].
Proof.
  unfold _close_step. run.
  destruct (negb (Str.contains "r" mode) && negb (fobj_closed f w)); run.
  - destruct (fobj_flush f w) as [[e|[]] w1]; simpl.
    + apply prefix_nil.
    + by destruct (fobj_close f w1) as [[e|[]] w2].
  - by destruct (fobj_close f w) as [[e|[]] w2].
Qed.

Lemma close_loop_prefix (mode : string) (l : list fobj) (w : world) :
  closes (for_each l (_close_step mode) w).2 `prefix_of` l.
Proof.
  revert w. induction l as [|f l IH]; intros w; simpl; [done|].
  unfold bind at 1.
  pose proof (close_step_closes_prefix mode f w) as Hp.
  destruct (_close_step mode f w) as [[[e|[]] w1] ev1] eqn:Hs; simpl in *.
  - etrans; [exact Hp|]. apply prefix_cons, prefix_nil.
  - specialize (IH w1).
    destruct (for_each l (_close_step mode) w1) as [[r w2] ev2]. simpl in *.
    rewrite closes_app, (close_step_closes _ _ _ _ _ Hs).
    simpl. by apply prefix_cons.
Qed.


(** X4.  When [close] raises, the wrapper is unchanged, its layer
    list included, and the layers whose close was called are an initial
    part of the layers in reverse order. *)
Theorem close_failure_keeps_layers (self self' : OpenFile) (w w' : world)
    (e : exn) (ev : list event) :
  close (self, w) = (inl e, (self', w'), ev) →
  self' = self ∧ closes ev `prefix_of` reverse (of_fobjects self).
Proof.
  rewrite close_run.
  pose proof (close_loop_prefix (of_mode self) (reverse (of_fobjects self)) w) as Hp.
  destruct (for_each _ _ w) as [[[e1|[]] w1] ev1]; [|discriminate].
  by intros [= <- <- <- <-].
Qed.


End close_props.

(** ** More on path expansion *)

Section expansion_more.
Context `{Registry}.

Lemma expand_loop_plain (paths : list string) (mode : string) (num : Z) (fs0 : fs)
    (nf : option (Z → string)) (acc : list string) (w : world) :
  Forall (λ p, Str.contains "*" p = false) paths →
  expand_paths_loop paths mode num fs0 nf acc w = (inr (acc ++ paths), w, []).
Proof.
  intros Hp. revert acc. induction Hp as [|p paths Hp _ IH]; intros acc; simpl.
  - run. by rewrite app_nil_r.
  - rewrite Hp. unfold bind at 1. run. rewrite IH. by rewrite <-(assoc_L (++)).
Qed.

Lemma expand_if_needed_plain (paths : list string) (mode : string) (num : Z)
    (fs0 : fs) (nf : option (Z → string)) (w : world) :
  Forall (λ p, Str.contains "*" p = false) paths →
  expand_paths_if_needed paths mode num fs0 nf w = (inr paths, w, []).
Proof.
  intros Hp. unfold expand_paths_if_needed.
  assert (filter (λ p, Str.contains "*" p = true) paths = []) as ->.
  { induction Hp as [|p paths Hp _ IH]; [done|].
    rewrite filter_cons, decide_False by congruence. done. }
  rewrite bool_decide_eq_false_2 by (simpl; lia). rewrite andb_false_r.
  unfold bind. rewrite expand_loop_plain by done. cbn [app].
  destruct (Str.contains "w" mode); cbn [andb]; [|done].
  rewrite bool_decide_eq_false_2 by lia. done.
Qed.

(** X25.  [expand_paths_if_needed] returns a list of paths without
    [*] as it is, in every mode and whatever the count; the file system is
    not consulted. *)
Theorem expand_paths_plain_list (paths : list string) (mode : string) (num : Z)
    (fs0 : fs) (nf : option (Z → string)) (w : world) :
  Forall (λ p, Str.contains "*" p = false) paths →
  expand_paths_if_needed paths mode num fs0 nf w = (inr paths, w, []).
Proof. apply expand_if_needed_plain. Qed.

Lemma expand_loop_read (paths : list string) (mode : string) (num : Z) (fs0 : fs)
    (nf : option (Z → string)) (acc : list string) (w : world) :
  Str.contains "w" mode = false →
  expand_paths_loop paths mode num fs0 nf acc w
  = (let* ls := map_each paths (read_expansion fs0) in ret (acc ++ concat ls)) w.
Proof.
  intros Hw. revert acc w. induction paths as [|p paths IH]; intros acc w.
  - simpl. run. by rewrite app_nil_r.
  - cbn [expand_paths_loop map_each]. rewrite Hw. unfold read_expansion at 1.
    destruct (Str.contains "*" p).
    + unfold bind.
      destruct (glob fs0 p w) as [[[e|l] w1] ev1]; [done|]. run.
      rewrite IH. unfold bind.
      destruct (map_each paths (read_expansion fs0) w1) as [[[e|ls] w2] ev2].
      * by rewrite !app_nil_r.
      * run. simpl. by rewrite !app_nil_r, <-(assoc_L (++)).
    + unfold bind. run.
      rewrite IH. unfold bind.
      destruct (map_each paths (read_expansion fs0) w) as [[[e|ls] w2] ev2].
      * done.
      * run. simpl. by rewrite !app_nil_r, <-(assoc_L (++)).
Qed.

(** X26.  In a mode without [w], [expand_paths_if_needed] replaces
    each path with a [*] by what [glob] returns for it, in place, and keeps
    the other paths: nothing is sorted, no directory is dropped and the
    count plays no part. *)
Theorem expand_paths_read_list (paths : list string) (mode : string) (num : Z)
    (fs0 : fs) (nf : option (Z → string)) (w : world) :
  Str.contains "w" mode = false →
  expand_paths_if_needed paths mode num fs0 nf w
  = (let* ls := map_each paths (read_expansion fs0) in ret (concat ls)) w.
Proof.
  intros Hw. unfold expand_paths_if_needed. rewrite Hw. cbn [andb].
  unfold bind at 1. rewrite expand_loop_read by done. unfold bind.
  destruct (map_each paths (read_expansion fs0) w) as [[[e|ls] w2] ev2]; [done|].
  run. simpl. by rewrite !app_nil_r.
Qed.
End expansion_more.

(** ** Templates with exactly one placeholder *)

Lemma split_go_no_star (s : string) :
  Str.contains "*" s = false → Str.split_go "*" 0 s = (s, []).
Proof.
  induction s as [|c s IH]; [done|].
  rewrite contains_star_cons. intros [Hc Hs]%orb_false_iff.
  by rewrite split_go_star_cons, Hc, IH.
Qed.

Lemma replace_one_star (a b r : string) :
  Str.contains "*" a = false → Str.contains "*" b = false →
  Str.replace "*" r (a +:+ "*" +:+ b) = a +:+ r +:+ b.
Proof.
  intros Ha Hb. unfold Str.replace, Str.split.
  rewrite split_go_star_app by done.
  change ("*" +:+ b) with (String "*" b).
  rewrite split_go_star_cons, bool_decide_eq_true_2 by done.
  rewrite split_go_no_star by done. cbn [fst snd String.concat].
  by rewrite append_nil_r.
Qed.

Lemma one_star_split (p : string) :
  Str.count "*" p = 1%nat →
  ∃ a b, p = a +:+ "*" +:+ b
         ∧ Str.contains "*" a = false ∧ Str.contains "*" b = false.
Proof.
  induction p as [|c p IH]; [done|].
  rewrite count_star_cons. destruct (bool_decide (c = "*"%char)) eqn:Hc.
  - apply bool_decide_eq_true in Hc as ->. intros [= Hp].
    exists "", p. split_and!; [done|done|].
    rewrite contains_star_count. apply bool_decide_eq_false_2. lia.
  - intros (a & b & -> & Ha & Hb)%IH. exists (String c a), b.
    split_and!; [done| |done]. by rewrite contains_star_cons, Hc.
Qed.

Lemma append_length (a b : string) :
  String.length (a +:+ b) = (String.length a + String.length b)%nat.
Proof. induction a as [|c a IH]; simpl; [done|by rewrite IH]. Qed.

Lemma append_inv_head (a b c : string) : a +:+ b = a +:+ c → b = c.
Proof. induction a as [|x a IH]; simpl; [done|]. intros [= ?]. by apply IH. Qed.

Lemma append_inv_tail (a b c : string) : a +:+ c = b +:+ c → a = b.
Proof.
  revert b. induction a as [|x a IH]; intros [|y b]; simpl; [done| | |].
  - intros Hc. apply (f_equal String.length) in Hc. simpl in Hc.
    rewrite append_length in Hc. lia.
  - intros Hc. apply (f_equal String.length) in Hc. simpl in Hc.
    rewrite append_length in Hc. lia.
  - intros [= -> ?]. f_equal. by apply IH.
Qed.

Lemma range_NoDup (n : Z) : NoDup (range n).
Proof. unfold range. apply (NoDup_fmap_2 _), NoDup_seq. Qed.

Section one_star.
Context `{Registry}.

(** X27.  A template with exactly one [*] expands to the paths made of
    the text before the [*], the name of the index, and the text after it,
    for the indices from 0 below the count; they are as many as the count
    (none for a negative count), and distinct when the name function is
    injective. *)
Theorem expand_paths_one_star (p : string) (g : Z → string) (num : Z) (w : world) :
  Str.count "*" p = 1%nat →
  ∃ pre post result ev,
    p = pre +:+ "*" +:+ post
    ∧ _expand_paths (AStr p) (Some g) num w = (inr result, w, ev)
    ∧ Forall is_warning ev
    ∧ result = (λ i, pre +:+ g i +:+ post) <$> range num
    ∧ length result = Z.to_nat num
    ∧ ((∀ i j, g i = g j → i = j) → NoDup result).
Proof.
  intros Hp. destruct (one_star_split p Hp) as (pre & post & -> & Hpre & Hpost).
  destruct (expand_paths_str (pre +:+ "*" +:+ post) (Some g) num g w)
    as (ev & Hrun & Hev); [lia|done|].
  assert (Str.contains "*" (pre +:+ "*" +:+ post) = true) as Hstar.
  { rewrite contains_star_count. apply bool_decide_eq_true_2. lia. }
  rewrite Hstar in Hrun.
  exists pre, post, ((λ i, pre +:+ g i +:+ post) <$> range num), ev.
  split_and!; [done| |done|done| |].
  - rewrite Hrun. do 3 f_equal. apply list_fmap_ext. intros _ i _.
    by apply replace_one_star.
  - unfold range. by rewrite !length_fmap, length_seq.
  - intros Hinj. apply NoDup_fmap_2_strong; [|apply range_NoDup].
    intros i j _ _ Hij. apply Hinj.
    by apply append_inv_head, append_inv_tail in Hij.
Qed.
End one_star.

(** ** URL chains *)

Lemma find_split_go (sub s : string) :
  sub ≠ "" → Str.contains sub s = true → (Str.split_go sub 0 s).2 ≠ [].
Proof.
  intros Hsub. unfold Str.contains. induction s as [|c s IH]; cbn [Str.find Str.split_go].
  - destruct sub as [|a sub]; [by destruct Hsub|]. simpl. discriminate.
  - destruct (String.prefix sub (String c s)).
    + intros _. cbn [snd].
      destruct (Str.split_go sub (String.length sub - 1) s) as [h t].
      intros [=].
    + destruct (Str.find sub s) as [[a b]|]; [|done]. intros _.
      destruct (Str.split_go sub 0 s) as [h t] eqn:Hs. simpl in *. by apply IH.
Qed.

Lemma split_two (sub s : string) :
  sub ≠ "" → Str.contains sub s = true → (2 ≤ length (Str.split sub s))%nat.
Proof.
  intros Hsub Hc. pose proof (find_split_go sub s Hsub Hc) as Hne.
  unfold Str.split. destruct (Str.split_go sub 0 s) as [h [|x t]]; [done|].
  simpl. lia.
Qed.

Section chains.
Context `{Registry}.

Lemma un_chain_bit_protocol (kwargs0 : kwargs) (previous : option string)
    (bit : string) (w w' : world) e ev :
  _un_chain_bit kwargs0 previous bit w = (inr e, w', ev) →
  e.1.2 = bit_protocol bit.
Proof.
  unfold _un_chain_bit, bit_protocol. run.
  destruct (get_filesystem_class _) as [?|c]; [discriminate|].
  destruct (kwargs0 !! _) as [[]|]; try discriminate;
    destruct (dict_merge _ _); try discriminate; by intros [= <- _ _].
Qed.

Lemma un_chain_loop_protocols (kwargs0 : kwargs) (bits : list string)
    (previous : option string) (out0 out : list (option string * string * kwargs))
    (w w' : world) ev :
  _un_chain_loop kwargs0 bits previous out0 w = (inr out, w', ev) →
  (λ e, e.1.2) <$> out = ((λ e, e.1.2) <$> out0) ++ (bit_protocol <$> bits).
Proof.
  revert previous out0 out w w' ev. induction bits as [|bit bits IH];
    intros previous out0 out w w' ev; simpl.
  - run. intros [= <- _ _]. by rewrite app_nil_r.
  - unfold bind at 1.
    destruct (_un_chain_bit kwargs0 previous bit w) as [[[?|e] w1] ev1] eqn:Hb;
      [discriminate|].
    destruct (_un_chain_loop _ _ _ _ w1) as [[[?|out1] w2] ev2] eqn:Hl;
      [discriminate|].
    intros [= <- _ _]. rewrite (IH _ _ _ _ _ _ Hl), fmap_app. simpl.
    rewrite (un_chain_bit_protocol _ _ _ _ _ _ _ Hb). by rewrite <-(assoc_L (++)).
Qed.

Lemma un_chain_str_entries (path : string) (kwargs0 : kwargs)
    (w w' : world) (out : list (option string * string * kwargs)) ev :
  _un_chain_str path kwargs0 w = (inr out, w', ev) →
  w' = w ∧ ev = []
  ∧ if Str.contains "::" path
    then (λ e, e.1.2) <$> out = bit_protocol <$> chain_bits path
         ∧ (2 ≤ length out)%nat
    else out = [].
Proof.
  intros Hrun.
  destruct (quiet_un_chain_str path kwargs0 w) as [r Hq].
  rewrite Hq in Hrun. injection Hrun as -> <- <-. split_and!; [done|done|].
  unfold _un_chain_str in Hq. fold (chain_bits path) in Hq.
  destruct (Str.contains "::" path) eqn:Hc.
  - assert (2 ≤ length (chain_bits path))%nat as Hlen.
    { unfold chain_bits. rewrite length_fmap. by apply split_two. }
    rewrite decide_False in Hq by lia. unfold bind in Hq.
    destruct (_un_chain_loop _ _ _ _ w) as [[[?|out1] w1] ev1] eqn:Hl;
      [discriminate|].
    revert Hq. run. intros [= <- _ _].
    apply un_chain_loop_protocols in Hl. simpl in Hl.
    assert ((λ e, e.1.2) <$> reverse out1 = bit_protocol <$> chain_bits path) as Hp.
    { by rewrite fmap_reverse, Hl, fmap_reverse, reverse_involutive. }
    split; [done|].
    apply (f_equal length) in Hp. rewrite !length_fmap in Hp. lia.
  - rewrite decide_True in Hq by (simpl; lia). by injection Hq as <-.
Qed.

(** X21.  A path without [::] has no chain.  For a path with [::],
    [_un_chain] returns one entry per segment, at least two, in the order
    of the segments, each with the protocol of its segment ([file] when the
    segment has none); it consults the registry only. *)
Theorem un_chain_one_entry_per_segment (path : string) (kwargs0 : kwargs)
    (w w' : world) (out : list (option string * string * kwargs)) ev :
  _un_chain_str path kwargs0 w = (inr out, w', ev) →
  w' = w ∧ ev = []
  ∧ if Str.contains "::" path
    then (λ e, e.1.2) <$> out = bit_protocol <$> chain_bits path
         ∧ (2 ≤ length out)%nat
    else out = [].
Proof. apply un_chain_str_entries. Qed.

Lemma target_dom (u : urls) (p : string) (o : kwargs) :
  dom (target u p o) = ({[ "fo"; "target_protocol"; "target_options" ]} : gset string).
Proof.
  unfold target. rewrite !dom_insert_L, dom_empty_L.
  by rewrite (right_id_L ∅ (∪)), !(assoc_L (∪)).
Qed.

Lemma target_insert (u u' : urls) (p p' : string) (o o' : kwargs) :
  <["fo" := urls_value u]>
    (<["target_protocol" := VStr p]>
       (<["target_options" := to_dict o]> (target u' p' o')))
  = target u p o.
Proof.
  unfold target. apply map_eq. intros k.
  destruct (decide (k = "fo")) as [->|Hfo].
  { by rewrite !lookup_insert_eq. }
  rewrite !(lookup_insert_ne _ "fo") by done.
  destruct (decide (k = "target_protocol")) as [->|Htp].
  { by rewrite !lookup_insert_eq. }
  rewrite !(lookup_insert_ne _ "target_protocol") by done.
  destruct (decide (k = "target_options")) as [->|Hto].
  { by rewrite !lookup_insert_eq. }
  rewrite !(lookup_insert_ne _ "target_options") by done.
  rewrite !(lookup_insert_ne _ "fo") by done.
  rewrite !(lookup_insert_ne _ "target_protocol") by done.
  by rewrite !(lookup_insert_ne _ "target_options") by done.
Qed.

Lemma dict_merge_empty (a : kwargs) : dict_merge a ∅ = inr a.
Proof.
  unfold dict_merge. rewrite decide_True.
  - by rewrite (right_id_L ∅ (∪)).
  - by rewrite dom_empty_L, (right_absorb_L ∅ (∩)).
Qed.

Lemma nested_options_error (front l : list (urls * string * kwargs)) (e : exn) :
  l ≠ [] → nested_options l = inl e → nested_options (front ++ l) = inl e.
Proof.
  intros Hl He. induction front as [|[[u p] kw] front IH]; [done|].
  cbn [app nested_options].
  destruct (front ++ l) as [|[[u' p'] kw'] rest] eqn:Hrest.
  { by destruct front, l. }
  by rewrite IH.
Qed.

Lemma nested_options_cons (u u' : urls) (p p' : string) (kw kw' : kwargs)
    (rest : list (urls * string * kwargs)) :
  nested_options ((u, p, kw) :: (u', p', kw') :: rest) =
  match nested_options ((u', p', kw') :: rest) with
  | inr inner => dict_merge kw (target u' p' inner)
  | inl e => inl e
  end.
Proof. reflexivity. Qed.

(** The loop from the second round on: [back] is the part of the chain
    already nested, [front] the part still to come. *)
Lemma chain_kwargs_loop (front back : list (urls * string * kwargs))
    (u : urls) (p : string) (kw inner : kwargs) (w : world) :
  front ≠ [] →
  nested_options ((u, p, kw) :: back) = inr inner →
  chain_kwargs (reverse front) (S (length back))
    (length front + S (length back)) (target u p inner) w
  = (nested_options (front ++ (u, p, kw) :: back), w, []).
Proof.
  revert back u p kw inner.
  induction front as [|[[ux px] kwx] front IH] using rev_ind;
    intros back u p kw inner Hne Hin; [done|]. clear Hne.
  rewrite reverse_snoc. cbn [chain_kwargs]. unfold bind, lift.
  assert (nested_options ((ux, px, kwx) :: (u, p, kw) :: back)
          = dict_merge kwx (target u p inner)) as Hx.
  { by rewrite nested_options_cons, Hin. }
  rewrite <-(assoc_L (++)). cbn [app].
  destruct (dict_merge kwx (target u p inner)) as [e|m] eqn:Hm.
  { by rewrite (nested_options_error front _ e). }
  rewrite length_app. cbn [length].
  destruct (decide (S (length back) = length front + 1 + S (length back) - 1)%nat)
    as [Hlast|Hmore].
  - destruct front; [|simpl in Hlast; lia]. cbn [app reverse chain_kwargs]. by rewrite Hx.
  - rewrite target_insert.
    assert (front ≠ []) as Hfront by (intros ->; simpl in Hmore; lia).
    specialize (IH ((u, p, kw) :: back) ux px kwx m Hfront Hx).
    cbn [length] in IH.
    replace (length front + 1 + S (length back))%nat
      with (length front + S (S (length back)))%nat by lia.
    by rewrite IH.
Qed.

Lemma chain_kwargs_nested (chain : list (urls * string * kwargs)) (w : world) :
  chain_kwargs (reverse chain) 0 (length chain) ∅ w = (nested_options chain, w, []).
Proof.
  destruct chain as [|[[u p] kw] front] using rev_ind; [done|].
  rewrite reverse_snoc, length_app. cbn [chain_kwargs length]. unfold bind, lift.
  rewrite dict_merge_empty.
  destruct (decide (0 = length front + 1 - 1)%nat) as [Hlast|Hmore].
  - destruct front; [|simpl in Hlast; lia]. done.
  - change (<["fo" := _]> _) with (target u p kw).
    assert (front ≠ []) as Hfront by (intros ->; simpl in Hmore; lia).
    pose proof (chain_kwargs_loop front [] u p kw kw w Hfront eq_refl) as Hloop.
    cbn [length] in Hloop.
    replace (length front + 1)%nat with (length front + 1)%nat by lia.
    by rewrite Hloop.
Qed.

Lemma nested_options_type_error (chain : list (urls * string * kwargs)) (e : exn) :
  nested_options chain = inl e →
  e = TypeError "dict() got multiple values for keyword argument".
Proof.
  induction chain as [|[[u p] kw] rest IH]; [done|].
  destruct rest as [|[[u' p'] kw'] rest]; [done|].
  rewrite nested_options_cons.
  destruct (nested_options _) as [e'|inner]; [intros [= <-]; by apply IH|].
  unfold dict_merge. destruct (decide _); [done|]. by intros [= <-].
Qed.

(** X22.  The loop over a reversed chain computes the nested options:
    the options of the outermost layer joined with [target_options],
    [target_protocol] and [fo] of the layer inside it, whose
    [target_options] are built the same way.  When two keyword sets collide
    the chain is refused without any instantiation; otherwise the class of
    the outermost protocol is instantiated first, with these options. *)
Theorem chain_options_nested (chain : list (urls * string * kwargs)) (w : world) :
  chain_kwargs (reverse chain) 0 (length chain) ∅ w = (nested_options chain, w, [])
  ∧ (∀ e, nested_options chain = inl e → resolve_chain chain w = (inl e, w, []))
  ∧ (∀ u p kw rest options c,
       chain = (u, p, kw) :: rest →
       nested_options chain = inr options →
       get_filesystem_class (Some p) = inr c →
       ∃ ev, (resolve_chain chain w).2 = EvNew c options :: ev).
Proof.
  split_and!.
  - apply chain_kwargs_nested.
  - intros e He. unfold resolve_chain, bind.
    by rewrite chain_kwargs_nested, He.
  - intros u p kw rest options c -> Ho Hc. unfold resolve_chain, bind.
    rewrite chain_kwargs_nested, Ho. unfold filesystem, new, bind, lift, emit.
    rewrite Hc. unfold call.
    destruct (cls_new c options w) as [[e|fs0] w1]; [by eexists|].
    cbn beta iota zeta.
    destruct u as [u|us].
    + destruct (strip_protocol_of fs0 u w1) as [[[e|s] w2] ev2]; by eexists.
    + destruct (map_each us (strip_protocol_of fs0) w1) as [[[e|s] w2] ev2];
        by eexists.
Qed.

(** X23.  In a chain of two or more layers, options for the outermost
    layer that contain [fo], [target_protocol] or [target_options] make
    [dict] raise a [TypeError]; no class is instantiated. *)
Theorem chain_rejects_target_options (u u' : urls) (p p' : string)
    (kw kw' : kwargs) (rest : list (urls * string * kwargs)) (w : world) (k : string) :
  k ∈ ({[ "fo"; "target_protocol"; "target_options" ]} : gset string) →
  k ∈ dom kw →
  resolve_chain ((u, p, kw) :: (u', p', kw') :: rest) w
  = (inl (TypeError "dict() got multiple values for keyword argument"), w, []).
Proof.
  intros Hk Hkw. unfold resolve_chain, bind. rewrite chain_kwargs_nested.
  rewrite nested_options_cons.
  destruct (nested_options ((u', p', kw') :: rest)) as [e|inner] eqn:Hin.
  { by rewrite (nested_options_type_error _ _ Hin). }
  unfold dict_merge. rewrite decide_False; [done|].
  rewrite target_dom. intros Hd.
  assert (k ∈ dom kw ∩ ({[ "fo"; "target_protocol"; "target_options" ]} : gset string))
    as Hin' by (by apply elem_of_intersection).
  rewrite Hd in Hin'. by apply elem_of_empty in Hin'.
Qed.

(** X24.  For a URL with [::], [get_fs_token_paths] ignores its
    [protocol] argument. *)
Theorem chain_ignores_protocol_argument (url mode : string) (num : Z)
    (nf : option (Z → string)) (storage_options : option kwargs)
    (protocol : option string) (expand : bool) (w : world) :
  Str.contains "::" url = true →
  get_fs_token_paths (PStr url) mode num nf storage_options protocol expand w
  = get_fs_token_paths (PStr url) mode num nf storage_options None expand w.
Proof.
  intros Hc. unfold get_fs_token_paths. cbn [_un_chain]. unfold bind, ret.
  cbn beta iota.
  destruct (_un_chain_str url (default ∅ storage_options) w)
    as [[[e|out] w1] ev1] eqn:Hq; [done|].
  apply un_chain_str_entries in Hq as (-> & -> & Hout). rewrite Hc in Hout.
  destruct Hout as [_ Hlen].
  rewrite !decide_True by (rewrite length_fmap; lia). done.
Qed.
End chains.

(** ** Resolution of plain URLs *)

Section bind_facts.
Context `{Registry} {S : Type}.

Lemma bind_inl {A B} (m : M S A) (k : A → M S B) (s s' : S) (e : exn) ev :
  m s = (inl e, s', ev) → bind m k s = (inl e, s', ev).
Proof. unfold bind. by intros ->. Qed.

Lemma bind_inr {A B} (m : M S A) (k : A → M S B) (s s' : S) (a : A) ev :
  m s = (inr a, s', ev) →
  bind m k s = ((k a s').1.1, (k a s').1.2, ev ++ (k a s').2).
Proof. unfold bind. intros ->. by destruct (k a s') as [[? ?] ?]. Qed.

Lemma bind_pure {A B} (m : M S A) (k : A → M S B) (s s' : S) (a : A) :
  m s = (inr a, s', []) → bind m k s = k a s'.
Proof. unfold bind. intros ->. by destruct (k a s') as [[? ?] ?]. Qed.

Lemma bind_inr_quiet {A B} (m : M S A) (k : A → M S B) (s s' s'' : S) (a : A)
    (r : exn + B) ev :
  m s = (inr a, s', ev) → k a s' = (r, s'', []) → bind m k s = (r, s'', ev).
Proof. unfold bind. intros -> ->. by rewrite app_nil_r. Qed.
End bind_facts.

Section resolution_success.
Context `{Registry}.

(** The part of [get_fs_token_paths] after the file system is there. *)
Lemma get_fs_token_paths_run (urlpath : pathspec) (mode : string) (num : Z)
    (nf : option (Z → string)) (storage_options : option kwargs)
    (protocol : option string) (expand : bool) (w : world) :
  urlpath ≠ PList [] →
  ∃ tail : fs * pathspec → M world (fs * string * list string),
    (∀ r v fs1 token paths v' ev,
       tail r v = (inr (fs1, token, paths), v', ev) →
       fs1 = r.1 ∧ token = fs_token r.1)
    ∧ get_fs_token_paths urlpath mode num nf storage_options protocol expand w
      = (let* chain := _un_chain urlpath (default ∅ storage_options) in
         let* r :=
           if decide (1 < length chain)%nat then resolve_chain chain
           else
             match urlpath with
             | PList l => resolve_list l storage_options protocol
             | PStr s => resolve_str s storage_options protocol
             end in
         tail r) w.
Proof.
  intros Hne.
  exists (λ r,
    let* paths :=
      match r.2 with
      | PList l => expand_paths_if_needed l mode num r.1 nf
      | PStr p =>
          if Str.contains "w" mode && expand then
            _expand_paths (AStr p) nf num
          else if Str.contains "*" p then
            let* g := glob r.1 p in
            drop_dirs r.1 (Str.sorted g)
          else ret [p]
      end in
    ret (r.1, fs_token r.1, paths)).
  split.
  - intros r v fs1 token paths v' ev. unfold bind, ret.
    match goal with
    | |- context [match ?m v with _ => _ end] => destruct (m v) as [[[?|?] ?] ?]
    end; [done|]. by intros [= <- <- _ _ _].
  - unfold get_fs_token_paths.
    rewrite (bind_inr _ _ w w tt []);
      [|by destruct urlpath as [s|[|a l]]; [|destruct Hne|]].
    cbn beta. cbn [app]. match goal with |- _ = ?X => by destruct X as [[? ?] ?] end.
Qed.

Lemma quiet_strip_protocol_of (fs0 : fs) (u : option string) :
  quiet (strip_protocol_of fs0 u).
Proof. destruct u; [apply quiet_ret|apply quiet_raise]. Qed.

Lemma resolve_agrees (m : M world (fs * pathspec))
    (tail : fs * pathspec → M world (fs * string * list string))
    (r : exn + fs * urls) (w w1 v : world) (rm : exn + fs * pathspec) ev :
  (∀ r v fs1 token paths v' ev,
     tail r v = (inr (fs1, token, paths), v', ev) →
     fs1 = r.1 ∧ token = fs_token r.1) →
  m w = (rm, v, ev) →
  match r with
  | inl e => rm = inl e ∧ v = w1
  | inr (fs0, _) => ∀ fs1 ps, rm = inr (fs1, ps) → fs1 = fs0
  end →
  match r with
  | inl e => bind m tail w = (inl e, w1, ev)
  | inr (fs0, _) =>
      ∃ r' w2 ev',
        bind m tail w = (r', w2, ev ++ ev')
        ∧ ∀ fs1 token paths,
            r' = inr (fs1, token, paths) → fs1 = fs0 ∧ token = fs_token fs0
  end.
Proof.
  intros Htail Hm Hr. destruct r as [e|[fs0 u]].
  - destruct Hr as [-> ->]. by rewrite (bind_inl _ _ _ _ _ _ Hm).
  - destruct rm as [e|[fs1 ps]].
    + rewrite (bind_inl _ _ _ _ _ _ Hm). eexists _, _, []. by rewrite app_nil_r.
    + rewrite (Hr fs1 ps eq_refl) in *. rewrite (bind_inr _ _ _ _ _ _ Hm).
      eexists _, _, _. split; [done|].
      intros fs2 token paths Hres.
      apply (Htail (fs0, ps) v fs2 token paths (tail (fs0, ps) v).1.2
               (tail (fs0, ps) v).2).
      rewrite <-Hres. by destruct (tail (fs0, ps) v) as [[? ?] ?].
Qed.

Lemma quiet_strip_paths (fs0 : fs) (u : urls) (w : world) :
  ∃ r, (match u with
        | Many us => let* l := map_each us (strip_protocol_of fs0) in ret (PList l)
        | One u => let* p := strip_protocol_of fs0 u in ret (PStr p)
        end) w = (r, w, []).
Proof.
  assert (quiet (match u with
        | Many us => let* l := map_each us (strip_protocol_of fs0) in ret (PList l)
        | One u => let* p := strip_protocol_of fs0 u in ret (PStr p)
        end)) as Hq; [|apply Hq].
  destruct u as [u|us].
  - apply quiet_bind; [apply quiet_strip_protocol_of|]. intros p. apply quiet_ret.
  - apply quiet_bind.
    + apply quiet_map_each. intros u. apply quiet_strip_protocol_of.
    + intros l. apply quiet_ret.
Qed.

(** X17.  [url_to_fs] and [get_fs_token_paths] resolve a URL string
    alike (no protocol override): when [url_to_fs] raises,
    [get_fs_token_paths] raises the same exception after the same events;
    when it returns a file system, [get_fs_token_paths] starts with the
    same events and, if it returns, returns that file system and its
    token. *)
Theorem url_to_fs_agrees (url mode : string) (num : Z) (nf : option (Z → string))
    (kwargs0 : kwargs) (expand : bool) (w w1 : world) r ev :
  url_to_fs url kwargs0 w = (r, w1, ev) →
  match r with
  | inl e =>
      get_fs_token_paths (PStr url) mode num nf (Some kwargs0) None expand w
      = (inl e, w1, ev)
  | inr (fs0, _) =>
      ∃ r' w2 ev',
        get_fs_token_paths (PStr url) mode num nf (Some kwargs0) None expand w
        = (r', w2, ev ++ ev')
        ∧ ∀ fs1 token paths,
            r' = inr (fs1, token, paths) → fs1 = fs0 ∧ token = fs_token fs0
  end.
Proof.
  intros Hurl.
  destruct (get_fs_token_paths_run (PStr url) mode num nf (Some kwargs0) None
              expand w) as (tail & Htail & ->); [done|].
  unfold url_to_fs in Hurl. cbn [default].
  destruct (quiet_un_chain (PStr url) kwargs0 w) as [[e|chain] Hq].
  { rewrite (bind_inl _ _ _ _ _ _ Hq) in Hurl. rewrite (bind_inl _ _ _ _ _ _ Hq).
    by injection Hurl as <- <- <-. }
  rewrite (bind_pure _ _ _ _ _ Hq) in Hurl. rewrite (bind_pure _ _ _ _ _ Hq).
  destruct (decide (1 < length chain)%nat) as [Hlen|Hlen].
  - pose proof (chain_kwargs_nested chain w) as Hck.
    destruct (nested_options chain) as [e|inkwargs].
    { rewrite (bind_inl _ _ _ _ _ _ Hck) in Hurl. injection Hurl as <- <- <-.
      apply (resolve_agrees _ tail (inl e) w w w (inl e) [] Htail); [|done].
      unfold resolve_chain. by rewrite (bind_inl _ _ _ _ _ _ Hck). }
    rewrite (bind_pure _ _ _ _ _ Hck) in Hurl.
    destruct chain as [|[[u p] kw] rest]; [simpl in Hlen; lia|].
    destruct (filesystem p inkwargs w) as [[[e|fs0] w2] ev2] eqn:Hfs.
    { rewrite (bind_inl _ _ _ _ _ _ Hfs) in Hurl. injection Hurl as <- <- <-.
      apply (resolve_agrees _ tail (inl e) w w2 w2 (inl e) ev2 Htail); [|done].
      unfold resolve_chain. rewrite (bind_pure _ _ _ _ _ Hck).
      by rewrite (bind_inl _ _ _ _ _ _ Hfs). }
    rewrite (bind_inr _ _ _ _ _ _ Hfs) in Hurl. unfold ret in Hurl.
    cbn [fst snd] in Hurl. rewrite app_nil_r in Hurl. injection Hurl as <- <- <-.
    destruct (quiet_strip_paths fs0 u w2) as [rs Hs].
    apply (resolve_agrees _ tail (inr (fs0, u)) w w2 w2
             (match rs with inr ps => inr (fs0, ps) | inl e => inl e end) ev2 Htail).
    + unfold resolve_chain. rewrite (bind_pure _ _ _ _ _ Hck).
      rewrite (bind_inr _ _ _ _ _ _ Hfs).
      destruct rs as [e|ps].
      * rewrite (bind_inl _ _ _ _ _ _ Hs). by rewrite app_nil_r.
      * rewrite (bind_pure _ _ _ _ _ Hs). unfold ret. cbn [fst snd].
        by rewrite app_nil_r.
    + intros fs1 ps. destruct rs; [done|]. by intros [= <- _].
  - unfold resolve_str. cbn beta iota zeta.
    destruct (get_filesystem_class (split_protocol url).1) as [e|c] eqn:Hc.
    { assert (lift (inl e : exn + cls) w = (inl e, w, [])) as Hl by done.
      rewrite (bind_inl _ _ _ _ _ _ Hl) in Hurl. injection Hurl as <- <- <-.
      apply (resolve_agrees _ tail (inl e) w w w (inl e) [] Htail); [|done].
      by rewrite (bind_inl _ _ _ _ _ _ Hl). }
    assert (lift (inr c : exn + cls) w = (inr c, w, [])) as Hl by done.
    rewrite (bind_pure _ _ _ _ _ Hl) in Hurl.
    destruct (update_storage_options (_get_kwargs_from_urls c url) (Some kwargs0))
      as [e|options] eqn:Ho.
    { assert (lift (inl e : exn + kwargs) w = (inl e, w, [])) as Hl' by done.
      rewrite (bind_inl _ _ _ _ _ _ Hl') in Hurl. injection Hurl as <- <- <-.
      apply (resolve_agrees _ tail (inl e) w w w (inl e) [] Htail); [|done].
      rewrite (bind_pure _ _ _ _ _ Hl). cbn beta. rewrite Ho.
      by rewrite (bind_inl _ _ _ _ _ _ Hl'). }
    assert (lift (inr options : exn + kwargs) w = (inr options, w, []))
      as Hl' by done.
    rewrite (bind_pure _ _ _ _ _ Hl') in Hurl.
    destruct (new c options w) as [[[e|fs0] w2] ev2] eqn:Hnew.
    { rewrite (bind_inl _ _ _ _ _ _ Hnew) in Hurl. injection Hurl as <- <- <-.
      apply (resolve_agrees _ tail (inl e) w w2 w2 (inl e) ev2 Htail); [|done].
      rewrite (bind_pure _ _ _ _ _ Hl). cbn beta. rewrite Ho.
      rewrite (bind_pure _ _ _ _ _ Hl'). cbn beta.
      by rewrite (bind_inl _ _ _ _ _ _ Hnew). }
    rewrite (bind_inr _ _ _ _ _ _ Hnew) in Hurl. unfold ret in Hurl.
    cbn [fst snd] in Hurl. rewrite app_nil_r in Hurl. injection Hurl as <- <- <-.
    apply (resolve_agrees _ tail
             (inr (fs0, One (Some (_strip_protocol (fs_class fs0) url)))) w w2 w2
             (inr (fs0, PStr (_strip_protocol c url))) ev2 Htail).
    + rewrite (bind_pure _ _ _ _ _ Hl). cbn beta. rewrite Ho.
      rewrite (bind_pure _ _ _ _ _ Hl'). cbn beta.
      rewrite (bind_inr _ _ _ _ _ _ Hnew). unfold ret. cbn [fst snd].
      by rewrite app_nil_r.
    + by intros fs1 ps [= <- _].
Qed.

Lemma new_run (c : cls) (options : kwargs) (w w1 : world) (fs0 : fs) :
  cls_new c options w = (inr fs0, w1) →
  new c options w = (inr fs0, w1, [EvNew c options]).
Proof. unfold new. run. by intros ->. Qed.

(** X18.  A plain URL (no [::]) whose stripped path has no [*], not
    expanded for writing: [get_fs_token_paths] instantiates the class of
    the protocol of the URL once and returns the single path that
    [strip_protocol] gives for the URL; the file system is not
    consulted. *)
Theorem plain_url_single_path (url mode : string) (num : Z)
    (nf : option (Z → string)) (storage_options : option kwargs) (expand : bool)
    (w w1 : world) (c : cls) (options : kwargs) (fs0 : fs) :
  Str.contains "::" url = false →
  get_filesystem_class (split_protocol url).1 = inr c →
  update_storage_options (_get_kwargs_from_urls c url) storage_options
    = inr options →
  cls_new c options w = (inr fs0, w1) →
  Str.contains "*" (_strip_protocol c url) = false →
  Str.contains "w" mode && expand = false →
  strip_protocol url = inr (_strip_protocol c url)
  ∧ get_fs_token_paths (PStr url) mode num nf storage_options None expand w
    = (inr (fs0, fs_token fs0, [_strip_protocol c url]), w1, [EvNew c options]).
Proof.
  intros Hplain Hc Ho Hnew Hstar Hmode. split.
  { unfold strip_protocol. by rewrite Hc. }
  unfold get_fs_token_paths.
  rewrite (bind_pure _ _ w w tt) by done. cbn beta.
  assert (_un_chain (PStr url) (default ∅ storage_options) w = (inr [], w, []))
    as Hchain.
  { cbn [_un_chain]. by rewrite (bind_pure _ _ _ _ _ (un_chain_str_plain _ _ _ Hplain)). }
  rewrite (bind_pure _ _ _ _ _ Hchain). cbn beta.
  rewrite decide_False by (simpl; lia).
  assert (resolve_str url storage_options None w
          = (inr (fs0, PStr (_strip_protocol c url)), w1, [EvNew c options])) as Hres.
  { unfold resolve_str. cbn beta iota zeta. rewrite Hc.
    rewrite (bind_pure _ _ w w c) by done. cbn beta. rewrite Ho.
    rewrite (bind_pure _ _ w w options) by done. cbn beta.
    by rewrite (bind_inr _ _ _ _ _ _ (new_run _ _ _ _ _ Hnew)). }
  rewrite (bind_inr _ _ _ _ _ _ Hres). cbn [fst snd].
  rewrite Hmode, Hstar. unfold bind, ret. done.
Qed.

Lemma resolve_list_run (l : list string) (storage_options : option kwargs)
    (protocol proto : option string) (w w1 : world)
    (c : cls) (o options : kwargs) (fs0 : fs) :
  l ≠ [] →
  match protocol with
  | Some p => proto = Some p
  | None => ∀ u, u ∈ l → (split_protocol u).1 = proto
  end →
  get_filesystem_class proto = inr c →
  (∀ u, u ∈ l → _get_kwargs_from_urls c u = o) →
  update_storage_options o storage_options = inr options →
  cls_new c options w = (inr fs0, w1) →
  resolve_list l storage_options protocol w
  = (inr (fs0, PList (_strip_protocol c <$> l)), w1, [EvNew c options]).
Proof.
  intros Hl Hproto Hc Hopts Ho Hnew. unfold resolve_list.
  rewrite (bind_pure _ _ _ _ _ (common_protocol_agreed l protocol proto w Hl Hproto)).
  cbn beta. rewrite Hc. rewrite (bind_pure _ _ w w c) by done. cbn beta.
  destruct l as [|u0 l0]; [done|]. rewrite fmap_cons.
  rewrite <-(fmap_cons (_get_kwargs_from_urls c)).
  assert (_get_kwargs_from_urls c u0 = o) as -> by (apply Hopts; left).
  rewrite forallb_equal_intro.
  2:{ intros y (u & -> & Hu)%list_elem_of_fmap_1. by apply Hopts. }
  rewrite Ho. rewrite (bind_pure _ _ w w options) by done. cbn beta.
  by rewrite (bind_inr _ _ _ _ _ _ (new_run _ _ _ _ _ Hnew)).
Qed.

(** The part of [get_fs_token_paths] before the paths are expanded, for a
    list of plain URLs. *)
Lemma plain_list_resolved (l : list string) (mode : string) (num : Z)
    (nf : option (Z → string)) (storage_options : option kwargs)
    (protocol proto : option string) (expand : bool) (w w1 : world)
    (c : cls) (o options : kwargs) (fs0 : fs) :
  l ≠ [] →
  Forall (λ u, Str.contains "::" u = false) l →
  match protocol with
  | Some p => proto = Some p
  | None => ∀ u, u ∈ l → (split_protocol u).1 = proto
  end →
  get_filesystem_class proto = inr c →
  (∀ u, u ∈ l → _get_kwargs_from_urls c u = o) →
  update_storage_options o storage_options = inr options →
  cls_new c options w = (inr fs0, w1) →
  get_fs_token_paths (PList l) mode num nf storage_options protocol expand w
  = let x :=
      (let* paths :=
         expand_paths_if_needed (_strip_protocol c <$> l) mode num fs0 nf in
       ret (fs0, fs_token fs0, paths)) w1 in
    (x.1.1, x.1.2, EvNew c options :: x.2).
Proof.
  intros Hl Hplain Hproto Hc Hopts Ho Hnew.
  unfold get_fs_token_paths.
  rewrite (bind_pure _ _ w w tt) by (by destruct l). cbn beta.
  rewrite (bind_pure _ _ _ _ _ (un_chain_list_plain _ _ _ Hplain)). cbn beta.
  rewrite decide_False by (simpl; lia).
  by rewrite (bind_inr _ _ _ _ _ _
                (resolve_list_run l storage_options protocol proto w w1 c o options
                   fs0 Hl Hproto Hc Hopts Ho Hnew)).
Qed.

(** X19.  A non-empty list of plain URLs whose stripped paths have no
    [*]: when the class of the protocol gives the same options for every
    URL, [get_fs_token_paths] instantiates it once and returns the stripped
    paths in the order of the list, in every mode.  With a protocol
    override the protocols of the URLs need not agree. *)
Theorem plain_list_paths (l : list string) (mode : string) (num : Z)
    (nf : option (Z → string)) (storage_options : option kwargs)
    (protocol proto : option string) (expand : bool) (w w1 : world)
    (c : cls) (o options : kwargs) (fs0 : fs) :
  l ≠ [] →
  Forall (λ u, Str.contains "::" u = false) l →
  match protocol with
  | Some p => proto = Some p
  | None => ∀ u, u ∈ l → (split_protocol u).1 = proto
  end →
  get_filesystem_class proto = inr c →
  (∀ u, u ∈ l → _get_kwargs_from_urls c u = o) →
  update_storage_options o storage_options = inr options →
  cls_new c options w = (inr fs0, w1) →
  Forall (λ u, Str.contains "*" (_strip_protocol c u) = false) l →
  get_fs_token_paths (PList l) mode num nf storage_options protocol expand w
  = (inr (fs0, fs_token fs0, _strip_protocol c <$> l), w1, [EvNew c options]).
Proof.
  intros Hl Hplain Hproto Hc Hopts Ho Hnew Hstar.
  rewrite (plain_list_resolved l mode num nf storage_options protocol proto expand
             w w1 c o options fs0) by done.
  assert (Forall (λ p, Str.contains "*" p = false) (_strip_protocol c <$> l))
    as Hstar' by (by apply Forall_fmap).
  by rewrite (bind_pure _ _ _ _ _ (expand_if_needed_plain _ mode num fs0 nf w1 Hstar')).
Qed.
End resolution_success.

(** ** The order of [sorted] *)

Lemma string_compare_trans (a b c : string) :
  String.compare a b ≠ Gt → String.compare b c ≠ Gt → String.compare a c ≠ Gt.
Proof.
  revert b c. induction a as [|x a IH]; intros [|y b] [|z c]; simpl; try done.
  unfold Ascii.compare.
  destruct (N.compare_spec (N_of_ascii x) (N_of_ascii y)) as [Hxy|Hxy|Hxy];
    destruct (N.compare_spec (N_of_ascii y) (N_of_ascii z)) as [Hyz|Hyz|Hyz];
    try done.
  - rewrite Hxy, Hyz, N.compare_refl. apply IH.
  - intros _ _. rewrite Hxy. by rewrite (proj2 (N.compare_lt_iff _ _) Hyz).
  - intros _ _. rewrite <-Hyz. by rewrite (proj2 (N.compare_lt_iff _ _) Hxy).
  - intros _ _.
    assert (N_of_ascii x < N_of_ascii z)%N as Hxz by lia.
    by rewrite (proj2 (N.compare_lt_iff _ _) Hxz).
Qed.

Lemma str_le_trans (a b c : string) : str_le a b → str_le b c → str_le a c.
Proof.
  unfold str_le, String.leb. intros Hab Hbc.
  pose proof (string_compare_trans a b c) as Ht.
  destruct (String.compare a b), (String.compare b c), (String.compare a c);
    try done; exfalso; by apply Ht.
Qed.

Lemma str_le_total (a b : string) : String.leb a b = false → str_le b a.
Proof.
  intros Hab. destruct (String.leb_total a b) as [H|H]; [congruence|done].
Qed.

Lemma insert_sorted_perm (x : string) (l : list string) :
  Str.insert_sorted x l ≡ₚ x :: l.
Proof.
  induction l as [|y l IH]; simpl; [done|].
  destruct (String.leb x y); [done|]. by rewrite IH, Permutation_swap.
Qed.

Lemma sorted_perm (l : list string) : Str.sorted l ≡ₚ l.
Proof.
  induction l as [|x l IH]; simpl; [done|].
  by rewrite insert_sorted_perm, IH.
Qed.

Lemma insert_sorted_sorted (x : string) (l : list string) :
  StronglySorted str_le l → StronglySorted str_le (Str.insert_sorted x l).
Proof.
  induction 1 as [|y l Hl IH Hy]; simpl.
  - repeat constructor.
  - destruct (String.leb x y) eqn:Hxy.
    + constructor; [by constructor|].
      constructor; [done|].
      eapply Forall_impl; [exact Hy|]. intros z Hz. by eapply str_le_trans.
    + constructor; [done|].
      rewrite insert_sorted_perm. constructor; [by apply str_le_total|done].
Qed.

Lemma sorted_sorted (l : list string) : StronglySorted str_le (Str.sorted l).
Proof.
  induction l as [|x l IH]; simpl; [constructor|by apply insert_sorted_sorted].
Qed.

Lemma sublist_sorted (l k : list string) :
  l `sublist_of` k → StronglySorted str_le k → StronglySorted str_le l.
Proof.
  induction 1 as [|x l k Hs IH|x l k Hs IH]; intros Hk.
  - constructor.
  - apply StronglySorted_inv in Hk as [Hk Hx]. constructor; [by apply IH|].
    apply Forall_forall. intros y Hy. rewrite Forall_forall in Hx.
    apply Hx. by eapply elem_of_sublist.
  - apply StronglySorted_inv in Hk as [Hk _]. by apply IH.
Qed.

Section glob.
Context `{Registry}.

Lemma drop_dirs_run (fs0 : fs) (l r : list string) (w w' : world) ev :
  drop_dirs fs0 l w = (inr r, w', ev) →
  r `sublist_of` l ∧ ev = EvIsdir fs0 <$> l.
Proof.
  revert r w w' ev. induction l as [|f l IH]; intros r w w' ev; simpl.
  - run. by intros [= <- <- <-].
  - unfold bind at 1. unfold isdir at 1. run.
    destruct (fs_isdir fs0 f w) as [[e|d] w1]; [discriminate|]. cbn beta iota.
    destruct (drop_dirs fs0 l w1) as [[[e|r1] w2] ev2] eqn:Hl; [discriminate|].
    intros [= <- <- <-]. apply IH in Hl as [Hs ->].
    split; [|by rewrite app_nil_r].
    destruct d; [by apply sublist_cons|by apply sublist_skip].
Qed.

(** X20.  A plain URL whose stripped path has a [*], not expanded for
    writing: when [get_fs_token_paths] returns, it has called [glob] once
    with the stripped path and [isdir] once for each match in sorted order;
    the paths returned are a sublist of the sorted matches, hence
    sorted. *)
Theorem glob_paths_sorted (url mode : string) (num : Z)
    (nf : option (Z → string)) (storage_options : option kwargs) (expand : bool)
    (w w1 w' : world) (c : cls) (options : kwargs) (fs0 fs1 : fs)
    (token : string) (paths : list string) ev :
  Str.contains "::" url = false →
  get_filesystem_class (split_protocol url).1 = inr c →
  update_storage_options (_get_kwargs_from_urls c url) storage_options
    = inr options →
  cls_new c options w = (inr fs0, w1) →
  Str.contains "*" (_strip_protocol c url) = true →
  Str.contains "w" mode && expand = false →
  get_fs_token_paths (PStr url) mode num nf storage_options None expand w
    = (inr (fs1, token, paths), w', ev) →
  ∃ g w2,
    fs_glob fs0 (_strip_protocol c url) w1 = (inr g, w2)
    ∧ fs1 = fs0
    ∧ paths `sublist_of` Str.sorted g
    ∧ Str.sorted g ≡ₚ g
    ∧ StronglySorted str_le paths
    ∧ ev = EvNew c options :: EvGlob fs0 (_strip_protocol c url)
             :: (EvIsdir fs0 <$> Str.sorted g).
Proof.
  intros Hplain Hc Ho Hnew Hstar Hmode.
  unfold get_fs_token_paths.
  rewrite (bind_pure _ _ w w tt) by done. cbn beta.
  assert (_un_chain (PStr url) (default ∅ storage_options) w = (inr [], w, []))
    as Hchain.
  { cbn [_un_chain]. by rewrite (bind_pure _ _ _ _ _ (un_chain_str_plain _ _ _ Hplain)). }
  rewrite (bind_pure _ _ _ _ _ Hchain). cbn beta.
  rewrite decide_False by (simpl; lia).
  assert (resolve_str url storage_options None w
          = (inr (fs0, PStr (_strip_protocol c url)), w1, [EvNew c options])) as Hres.
  { unfold resolve_str. cbn beta iota zeta. rewrite Hc.
    rewrite (bind_pure _ _ w w c) by done. cbn beta. rewrite Ho.
    rewrite (bind_pure _ _ w w options) by done. cbn beta.
    by rewrite (bind_inr _ _ _ _ _ _ (new_run _ _ _ _ _ Hnew)). }
  rewrite (bind_inr _ _ _ _ _ _ Hres). cbn [fst snd].
  rewrite Hmode, Hstar. cbn [andb].
  match goal with
  | |- context [(?X).1.1] => destruct X as [[rx wx] evx] eqn:HX
  end.
  cbn [fst snd app]. intros [= -> -> <-]. revert HX.
  unfold bind at 1. unfold bind at 1. unfold glob at 1. run.
  destruct (fs_glob fs0 (_strip_protocol c url) w1) as [[e|g] w2]; [discriminate|].
  cbn beta iota.
  destruct (drop_dirs fs0 (Str.sorted g) w2) as [[[e|r] w3] ev3] eqn:Hd;
    [discriminate|].
  intros [= <- <- <- <- <-]. apply drop_dirs_run in Hd as [Hs ->].
  exists g, w2. split_and!; [done|done|done|apply sorted_perm| |].
  - eapply sublist_sorted; [exact Hs|apply sorted_sorted].
  - by rewrite ?app_nil_r.
Qed.
End glob.

(** ** [OpenFiles] *)

Section enter_quiet.
Context `{Registry}.

Lemma enter_never_closes (self : OpenFile) (w : world) :
  closes (__enter__ (self, w)).2 = [] ∧ flushes (__enter__ (self, w)).2 = [].
Proof.
  rewrite enter_run. cbn zeta.
  destruct (fs_open _ _ _ w) as [[e|f0] w1]; [done|].
  destruct (of_compression self) as [c|].
  - destruct (compr !! c) as [compress|]; [|done].
    destruct (compress f0 _ w1) as [[e|f1] w2]; [done|].
    destruct (Str.contains "b" (of_mode self)); [done|].
    by destruct (TextIOWrapper f1 _ _ _ w2) as [[e|f2] w3].
  - destruct (Str.contains "b" (of_mode self)); [done|].
    by destruct (TextIOWrapper f0 _ _ _ w1) as [[e|f2] w3].
Qed.

Lemma enter_keeps_fields (self self' : OpenFile) (w w' : world) r ev :
  __enter__ (self, w) = (r, (self', w'), ev) →
  self' = with_fobjects self (of_fobjects self').
Proof.
  rewrite enter_run. cbn zeta.
  destruct (fs_open _ _ _ w) as [[e|f0] w1]; [intros [= _ <- _ _]; by destruct self|].
  destruct (of_compression self) as [c|].
  - destruct (compr !! c) as [compress|]; [|by intros [= _ <- _ _]].
    destruct (compress f0 _ w1) as [[e|f1] w2]; [by intros [= _ <- _ _]|].
    destruct (Str.contains "b" (of_mode self)); [by intros [= _ <- _ _]|].
    by destruct (TextIOWrapper f1 _ _ _ w2) as [[e|f2] w3]; intros [= _ <- _ _].
  - destruct (Str.contains "b" (of_mode self)); [by intros [= _ <- _ _]|].
    by destruct (TextIOWrapper f0 _ _ _ w1) as [[e|f2] w3]; intros [= _ <- _ _].
Qed.
End enter_quiet.

Section openfiles_props.
Context `{Batch}.

Lemma each_enter (items items' : list OpenFile) (w w' : world) r ev :
  each_item __enter__ items w = (r, (items', w'), ev) →
  closes ev = [] ∧ flushes ev = []
  ∧ Forall2 (λ s s', s' = with_fobjects s (of_fobjects s')) items items'
  ∧ match r with
    | inr files =>
        Forall2 (λ s' f, last (of_fobjects s') = Some f ∧ entered s') items' files
    | inl _ =>
        ∃ k, (k < length items)%nat
             ∧ Forall entered (take k items')
             ∧ drop (S k) items' = drop (S k) items
    end.
Proof.
  revert items' w w' r ev. induction items as [|s items IH];
    intros items' w w' r ev; simpl.
  { intros [= <- <- <- <-]. by split_and!. }
  pose proof (enter_never_closes s w) as [Hc Hf].
  destruct (__enter__ (s, w)) as [[[e|f] [s1 w1]] ev1] eqn:Hs; simpl in Hc, Hf.
  - intros [= <- <- <- <-]. split_and!; [done|done| |].
    + constructor; [by eapply enter_keeps_fields|].
      apply Forall_Forall2_diag, Forall_true. intros x. by destruct x.
    + exists 0%nat. split_and!; [simpl; lia|constructor|done].
  - destruct (each_item __enter__ items w1) as [[r2 [items2 w2]] ev2] eqn:Hrest.
    intros [= <- <- <- <-].
    destruct (IH _ _ _ _ _ Hrest) as (Hc2 & Hf2 & Hfields & Hr).
    rewrite closes_app, flushes_app, Hc, Hf, Hc2, Hf2.
    pose proof (enter_layers _ _ _ _ _ _ Hs) as (l & -> & Hlast & Hlen & _).
    split_and!; [done|done|by constructor|].
    destruct r2 as [e|files].
    + destruct Hr as (k & Hk & Hfront & Hback). exists (S k).
      split_and!; [simpl; lia| |done].
      simpl. by constructor.
    + by constructor.
Qed.

Lemma enter_items_run (self self' : OpenFiles) (fs0 : fs) (w w' : world)
    r ev :
  ofs_fs self = Some fs0 →
  batch_fs fs0 = None →
  OpenFiles_enter (self, w) = (r, (self', w'), ev) →
  closes ev = [] ∧ flushes ev = []
  ∧ self' = with_items self (ofs_items self')
  ∧ Forall2 (λ s s', s' = with_fobjects s (of_fobjects s'))
      (ofs_items self) (ofs_items self')
  ∧ match r with
    | inr files =>
        Forall2 (λ s' f, last (of_fobjects s') = Some f ∧ entered s')
          (ofs_items self') files
    | inl _ =>
        ∃ k, (k < length (ofs_items self))%nat
             ∧ Forall entered (take k (ofs_items self'))
             ∧ drop (S k) (ofs_items self') = drop (S k) (ofs_items self)
    end.
Proof.
  intros Hfs Hbatch. unfold OpenFiles_enter. cbn [fst snd]. rewrite Hfs, Hbatch.
  destruct (each_item __enter__ (ofs_items self) w) as [[r1 [items1 w1]] ev1] eqn:He.
  intros [= <- <- <- <-].
  destruct (each_enter _ _ _ _ _ _ He) as (Hc & Hf & Hfields & Hr).
  by split_and!.
Qed.

(** X7.  For a file system without [open_many], along its nesting,
    [OpenFiles.__enter__] enters the items one after the other and changes
    nothing but their layer lists.  When it returns, every item is entered
    and the streams returned are the top layers, item by item.  When the
    item at index [k] raises, the items before it stay entered and those
    after it are not touched; nothing is closed. *)
Theorem openfiles_enter_items (self self' : OpenFiles) (fs0 : fs) (w w' : world)
    r ev :
  ofs_fs self = Some fs0 →
  batch_fs fs0 = None →
  OpenFiles_enter (self, w) = (r, (self', w'), ev) →
  closes ev = [] ∧ flushes ev = []
  ∧ self' = with_items self (ofs_items self')
  ∧ Forall2 (λ s s', s' = with_fobjects s (of_fobjects s'))
      (ofs_items self) (ofs_items self')
  ∧ match r with
    | inr files =>
        Forall2 (λ s' f, last (of_fobjects s') = Some f ∧ entered s')
          (ofs_items self') files
    | inl _ =>
        ∃ k, (k < length (ofs_items self))%nat
             ∧ Forall entered (take k (ofs_items self'))
             ∧ drop (S k) (ofs_items self') = drop (S k) (ofs_items self)
    end.
Proof. apply enter_items_run. Qed.




Lemma exit_items_run (self : OpenFiles) (w : world) :
  Str.contains "r" (ofs_mode self) = true ∨ ofs_fs self ≫= batch_fs = None →
  OpenFiles_exit (self, w) =
  let '(r, (items, w'), ev) := each_item __exit__ (ofs_items self) w in
  (match r with inr _ => inr tt | inl e => inl e end,
   (with_items self items, w'), ev).
Proof.
  intros [Hr|Hn]; unfold OpenFiles_exit; cbn [fst snd].
  - by rewrite Hr.
  - rewrite Hn. by destruct (negb _).
Qed.





Lemma find_open_many_sound (n : nat) (f g : fs) om :
  find_open_many n f = Some (g, om) → wraps f g ∧ fs_open_many g = Some om.
Proof.
  revert f. induction n as [|n IH]; intros f; simpl.
  - destruct (fs_open_many f) as [om'|] eqn:Hf.
    + intros [= <- <-]. split; [constructor|done].
    + by destruct (fs_inner f).
  - destruct (fs_open_many f) as [om'|] eqn:Hf.
    + intros [= <- <-]. split; [constructor|done].
    + destruct (fs_inner f) as [h|] eqn:Hh; [|done].
      intros [Hw Hg]%IH. split; [by eapply wraps_step|done].
Qed.

Lemma find_open_many_complete (f g : fs) om :
  wraps f g → fs_open_many g = Some om →
  ∀ n, (fs_depth f ≤ n)%nat → find_open_many n f = Some (g, om).
Proof.
  induction 1 as [f|f h g Hf Hh Hw IH]; intros Hg n Hn.
  - destruct n; simpl; by rewrite Hg.
  - pose proof (fs_inner_depth f h Hh) as Hd.
    destruct n as [|n]; [lia|]. simpl. rewrite Hf, Hh. apply IH; [done|lia].
Qed.

(** X10.  The search of [__enter__] and [__exit__] for [open_many]
    finds the outermost file system that has the method: it is reached
    through file systems that lack it; and it finds none only when no file
    system reached that way has it.  The search ends for every file system:
    rounds beyond the nesting depth change nothing. *)
Theorem batch_fs_outermost (f : fs) :
  match batch_fs f with
  | Some (g, om) => wraps f g ∧ fs_open_many g = Some om
  | None => ∀ g, wraps f g → fs_open_many g = None
  end
  ∧ ∀ n, (fs_depth f ≤ n)%nat → find_open_many n f = batch_fs f.
Proof.
  assert (∀ n, (fs_depth f ≤ n)%nat → find_open_many n f = batch_fs f) as Hfuel.
  { intros n Hn. unfold batch_fs.
    destruct (find_open_many (fs_depth f) f) as [[g om]|] eqn:Hd.
    - apply find_open_many_sound in Hd as [Hw Hg].
      by apply find_open_many_complete.
    - destruct (find_open_many n f) as [[g om]|] eqn:Hn'; [|done].
      apply find_open_many_sound in Hn' as [Hw Hg].
      by rewrite (find_open_many_complete f g om Hw Hg (fs_depth f)) in Hd. }
  split; [|done].
  destruct (batch_fs f) as [[g om]|] eqn:Hb.
  - by apply find_open_many_sound in Hb.
  - intros g Hw. destruct (fs_open_many g) as [om|] eqn:Hg; [|done].
    unfold batch_fs in Hb.
    by rewrite (find_open_many_complete f g om Hw Hg (fs_depth f)) in Hb.
Qed.

Lemma each_exit_unopened (items : list OpenFile) (w : world) :
  Forall (λ s, of_fobjects s = []) items →
  each_item __exit__ items w = (inr ((λ _, tt) <$> items), (items, w), []).
Proof.
  induction 1 as [|s items Hs _ IH]; [done|]. simpl.
  unfold __exit__. rewrite close_run, Hs. simpl. fold __exit__.
  rewrite IH. destruct s. simpl in Hs. by subst.
Qed.

(** X9.  With a file system that has [open_many], possibly nested:
    [__enter__] calls it once on the items, stores the result in [files],
    and enters no item.  [__exit__] in a mode without [r] exits no item: it
    calls [commit_many] of the same file system on [files], and its result
    and world are those of that call; [files] is emptied when the call
    returns and kept when it raises, and a file system without
    [commit_many] gives an [AttributeError] with nothing changed.  In a
    read mode, with items that were never entered, [__exit__] changes
    nothing: the streams that [open_many] returned are not closed by the
    block. *)
Theorem openfiles_batch (self : OpenFiles) (fs0 g : fs) om (w : world) :
  ofs_fs self = Some fs0 →
  batch_fs fs0 = Some (g, om) →
  (∀ r self' w' ev,
     OpenFiles_enter (self, w) = (r, (self', w'), ev) →
     ev = [] ∧ ofs_items self' = ofs_items self
     ∧ om (ofs_items self) w = (r, w')
     ∧ ∀ files, r = inr files → ofs_files self' = files)
  ∧ (Str.contains "r" (ofs_mode self) = false →
     ∀ r self' w' ev,
       OpenFiles_exit (self, w) = (r, (self', w'), ev) →
       ev = [] ∧ ofs_items self' = ofs_items self
       ∧ (r = inr tt → ofs_files self' = [])
       ∧ match fs_commit_many g with
         | Some commit_many =>
             commit_many (ofs_files self) w = (r, w')
             ∧ self' = match r with
                       | inr _ => with_files self []
                       | inl _ => self
                       end
         | None =>
             r = inl (AttributeError "object has no attribute 'commit_many'")
             ∧ self' = self ∧ w' = w
         end)
  ∧ (Str.contains "r" (ofs_mode self) = true →
     Forall (λ s, of_fobjects s = []) (ofs_items self) →
     OpenFiles_exit (self, w) = (inr tt, (self, w), [])).
Proof.
  intros Hfs Hbatch. split_and!.
  - intros r self' w' ev. unfold OpenFiles_enter. cbn [fst snd].
    rewrite Hfs, Hbatch.
    destruct (om (ofs_items self) w) as [[e|files] w1]; intros [= <- <- <- <-].
    + by split_and!.
    + split_and!; [done|done|done|]. by intros files' [= <-].
  - intros Hr r self' w' ev. unfold OpenFiles_exit. cbn [fst snd].
    rewrite Hr, Hfs. cbn [negb mbind option_bind]. rewrite Hbatch.
    destruct (fs_commit_many g) as [cm|].
    + destruct (cm (ofs_files self) w) as [[e|[]] w1]; intros [= <- <- <- <-];
        by split_and!.
    + intros [= <- <- <- <-]. by split_and!.
  - intros Hr Hitems. rewrite exit_items_run by (by left).
    rewrite each_exit_unopened by done. by destruct self.
Qed.
End openfiles_props.

(** ** [open_files] *)

Section open_files_props.
Context `{Batch}.

Lemma makedirs_no_events (fs0 : fs) (parents : list string) (w : world) :
  (for_each parents (λ parent, call (fs_makedirs fs0 parent)) w).2 = [].
Proof.
  revert w. induction parents as [|p parents IH]; intros w; simpl; [done|].
  unfold bind, call at 1. destruct (fs_makedirs fs0 p w) as [[e|[]] w1]; [done|].
  specialize (IH w1). by destruct (for_each parents _ w1) as [[? ?] ?].
Qed.

Lemma init_items_run (fs0 : fs) (mode : string)
    (compression encoding errors newline : option string)
    (paths : list string) (w : world) :
  ∃ r,
    map_each paths (λ path,
      lift (__init__ fs0 path mode compression encoding errors newline)) w
    = (r, w, [])
    ∧ ∀ items, r = inr items →
        of_path <$> items = paths
        ∧ Forall (fresh_item fs0 mode compression encoding errors newline) items.
Proof.
  induction paths as [|p paths IH]; simpl.
  { eexists. split; [done|]. by intros items [= <-]. }
  destruct IH as (r & Hrun & Hr). unfold bind, lift at 1. unfold __init__ at 1.
  destruct (get_compression p compression) as [e|c] eqn:Hc.
  { eexists. split; [done|]. by intros items [=]. }
  rewrite Hrun. destruct r as [e|items]; run.
  { eexists. split; [done|]. by intros items [=]. }
  eexists. split; [done|]. intros items' [= <-].
  destruct (Hr items eq_refl) as [Hpaths Hitems].
  split; [by rewrite fmap_cons, Hpaths|].
  constructor; [|done]. by split_and!.
Qed.

Lemma open_files_run (urlpath : pathspec) (mode : string)
    (compression encoding errors : option string)
    (nf : option (Z → string)) (num : Z) (protocol newline : option string)
    (auto_mkdir expand : bool) (kwargs0 : kwargs) (w w' : world)
    (ofs : OpenFiles) ev :
  open_files urlpath mode compression encoding errors nf num protocol newline
    auto_mkdir expand kwargs0 w = (inr ofs, w', ev) →
  ∃ fs0 token paths w1,
    get_fs_token_paths urlpath mode num nf (Some kwargs0) protocol expand w
    = (inr (fs0, token, paths), w1, ev)
    ∧ ofs_fs ofs = Some fs0 ∧ ofs_mode ofs = mode ∧ ofs_files ofs = []
    ∧ of_path <$> ofs_items ofs = paths
    ∧ Forall (fresh_item fs0 mode compression encoding errors newline)
        (ofs_items ofs)
    ∧ (negb (Str.contains "r" mode) && auto_mkdir = false → w' = w1).
Proof.
  unfold open_files. unfold bind at 1.
  destruct (get_fs_token_paths _ _ _ _ _ _ _ w) as [[[e|[[fs0 token] paths]] w1] ev1];
    [discriminate|].
  cbn [fst snd]. unfold bind at 1.
  match goal with
  | |- context [(if ?b then ?m else ret tt) w1] =>
      assert (((if b then m else ret tt) w1).2 = []
              ∧ (b = false → (if b then m else ret tt) w1 = (inr tt, w1, [])))
        as [Hev Hskip];
      [destruct b; [split; [apply makedirs_no_events|done]|by split]|];
      destruct ((if b then m else ret tt) w1) as [[[e|[]] w2] ev2] eqn:Hmk;
      [discriminate|]
  end.
  simpl in Hev. subst ev2.
  destruct (init_items_run fs0 mode compression encoding errors newline paths w2)
    as (r & Hrun & Hr).
  unfold bind at 1. rewrite Hrun. destruct r as [e|items]; [discriminate|].
  run. intros [= <- <- <-]. rewrite !app_nil_r.
  destruct (Hr items eq_refl) as [Hpaths Hitems].
  exists fs0, token, paths, w1. split_and!; try done.
  intros Hb. specialize (Hskip Hb). by injection Hskip as ->.
Qed.

(** X11.  When [open_files] returns, [get_fs_token_paths] has returned
    a file system and paths on the same arguments, with the same events:
    the result has that file system and the mode, no [files], and one
    unopened item per path, in order, with the arguments of the call and
    the compression resolved for its path.  Unless the mode lacks [r] and
    [auto_mkdir] is set, the world is as [get_fs_token_paths] left it. *)
Theorem open_files_items (urlpath : pathspec) (mode : string)
    (compression encoding errors : option string)
    (nf : option (Z → string)) (num : Z) (protocol newline : option string)
    (auto_mkdir expand : bool) (kwargs0 : kwargs) (w w' : world)
    (ofs : OpenFiles) ev :
  open_files urlpath mode compression encoding errors nf num protocol newline
    auto_mkdir expand kwargs0 w = (inr ofs, w', ev) →
  ∃ fs0 token paths w1,
    get_fs_token_paths urlpath mode num nf (Some kwargs0) protocol expand w
    = (inr (fs0, token, paths), w1, ev)
    ∧ ofs_fs ofs = Some fs0 ∧ ofs_mode ofs = mode ∧ ofs_files ofs = []
    ∧ of_path <$> ofs_items ofs = paths
    ∧ Forall (fresh_item fs0 mode compression encoding errors newline)
        (ofs_items ofs)
    ∧ (negb (Str.contains "r" mode) && auto_mkdir = false → w' = w1).
Proof. apply open_files_run. Qed.

(** X12.  A compression that is not in the codec table is noticed
    late, or not at all: for a call that makes no directories, [open_files]
    raises the [ValueError] only after [get_fs_token_paths] has returned,
    with its events and its world, and only when there is at least one
    path; with no path it returns an empty list of files. *)
Theorem open_files_unknown_codec (urlpath : pathspec) (mode c : string)
    (encoding errors : option string)
    (nf : option (Z → string)) (num : Z) (protocol newline : option string)
    (auto_mkdir expand : bool) (kwargs0 : kwargs) (w w1 : world)
    (fs0 : fs) (token : string) (paths : list string) ev :
  c ≠ "infer" → c ∉ dom compr →
  negb (Str.contains "r" mode) && auto_mkdir = false →
  get_fs_token_paths urlpath mode num nf (Some kwargs0) protocol expand w
    = (inr (fs0, token, paths), w1, ev) →
  open_files urlpath mode (Some c) encoding errors nf num protocol newline
    auto_mkdir expand kwargs0 w
  = match paths with
    | [] => (inr (OpenFiles_init [] mode (Some fs0)), w1, ev)
    | _ :: _ =>
        (inl (ValueError ("Compression type " +:+ c +:+ " not supported")), w1, ev)
    end.
Proof.
  intros Hinfer Hc Hmk Hres. unfold open_files.
  destruct paths as [|p paths];
    apply (bind_inr_quiet _ _ _ _ _ _ _ _ Hres); cbn [fst snd]; rewrite Hmk;
    rewrite (bind_pure _ _ w1 w1 tt) by done; cbn beta.
  - done.
  - cbn [map_each]. unfold bind at 1. unfold bind at 1. unfold lift at 1.
    unfold __init__ at 1, get_compression.
    rewrite decide_False by congruence. by rewrite decide_False by done.
Qed.
End open_files_props.

(** ** [open] *)

Section open_props.
Context `{Batch}.

Lemma set_order_singleton (x : string) : set_order [x] = [x].
Proof. apply Permutation_singleton_r. by rewrite set_order_perm. Qed.

Lemma init_items_uncompressed (fs0 : fs) (mode : string)
    (encoding errors newline : option string) (paths : list string) (w : world) :
  map_each paths (λ path, lift (__init__ fs0 path mode None encoding errors newline)) w
  = (inr ((λ path, mkOpenFile _ fs0 path mode None encoding errors newline [])
            <$> paths), w, []).
Proof.
  induction paths as [|p paths IH]; [done|]. simpl.
  unfold bind, lift at 1. unfold __init__ at 1, get_compression.
  rewrite decide_False by done. by rewrite IH.
Qed.

(** X13.  [open] on a plain URL whose path has no [*]: when the class
    of the protocol (the override, or else that of the URL) is known and
    can be instantiated and the compression resolves, the result is the
    unopened wrapper for the stripped path; in a mode without [r] the
    parent directory of the path has been made before. *)
Theorem open_plain_url (url mode : string)
    (compression encoding errors protocol proto newline : option string)
    (kwargs0 : kwargs) (w w1 w2 : world) (c : cls) (options : kwargs) (fs0 : fs)
    (comp : option string) :
  let path := _strip_protocol c url in
  Str.contains "::" url = false →
  match protocol with
  | Some p => proto = Some p
  | None => (split_protocol url).1 = proto
  end →
  get_filesystem_class proto = inr c →
  update_storage_options (_get_kwargs_from_urls c url) (Some kwargs0) = inr options →
  cls_new c options w = (inr fs0, w1) →
  Str.contains "*" path = false →
  (if Str.contains "r" mode then w2 = w1
   else fs_makedirs fs0 (fs_parent fs0 path) w1 = (inr tt, w2)) →
  get_compression path compression = inr comp →
  open url mode compression encoding errors protocol newline kwargs0 w
  = (inr (mkOpenFile _ fs0 path mode comp encoding errors newline []), w2,
     [EvNew c options]).
Proof.
  intros path Hplain Hproto Hc Ho Hnew Hstar Hmk Hcomp.
  assert (get_fs_token_paths (PList [url]) mode 1 None (Some kwargs0) protocol
            false w
          = (inr (fs0, fs_token fs0, [path]), w1, [EvNew c options])) as Hres.
  { rewrite (plain_list_resolved [url] mode 1 None (Some kwargs0) protocol proto
               false w w1 c (_get_kwargs_from_urls c url) options fs0);
      [|done|by repeat constructor| |done| |done|done].
    - assert (Forall (λ p, Str.contains "*" p = false) (_strip_protocol c <$> [url]))
        as Hstar' by (by repeat constructor).
      by rewrite (bind_pure _ _ _ _ _
                    (expand_if_needed_plain _ mode 1 fs0 None w1 Hstar')).
    - destruct protocol; [done|]. by intros u ->%list_elem_of_singleton.
    - by intros u ->%list_elem_of_singleton. }
  assert (open_files (PList [url]) mode compression encoding errors None 1
            protocol newline true false kwargs0 w
          = (inr (OpenFiles_init
                    [mkOpenFile _ fs0 path mode comp encoding errors newline []]
                    mode (Some fs0)), w2, [EvNew c options])) as Hof.
  { unfold open_files. apply (bind_inr_quiet _ _ _ _ _ _ _ _ Hres). cbn [fst snd].
    rewrite (bind_pure _ _ w1 w2 tt).
    - cbn beta. cbn [map_each]. unfold bind, lift, ret. unfold __init__.
      fold path. by rewrite Hcomp.
    - rewrite andb_true_r. destruct (Str.contains "r" mode); cbn [negb].
      + by subst w2.
      + cbn [fmap list_fmap]. fold path. rewrite set_order_singleton.
        simpl. unfold bind, call, ret. by rewrite Hmk. }
  unfold open. by apply (bind_inr_quiet _ _ _ _ _ _ _ _ Hof).
Qed.

(** X14.  [open] on a plain URL whose path has a [*], in a read mode
    and without compression: the wrapper is for the first path that [glob]
    returns, in the order of the file system, not sorted and directories
    included; when nothing matches, an [IndexError] is raised. *)
Theorem open_first_match (url mode : string)
    (encoding errors protocol proto newline : option string)
    (kwargs0 : kwargs) (w w1 w2 : world) (c : cls) (options : kwargs) (fs0 : fs)
    (g : list string) :
  let pattern := _strip_protocol c url in
  let ev := [EvNew c options; EvGlob fs0 pattern] in
  Str.contains "::" url = false →
  match protocol with
  | Some p => proto = Some p
  | None => (split_protocol url).1 = proto
  end →
  get_filesystem_class proto = inr c →
  update_storage_options (_get_kwargs_from_urls c url) (Some kwargs0) = inr options →
  cls_new c options w = (inr fs0, w1) →
  Str.contains "*" pattern = true →
  Str.contains "w" mode = false →
  Str.contains "r" mode = true →
  fs_glob fs0 pattern w1 = (inr g, w2) →
  open url mode None encoding errors protocol newline kwargs0 w
  = match g with
    | [] => (inl (IndexError "list index out of range"), w2, ev)
    | first :: _ =>
        (inr (mkOpenFile _ fs0 first mode None encoding errors newline []), w2, ev)
    end.
Proof.
  intros pattern ev Hplain Hproto Hc Ho Hnew Hstar Hw Hr Hglob.
  assert (get_fs_token_paths (PList [url]) mode 1 None (Some kwargs0) protocol
            false w
          = (inr (fs0, fs_token fs0, g), w2, ev)) as Hres.
  { rewrite (plain_list_resolved [url] mode 1 None (Some kwargs0) protocol proto
               false w w1 c (_get_kwargs_from_urls c url) options fs0);
      [|done|by repeat constructor| |done| |done|done].
    - unfold expand_paths_if_needed. rewrite Hw. cbn [andb fmap list_fmap].
      cbn [expand_paths_loop]. fold pattern. rewrite Hstar, Hw.
      unfold glob. run. rewrite Hglob. cbn. by rewrite ?app_nil_r.
    - destruct protocol; [done|]. by intros u ->%list_elem_of_singleton.
    - by intros u ->%list_elem_of_singleton. }
  assert (open_files (PList [url]) mode None encoding errors None 1
            protocol newline true false kwargs0 w
          = (inr (OpenFiles_init
                    ((λ path, mkOpenFile _ fs0 path mode None encoding errors newline [])
                       <$> g)
                    mode (Some fs0)), w2, ev)) as Hof.
  { unfold open_files. apply (bind_inr_quiet _ _ _ _ _ _ _ _ Hres). cbn [fst snd].
    rewrite Hr. cbn [negb andb].
    rewrite (bind_pure _ _ w2 w2 tt) by done. cbn beta.
    by rewrite (bind_pure _ _ _ _ _ (init_items_uncompressed _ _ _ _ _ _ _)). }
  unfold open. destruct g as [|first g];
    by apply (bind_inr_quiet _ _ _ _ _ _ _ _ Hof).
Qed.
End open_props.

(** ** [open_local] *)

Section open_local_props.
Context `{Batch}.


(** X15.  [open_local] refuses a mode without [r] before anything
    happens.  In a read mode, when the first file is on a file system whose
    [local_file] is not set, it raises a [ValueError] right after
    [open_files], so without opening any file. *)
Theorem open_local_refuses (url : pathspec) (mode : string)
    (compression encoding errors : option string)
    (nf : option (Z → string)) (num : Z) (protocol newline : option string)
    (auto_mkdir expand : bool) (kwargs0 : kwargs) (w : world) :
  (Str.contains "r" mode = false →
   open_local url mode compression encoding errors nf num protocol newline
     auto_mkdir expand kwargs0 w
   = (inl (ValueError "Can only ensure local files when reading"), w, []))
  ∧ (∀ ofs first rest w1 ev,
       Str.contains "r" mode = true →
       open_files url mode compression encoding errors nf num protocol newline
         auto_mkdir expand kwargs0 w = (inr ofs, w1, ev) →
       ofs_items ofs = first :: rest →
       fs_local_file (of_fs first) = false →
       open_local url mode compression encoding errors nf num protocol newline
         auto_mkdir expand kwargs0 w
       = (inl (ValueError
            "open_local can only be used on a filesystem which has attribute local_file=True"),
          w1, ev)).
Proof.
  split.
  - intros Hr. unfold open_local. by rewrite Hr.
  - intros ofs first rest w1 ev Hr Hof Hitems Hlocal. unfold open_local.
    rewrite Hr. cbn [negb]. apply (bind_inr_quiet _ _ _ _ _ _ _ _ Hof).
    by rewrite Hitems, Hlocal.
Qed.

End open_local_props.

(** ** The further properties on the backend with files *)

Section lifecycle_examples.
#[local] Existing Instance Disk.backend.
#[local] Existing Instance Disk.registry.


(** The codec [lzma] cannot be set up: the raw stream stays open. *)
Lemma enter_failure_leaves_open_witness :
  let self := mkOpenFile _ Disk.local_fs "x.txt.xz" "rt" (Some "lzma")
                None None None [] in
  let self' := with_fobjects self [0%nat] in
  let ev := [EvOpen Disk.local_fs "x.txt.xz" "rb"; EvCompress "lzma" 0%nat "r"] in
  self' = with_fobjects self (of_fobjects self')
  ∧ head (of_fobjects self') = Some 0%nat
  ∧ (length (of_fobjects self') < layer_count self)%nat
  ∧ closes ev = [].
Proof.
  intros self self' ev.
  apply (@enter_failure_leaves_open Disk.backend Disk.registry
           self self' Disk.start [false] [false] 0%nat
           (OSError "codec not available") ev); reflexivity.
Defined.

(** File object 7 cannot be closed: the layers stay tracked. *)
Lemma close_failure_keeps_layers_witness :
  let self := mkOpenFile _ Disk.local_fs "x.txt" "rb" None None None None
                [3; 7; 5]%nat in
  let run := close (self, Disk.start) in
  run.1.1 = inl (OSError "close failed")
  ∧ run.1.2.1 = self
  ∧ closes run.2 `prefix_of` reverse (of_fobjects self).
Proof.
  intros self run. split; [reflexivity|].
  apply (@close_failure_keeps_layers Disk.backend Disk.registry
           self run.1.2.1 Disk.start run.1.2.2 (OSError "close failed") run.2).
  reflexivity.
Defined.


End lifecycle_examples.

Section resolution_more_examples.
#[local] Existing Instance Disk.backend.
#[local] Existing Instance Disk.registry.

Lemma expand_paths_plain_list_witness :
  expand_paths_if_needed ["a.csv"; "b.csv"; "c.csv"] "wb" 1 Disk.local_fs None
    Disk.start
  = (inr ["a.csv"; "b.csv"; "c.csv"], Disk.start, []).
Proof.
  apply (@expand_paths_plain_list Disk.backend Disk.registry
           ["a.csv"; "b.csv"; "c.csv"] "wb" 1 Disk.local_fs None Disk.start).
  repeat constructor.
Defined.

(** The matches of a pattern take its place, in the order of the file
    system and with the directory among them. *)
Lemma expand_paths_read_list_witness :
  expand_paths_if_needed ["z.csv"; "data/*"; "a.csv"] "rb" 1 Disk.local_fs None
    Disk.start
  = (inr ["z.csv"; "data/b.csv"; "data/a.csv"; "data/old"; "a.csv"], Disk.start,
     [EvGlob Disk.local_fs "data/*"]).
Proof.
  etrans.
  - apply (@expand_paths_read_list Disk.backend Disk.registry
             ["z.csv"; "data/*"; "a.csv"] "rb" 1 Disk.local_fs None Disk.start).
    reflexivity.
  - reflexivity.
Defined.

Lemma expand_paths_one_star_witness :
  ∃ pre post result ev,
    "out/part-*.csv" = pre +:+ "*" +:+ post
    ∧ _expand_paths (AStr "out/part-*.csv") (Some (λ i, pretty i)) 3 Disk.start
      = (inr result, Disk.start, ev)
    ∧ Forall is_warning ev
    ∧ result = (λ i, pre +:+ pretty i +:+ post) <$> range 3
    ∧ length result = Z.to_nat 3
    ∧ ((∀ i j : Z, pretty i = pretty j → i = j) → NoDup result).
Proof.
  apply (@expand_paths_one_star Disk.backend Disk.registry
           "out/part-*.csv" (λ i, pretty i) 3 Disk.start).
  reflexivity.
Defined.

Lemma un_chain_one_entry_per_segment_witness :
  let run := _un_chain_str "simplecache::ftp://host/data/a.csv" ∅ Disk.start in
  ∃ out, run.1.1 = inr out
         ∧ (λ e, e.1.2) <$> out = ["simplecache"; "ftp"]
         ∧ (2 ≤ length out)%nat.
Proof.
  intros run.
  destruct run.1.1 as [e|out] eqn:Hout; [discriminate Hout|].
  exists out. split; [reflexivity|].
  destruct (@un_chain_one_entry_per_segment Disk.backend Disk.registry
              "simplecache::ftp://host/data/a.csv" ∅
              Disk.start run.1.2 out run.2) as (_ & _ & Hent).
  - rewrite <-Hout. reflexivity.
  - exact Hent.
Defined.

Lemma chain_options_nested_witness :
  let chain := [(One (Some "/a"), "simplecache", ∅);
                (One (Some "/a"), "ftp", {[ "host" := VStr "h" ]})] in
  ∃ ev, (resolve_chain chain Disk.start).2
        = EvNew Mem.SimpleCache
            (target (One (Some "/a")) "ftp" {[ "host" := VStr "h" ]}) :: ev.
Proof.
  intros chain.
  apply (proj2 (proj2 (@chain_options_nested Disk.backend Disk.registry
                         chain Disk.start))
           (One (Some "/a")) "simplecache" ∅
           [(One (Some "/a"), "ftp", {[ "host" := VStr "h" ]})]);
    reflexivity.
Defined.

Lemma chain_rejects_target_options_witness :
  resolve_chain
    [(One (Some "/a"), "simplecache", {[ "target_protocol" := VStr "s3" ]});
     (One (Some "/a"), "ftp", ∅)] Disk.start
  = (inl (TypeError "dict() got multiple values for keyword argument"),
     Disk.start, []).
Proof.
  apply (@chain_rejects_target_options Disk.backend Disk.registry
           (One (Some "/a")) (One (Some "/a"))
           "simplecache" "ftp" {[ "target_protocol" := VStr "s3" ]} ∅ []
           Disk.start "target_protocol").
  - apply elem_of_union_l, elem_of_union_r. by apply elem_of_singleton.
  - apply elem_of_dom. by eexists.
Defined.

Lemma chain_ignores_protocol_argument_witness :
  get_fs_token_paths (PStr "simplecache::ftp://host/a") "rb" 1 None None
    (Some "file") true Disk.start
  = get_fs_token_paths (PStr "simplecache::ftp://host/a") "rb" 1 None None
      None true Disk.start.
Proof.
  apply (@chain_ignores_protocol_argument Disk.backend Disk.registry
           "simplecache::ftp://host/a" "rb" 1 None None (Some "file") true
           Disk.start).
  reflexivity.
Defined.

Lemma url_to_fs_agrees_witness :
  ∃ r' w2 ev',
    get_fs_token_paths (PStr "file://data/a.csv") "rb" 1 None (Some ∅) None
      true Disk.start
    = (r', w2, [EvNew Mem.File ∅] ++ ev')
    ∧ ∀ fs1 token paths,
        r' = inr (fs1, token, paths) →
        fs1 = Disk.local_fs ∧ token = fs_token Disk.local_fs.
Proof.
  apply (@url_to_fs_agrees Disk.backend Disk.registry
           "file://data/a.csv" "rb" 1 None ∅ true Disk.start Disk.start
           (inr (Disk.local_fs, One (Some "data/a.csv")))
           [@EvNew Disk.backend Disk.registry Mem.File ∅]).
  reflexivity.
Defined.

Lemma plain_url_single_path_witness :
  strip_protocol "ftp://host/data/a.csv" = inr "/data/a.csv"
  ∧ get_fs_token_paths (PStr "ftp://host/data/a.csv") "rb" 1 None None None true
      Disk.start
    = (inr (Disk.Plain Mem.Ftp {[ "host" := VStr "host" ]}, "token",
            ["/data/a.csv"]), Disk.start,
       [EvNew Mem.Ftp {[ "host" := VStr "host" ]}]).
Proof.
  apply (@plain_url_single_path Disk.backend Disk.registry
           "ftp://host/data/a.csv" "rb" 1 None None true
           Disk.start Disk.start Mem.Ftp {[ "host" := VStr "host" ]}
           (Disk.Plain Mem.Ftp {[ "host" := VStr "host" ]}));
    reflexivity.
Defined.

(** With a protocol override the URLs of a list may differ in their
    protocols. *)
Lemma plain_list_paths_witness :
  get_fs_token_paths (PList ["ftp://h/a"; "file://b"]) "rb" 1 None None
    (Some "file") true Disk.start
  = (inr (Disk.local_fs, "token", ["h/a"; "b"]), Disk.start, [EvNew Mem.File ∅]).
Proof.
  apply (@plain_list_paths Disk.backend Disk.registry
           ["ftp://h/a"; "file://b"] "rb" 1 None None
           (Some "file") (Some "file") true Disk.start Disk.start
           Mem.File ∅ ∅ Disk.local_fs).
  - discriminate.
  - repeat constructor.
  - reflexivity.
  - reflexivity.
  - intros u _. reflexivity.
  - reflexivity.
  - reflexivity.
  - repeat constructor.
Defined.

(** The directory [data]: the two files in sorted order, the
    subdirectory left out. *)
Lemma glob_paths_sorted_witness :
  ∃ g w2,
    fs_glob Disk.local_fs "data/*" Disk.start = (inr g, w2)
    ∧ Disk.local_fs = Disk.local_fs
    ∧ ["data/a.csv"; "data/b.csv"] `sublist_of` Str.sorted g
    ∧ Str.sorted g ≡ₚ g
    ∧ StronglySorted str_le ["data/a.csv"; "data/b.csv"]
    ∧ (get_fs_token_paths (PStr "data/*") "rb" 1 None None None true
         Disk.start).2
      = EvNew Mem.File ∅ :: EvGlob Disk.local_fs "data/*"
          :: (EvIsdir Disk.local_fs <$> Str.sorted g).
Proof.
  apply (@glob_paths_sorted Disk.backend Disk.registry
           "data/*" "rb" 1 None None true
           Disk.start Disk.start Disk.start Mem.File ∅
           Disk.local_fs Disk.local_fs "token");
    reflexivity.
Defined.
End resolution_more_examples.

Section openfiles_examples.
#[local] Existing Instance Disk.backend.
#[local] Existing Instance Disk.registry.
#[local] Existing Instance Disk.batch.

(** Three files of which the second cannot be opened: the first stays
    open, the third is not reached. *)
Lemma openfiles_enter_items_witness :
  let item path := mkOpenFile _ Disk.local_fs path "rb" None None None None [] in
  let self := OpenFiles_init [item "a"; item "missing"; item "c"] "rb"
                (Some Disk.local_fs) in
  let run := OpenFiles_enter (self, Disk.start) in
  run.1.1 = inl (OSError "No such file or directory")
  ∧ closes run.2 = [] ∧ flushes run.2 = []
  ∧ run.1.2.1 = with_items self (ofs_items run.1.2.1)
  ∧ Forall2 (λ s s', s' = with_fobjects s (of_fobjects s'))
      (ofs_items self) (ofs_items run.1.2.1)
  ∧ ∃ k, (k < length (ofs_items self))%nat
         ∧ Forall entered (take k (ofs_items run.1.2.1))
         ∧ drop (S k) (ofs_items run.1.2.1) = drop (S k) (ofs_items self).
Proof.
  intros item self run. split; [reflexivity|].
  apply (@openfiles_enter_items Disk.backend Disk.registry Disk.batch
           self run.1.2.1 Disk.local_fs Disk.start run.1.2.2
           (inl (OSError "No such file or directory")) run.2);
    reflexivity.
Defined.


(** A cache inside a directory view.  Entering calls [open_many] of the
    cache; leaving a read-mode block closes none of the files that the
    cache opened; leaving a write-mode block commits them, which here
    closes them, and empties [files]. *)
Lemma openfiles_batch_witness :
  let cached := Disk.Dir (Disk.Cache Disk.local_fs) in
  let item mode path := mkOpenFile _ cached path mode None None None None [] in
  let reading := OpenFiles_init [item "rb" "a"; item "rb" "b"] "rb" (Some cached) in
  let writing :=
    with_files (OpenFiles_init [item "wb" "a"; item "wb" "b"] "wb" (Some cached))
      [0; 1]%nat in
  let run_enter := OpenFiles_enter (reading, Disk.start) in
  let run_exit := OpenFiles_exit (writing, [false; false]) in
  (run_enter.1.1 = inr [0; 1]%nat
   ∧ run_enter.2 = [] ∧ ofs_items run_enter.1.2.1 = ofs_items reading
   ∧ Disk.open_many (ofs_items reading) Disk.start
     = (run_enter.1.1, run_enter.1.2.2)
   ∧ ∀ files, run_enter.1.1 = inr files → ofs_files run_enter.1.2.1 = files)
  ∧ OpenFiles_exit (reading, [false; false])
    = (inr tt, (reading, [false; false]), [])
  ∧ run_exit.1.2.2 = [true; true]
  ∧ run_exit.2 = [] ∧ ofs_items run_exit.1.2.1 = ofs_items writing
  ∧ (run_exit.1.1 = inr tt → ofs_files run_exit.1.2.1 = [])
  ∧ Disk.commit_many (ofs_files writing) [false; false]
    = (run_exit.1.1, run_exit.1.2.2)
  ∧ run_exit.1.2.1 = match run_exit.1.1 with
                     | inr _ => with_files writing []
                     | inl _ => writing
                     end.
Proof.
  intros cached item reading writing run_enter run_exit.
  pose proof (@openfiles_batch Disk.backend Disk.registry Disk.batch reading
                cached (Disk.Cache Disk.local_fs) Disk.open_many Disk.start
                eq_refl eq_refl) as [Henter _].
  pose proof (@openfiles_batch Disk.backend Disk.registry Disk.batch reading
                cached (Disk.Cache Disk.local_fs) Disk.open_many [false; false]
                eq_refl eq_refl) as [_ [_ Hread]].
  pose proof (@openfiles_batch Disk.backend Disk.registry Disk.batch writing
                cached (Disk.Cache Disk.local_fs) Disk.open_many [false; false]
                eq_refl eq_refl) as [_ [Hwrite _]].
  split; [split; [reflexivity|]|split; [|split; [reflexivity|]]].
  - apply (Henter run_enter.1.1 run_enter.1.2.1 run_enter.1.2.2 run_enter.2).
    reflexivity.
  - apply Hread; [reflexivity|repeat constructor].
  - apply (Hwrite eq_refl run_exit.1.1 run_exit.1.2.1 run_exit.1.2.2 run_exit.2).
    reflexivity.
Defined.

Lemma open_files_items_witness :
  let run := open_files (PStr "data/*") "rb" None None None None 1 None None
               true true ∅ Disk.start in
  ∃ ofs, run.1.1 = inr ofs
    ∧ ∃ fs0 token paths w1,
        get_fs_token_paths (PStr "data/*") "rb" 1 None (Some ∅) None true
          Disk.start
        = (inr (fs0, token, paths), w1, run.2)
        ∧ ofs_fs ofs = Some fs0 ∧ ofs_mode ofs = "rb" ∧ ofs_files ofs = []
        ∧ of_path <$> ofs_items ofs = paths
        ∧ Forall (fresh_item fs0 "rb" None None None None) (ofs_items ofs)
        ∧ (negb (Str.contains "r" "rb") && true = false → run.1.2 = w1).
Proof.
  intros run. destruct run.1.1 as [e|ofs] eqn:Hrun; [discriminate Hrun|].
  exists ofs. split; [reflexivity|].
  apply (@open_files_items Disk.backend Disk.registry Disk.batch
           (PStr "data/*") "rb" None None None None 1 None None true true ∅
           Disk.start run.1.2 ofs run.2).
  rewrite <-Hrun. reflexivity.
Defined.

(** An unknown codec is refused only when there is a path, and by then the
    file system has been instantiated and searched. *)
Lemma open_files_unknown_codec_witness :
  open_files (PStr "data/*") "rb" (Some "zstd") None None None 1 None None
    true true ∅ Disk.start
  = (inl (ValueError "Compression type zstd not supported"), Disk.start,
     [EvNew Mem.File ∅; EvGlob Disk.local_fs "data/*";
      EvIsdir Disk.local_fs "data/a.csv"; EvIsdir Disk.local_fs "data/b.csv";
      EvIsdir Disk.local_fs "data/old"])
  ∧ open_files (PStr "nothing/*") "rb" (Some "zstd") None None None 1 None None
      true true ∅ Disk.start
    = (inr (OpenFiles_init [] "rb" (Some Disk.local_fs)), Disk.start,
       [EvNew Mem.File ∅; EvGlob Disk.local_fs "nothing/*"]).
Proof.
  split.
  - apply (@open_files_unknown_codec Disk.backend Disk.registry Disk.batch
             (PStr "data/*") "rb" "zstd" None None None 1 None None true true ∅
             Disk.start Disk.start Disk.local_fs "token"
             ["data/a.csv"; "data/b.csv"]);
      [discriminate|apply not_elem_of_dom; reflexivity|reflexivity|reflexivity].
  - apply (@open_files_unknown_codec Disk.backend Disk.registry Disk.batch
             (PStr "nothing/*") "rb" "zstd" None None None 1 None None true true ∅
             Disk.start Disk.start Disk.local_fs "token" []);
      [discriminate|apply not_elem_of_dom; reflexivity|reflexivity|reflexivity].
Defined.

(** Writing to [out/a.bin]: the wrapper is returned unopened. *)
Lemma open_plain_url_witness :
  open "out/a.bin" "wb" None None None None None ∅ Disk.start
  = (inr (mkOpenFile _ Disk.local_fs "out/a.bin" "wb" None None None None []),
     Disk.start, [EvNew Mem.File ∅]).
Proof.
  apply (@open_plain_url Disk.backend Disk.registry Disk.batch
           "out/a.bin" "wb" None None None None None None ∅
           Disk.start Disk.start Disk.start Mem.File ∅ Disk.local_fs None);
    reflexivity.
Defined.

(** A pattern in read mode: the first match in the order of the file
    system, and an [IndexError] when nothing matches. *)
Lemma open_first_match_witness :
  open "data/*" "rb" None None None None None ∅ Disk.start
  = (inr (mkOpenFile _ Disk.local_fs "data/b.csv" "rb" None None None None []),
     Disk.start, [EvNew Mem.File ∅; EvGlob Disk.local_fs "data/*"])
  ∧ open "nothing/*" "rb" None None None None None ∅ Disk.start
    = (inl (IndexError "list index out of range"), Disk.start,
       [EvNew Mem.File ∅; EvGlob Disk.local_fs "nothing/*"]).
Proof.
  split.
  - apply (@open_first_match Disk.backend Disk.registry Disk.batch
             "data/*" "rb" None None None None None ∅
             Disk.start Disk.start Disk.start Mem.File ∅ Disk.local_fs
             ["data/b.csv"; "data/a.csv"; "data/old"]);
      reflexivity.
  - apply (@open_first_match Disk.backend Disk.registry Disk.batch
             "nothing/*" "rb" None None None None None ∅
             Disk.start Disk.start Disk.start Mem.File ∅ Disk.local_fs []);
      reflexivity.
Defined.

(** A write mode is refused at once; a remote file system after the
    resolution, before any file is opened. *)
Lemma open_local_refuses_witness :
  open_local (PStr "data/a.csv") "wb" None None None None 1 None None true true ∅
    Disk.start
  = (inl (ValueError "Can only ensure local files when reading"), Disk.start, [])
  ∧ ∃ ev,
      open_local (PStr "ftp://h/data/a.csv") "rb" None None None None 1 None None
        true true ∅ Disk.start
      = (inl (ValueError
           "open_local can only be used on a filesystem which has attribute local_file=True"),
         Disk.start, ev)
      ∧ Forall (λ e, match e with EvOpen _ _ _ => False | _ => True end) ev.
Proof.
  split.
  - apply (proj1 (@open_local_refuses Disk.backend Disk.registry Disk.batch
                    (PStr "data/a.csv") "wb" None None None None 1 None None
                    true true ∅ Disk.start)).
    reflexivity.
  - eexists. split.
    + eapply (proj2 (@open_local_refuses Disk.backend Disk.registry Disk.batch
                       (PStr "ftp://h/data/a.csv") "rb" None None None None 1
                       None None true true ∅ Disk.start));
        [reflexivity|reflexivity|reflexivity|reflexivity].
    + repeat constructor.
Defined.

End openfiles_examples.
